(** * layer_ai: the retrieval pipeline of [utils.py] and [rag.py]

    A shallow embedding of the text loader, cleaner and chunker
    ([utils.py]) and of the [RAGPipeline] class ([rag.py]), with the
    properties of the retrieval core stated and settled on it.

    Python strings are lists of Unicode code points, Python integers are
    [Z], and the methods of [RAGPipeline] run in a small state and
    exception monad over the pipeline object and the file system. *)

From Stdlib Require Import String Ascii ZArith NArith List Bool Lia Sorted.
Import ListNotations.
Open Scope Z_scope.

Declare Scope py_scope.
Delimit Scope py_scope with py.

(** ** Python primitives *)

Module Py.

(** A code point; a [str] is a sequence of code points. *)
Definition char := N.
Definition str := list char.

(** An ASCII literal as a [str]. *)
Definition lit (s : string) : str :=
  map N_of_ascii (list_ascii_of_string s).

Definition len {A} (l : list A) : Z := Z.of_nat (length l).

(** Truthiness of a sequence: empty is false. *)
Definition truthy {A} (l : list A) : bool :=
  match l with [] => false | _ :: _ => true end.

(** [l[i]] for an index known to lie in [0, len l). *)
Definition get (l : str) (i : Z) : char := nth (Z.to_nat i) l 0%N.

(** [l[i]] with Python's negative indices; [None] is [IndexError]. *)
Definition item {A} (l : list A) (i : Z) : option A :=
  if (0 <=? i) && (i <? len l) then nth_error l (Z.to_nat i)
  else if (- len l <=? i) && (i <? 0) then nth_error l (Z.to_nat (i + len l))
  else None.

(** A slice bound, as [l[a:b]] normalises it. *)
Definition norm_bound (n i : Z) : Z :=
  if i <? 0 then Z.max 0 (i + n) else Z.min i n.

(** [l[a:b]]. *)
Definition slice {A} (l : list A) (a b : Z) : list A :=
  let a' := norm_bound (len l) a in
  let b' := norm_bound (len l) b in
  firstn (Z.to_nat (b' - a')) (skipn (Z.to_nat a') l).

(** [str.isspace] on one code point (also what [\s] matches). *)
Definition isspace (c : char) : bool :=
  (((9 <=? c) && (c <=? 13)) || ((28 <=? c) && (c <=? 32))
   || (c =? 133) || (c =? 160) || (c =? 5760)
   || ((8192 <=? c) && (c <=? 8202))
   || (c =? 8232) || (c =? 8233) || (c =? 8239) || (c =? 8287)
   || (c =? 12288))%N.

Fixpoint lstrip (s : str) : str :=
  match s with
  | c :: s' => if isspace c then lstrip s' else s
  | [] => []
  end.

Definition rstrip (s : str) : str := rev (lstrip (rev s)).

(** [s.strip()]. *)
Definition strip (s : str) : str := rstrip (lstrip s).

(** [s.split()]: the maximal whitespace-free runs; [word] is the run
    being read. *)
Fixpoint split_from (s : str) (word : str) : list str :=
  match s with
  | [] => if truthy word then [word] else []
  | c :: s' =>
      if isspace c
      then (if truthy word then word :: split_from s' [] else split_from s' [])
      else split_from s' (word ++ [c])
  end.

Definition split (s : str) : list str := split_from s [].

(** [sep.join(words)]. *)
Fixpoint join (sep : str) (words : list str) : str :=
  match words with
  | [] => []
  | [w] => w
  | w :: ws => w ++ sep ++ join sep ws
  end.

(** *** Calls that may raise or never return

    A call runs on a state [S] and either returns a value, raises an
    exception, or never returns; the state it leaves behind is kept in
    every case, as Python undoes nothing when an exception unwinds. *)

Inductive outcome (A : Type) : Type :=
| Returns (a : A)
| Raises
| Hangs.
Arguments Returns {A} a.
Arguments Raises {A}.
Arguments Hangs {A}.

Definition M (S A : Type) : Type := S -> outcome A * S.

Definition ret {S A} (a : A) : M S A := fun s => (Returns a, s).

Definition bind {S A B} (m : M S A) (f : A -> M S B) : M S B :=
  fun s =>
    match m s with
    | (Returns a, s') => f a s'
    | (Raises, s') => (Raises, s')
    | (Hangs, s') => (Hangs, s')
    end.

Definition raise {S A} : M S A := fun s => (Raises, s).
Definition hang {S A} : M S A := fun s => (Hangs, s).

(** [try: body / except Exception: handler]. *)
Definition try_except {S A} (body handler : M S A) : M S A :=
  fun s =>
    match body s with
    | (Raises, s') => handler s'
    | r => r
    end.

Definition gets {S A} (f : S -> A) : M S A := fun s => (Returns (f s), s).
Definition modify {S} (f : S -> S) : M S unit := fun s => (Returns tt, f s).

(** A call on a component [T] of the state [S]. *)
Definition zoom {S T A} (proj : S -> T) (upd : T -> S -> S)
    (m : M T A) : M S A :=
  fun s => let (r, t) := m (proj s) in (r, upd t s).

(** [for x in xs: body x]. *)
Fixpoint for_each {S A} (xs : list A) (body : A -> M S unit) : M S unit :=
  match xs with
  | [] => ret tt
  | x :: xs' => bind (body x) (fun _ => for_each xs' body)
  end.

(** [enumerate(xs)], counting from [i]. *)
Fixpoint enumerate_from {A} (i : Z) (xs : list A) : list (Z * A) :=
  match xs with
  | [] => []
  | x :: xs' => (i, x) :: enumerate_from (i + 1) xs'
  end.

Definition enumerate {A} (xs : list A) : list (Z * A) := enumerate_from 0 xs.

(** [sat m s Q]: the outcome and the final state of [m] run from [s]
    satisfy [Q]. *)
Definition sat {S A} (m : M S A) (s : S) (Q : outcome A -> S -> Prop) : Prop :=
  Q (fst (m s)) (snd (m s)).

(** A call that returns, or raises when [refused]. *)
Definition corpus_outcome {A} (refused : bool) (r : outcome A) : Prop :=
  match r with
  | Returns _ => True
  | Raises => refused = true
  | Hangs => False
  end.

(** *** The directories of raw documents

    A file is what [open(path, 'r', encoding=e).read()] gives for each
    encoding [e]: its text, a [UnicodeDecodeError], or another error
    (a directory of that name, no permission). *)

Inductive encoding := utf_8 | cp1251 | windows_1251 | latin_1.

Inductive read_result :=
| Decoded (content : str)
| DecodeError
| OtherError.

Record RawFile := { fname : string; fread : encoding -> read_result }.

(** The file system. A path is a directory with its entries, in the
    order the file system enumerates them, or is not there
    ([entries_of]). A path that is a glob pattern matches directories
    of its own: [matched_by] gives the files of the directories that the
    pattern matches, in the order [glob] lists them, for the directories
    that are there. *)
Record Dirs := {
  entries_of :> string -> option (list RawFile);
  matched_by : (string -> option (list RawFile)) -> string -> list RawFile
}.

Definition set_dir (d : Dirs) (path : string) (entries : list RawFile) : Dirs :=
  {| entries_of := fun p => if String.eqb p path then Some entries else d p;
     matched_by := matched_by d |}.

(** [os.makedirs(path, exist_ok=True)]; [refused] says that the system
    does not let the directory be created. *)
Definition makedirs (refused : bool) (path : string) : M Dirs unit :=
  bind (gets (fun d : Dirs => d path))
       (fun there =>
          match there with
          | Some _ => ret tt
          | None =>
              if refused then raise else modify (fun d => set_dir d path [])
          end).

Definition ends_with (suffix name : string) : bool :=
  let n := String.length name in
  let k := String.length suffix in
  Nat.leb k n && String.eqb (substring (n - k)%nat k name) suffix.

(** [glob.has_magic]: the path holds an asterisk, a question mark or
    an opening square bracket. *)
Fixpoint has_magic (path : string) : bool :=
  match path with
  | EmptyString => false
  | String c rest =>
      Ascii.eqb c "*" || Ascii.eqb c "?" || Ascii.eqb c "[" || has_magic rest
  end.

(** The files that [glob.glob] goes through for a pattern under [path].
    [glob] takes the whole path for a pattern: a path free of the three
    characters names the directory itself, and any other path names the
    directories that it matches as a pattern, which need not include
    the directory of that very name. *)
Definition scanned (d : Dirs) (path : string) : list RawFile :=
  if has_magic path then matched_by d (entries_of d) path
  else match d path with
       | Some entries => entries
       | None => []
       end.

(** [glob.glob(os.path.join(path, '*' + ext))]: the files scanned whose
    name ends in [ext], hidden names apart. *)
Definition glob (d : Dirs) (path ext : string) : list RawFile :=
  filter (fun f => ends_with ext (fname f) && negb (prefix "." (fname f)))
         (scanned d path).

End Py.

Notation "x <- m ;; k" := (Py.bind m (fun x => k))
  (at level 61, m at next level, right associativity) : py_scope.
Notation "m ;; k" := (Py.bind m (fun _ => k))
  (at level 61, right associativity) : py_scope.
Open Scope py_scope.

(** ** utils.py: loader, cleaner and chunker *)

Module Utils.
Import Py.

(** *** load_law_texts *)

Definition extensions : list string := [".txt"; ".md"; ".rtf"]%string.

Definition encodings : list encoding := [utf_8; cp1251; windows_1251; latin_1].

(** The [for encoding in encodings] loop on one file: the content read
    ([None] while no encoding has decoded it), or the exception that is
    not a [UnicodeDecodeError]. *)
Fixpoint read_with (f : RawFile) (encs : list encoding) : outcome (option str) :=
  match encs with
  | [] => Returns None
  | e :: rest =>
      match fread f e with
      | Decoded content => Returns (Some content)
      | DecodeError => read_with f rest
      | OtherError => Raises
      end
  end.

(** The body of [for file_path in files]: what it appends to
    [law_texts]. Both the [else] branch and the outer [except] only log. *)
Definition load_file (f : RawFile) : list (string * str) :=
  match read_with f encodings with
  | Returns (Some content) =>
      if truthy content then [(fname f, content)] else []
  | _ => []
  end.

(** Paths stand for their absolute form; [refused] says that the system
    does not let [data_dir] be created. *)
Definition load_law_texts (refused : bool) (data_dir : string)
    : M Dirs (list (string * str)) :=
  fs <- gets (fun d : Dirs => d) ;;
  match fs data_dir with
  | None => makedirs refused data_dir ;; ret []
  | Some _ =>
      ret (flat_map (fun ext => flat_map load_file (glob fs data_dir ext))
                    extensions)
  end.

(** *** clean_text *)

(** The characters named in the pattern of [clean_text] besides [\w]
    and [\s]: full stop, comma, exclamation and question marks,
    semicolon, colon, hyphen, round and square brackets, double and
    single quotes, and the two guillemets (by code point). *)
Definition listed_punctuation : list char :=
  [46; 44; 33; 63; 59; 58; 45; 40; 41; 91; 93; 34; 39; 171; 187]%N.

Definition is_listed (c : char) : bool :=
  existsb (N.eqb c) listed_punctuation.

Definition ascii_word (c : char) : bool :=
  (((48 <=? c) && (c <=? 57)) || ((65 <=? c) && (c <=? 90))
   || ((97 <=? c) && (c <=? 122)) || (c =? 95))%N.

Section Cleaner.

(** The Unicode alphanumeric table behind [\w], for the code points
    above ASCII. *)
Variable unicode_alnum : char -> bool.

Definition is_word (c : char) : bool :=
  if (c <? 128)%N then ascii_word c else unicode_alnum c.

(** The complement of the character class of the pattern. *)
Definition allowed (c : char) : bool :=
  is_word c || isspace c || is_listed c.

Definition clean_text (text : str) : str :=
  let text := join (lit " ") (split text) in
  filter allowed text.

End Cleaner.

(** *** split_text *)

Definition sentence_endings : list char := [46; 33; 63; 10]%N.

Definition is_sentence_ending (c : char) : bool :=
  existsb (N.eqb c) sentence_endings.

(** The [for i in range(...)] scan of [split_text], from [i] for [n]
    positions: the first sentence ending past [threshold] sets
    [best_break] and leaves the loop. *)
Fixpoint scan (text : str) (threshold i : Z) (n : nat) (best_break : Z) : Z :=
  match n with
  | O => best_break
  | S n' =>
      if is_sentence_ending (get text i) && (threshold <? i)
      then i + 1
      else scan text threshold (i + 1) n' best_break
  end.

Definition find_break (text : str) (start chunk_size end_ : Z) : Z :=
  let lo := Z.max 0 (end_ - 200) in
  let hi := Z.min (len text) (end_ + 100) in
  scan text (start + chunk_size / 2) lo (Z.to_nat (hi - lo)) end_.

(** The end of the slice cut at [start]. *)
Definition chunk_end (text : str) (chunk_size start : Z) : Z :=
  let end_ := start + chunk_size in
  if end_ <? len text then find_break text start chunk_size end_ else end_.

Inductive loop_state :=
| Running (start : Z) (chunks : list str)
| Finished (chunks : list str).

(** One pass through the body of the [while] loop. *)
Definition loop_body (text : str) (chunk_size overlap : Z)
    (start : Z) (chunks : list str) : loop_state :=
  let end_ := chunk_end text chunk_size start in
  let chunk := strip (slice text start end_) in
  let chunks := if truthy chunk then chunks ++ [chunk] else chunks in
  let start := end_ - overlap in
  if len text <=? start then Finished chunks else Running start chunks.

(** The chunks appended so far. *)
Definition chunks_in (st : loop_state) : list str :=
  match st with Running _ c => c | Finished c => c end.

(** [while start < len(text)], with [fuel] bounding the number of
    passes; [None] when the fuel runs out. *)
Fixpoint while_loop (fuel : nat) (text : str) (chunk_size overlap : Z)
    (start : Z) (chunks : list str) : option (list str) :=
  match fuel with
  | O => None
  | S fuel' =>
      if start <? len text then
        match loop_body text chunk_size overlap start chunks with
        | Finished chunks' => Some chunks'
        | Running start' chunks' =>
            while_loop fuel' text chunk_size overlap start' chunks'
        end
      else Some chunks
  end.

Definition split_text (fuel : nat) (text : str) (chunk_size overlap : Z)
    : option (list str) :=
  if len text <=? chunk_size then Some [text]
  else while_loop fuel text chunk_size overlap 0 [].

(** The loop after [n] passes, whether or not it ever ends. *)
Fixpoint passes (n : nat) (text : str) (chunk_size overlap : Z)
    (st : loop_state) : loop_state :=
  match n, st with
  | S n', Running start chunks =>
      if start <? len text
      then passes n' text chunk_size overlap
                  (loop_body text chunk_size overlap start chunks)
      else Finished chunks
  | _, _ => st
  end.

(** *** The slices behind the chunks

    The same loop, recording the bounds [(start, end)] of each slice
    [text[start:end]] instead of the stripped slice. *)

Inductive span_state :=
| SRunning (start : Z) (spans : list (Z * Z))
| SFinished (spans : list (Z * Z)).

Definition span_body (text : str) (chunk_size overlap : Z)
    (start : Z) (spans : list (Z * Z)) : span_state :=
  let end_ := chunk_end text chunk_size start in
  let spans := spans ++ [(start, end_)] in
  let start := end_ - overlap in
  if len text <=? start then SFinished spans else SRunning start spans.

Fixpoint span_loop (fuel : nat) (text : str) (chunk_size overlap : Z)
    (start : Z) (spans : list (Z * Z)) : option (list (Z * Z)) :=
  match fuel with
  | O => None
  | S fuel' =>
      if start <? len text then
        match span_body text chunk_size overlap start spans with
        | SFinished spans' => Some spans'
        | SRunning start' spans' =>
            span_loop fuel' text chunk_size overlap start' spans'
        end
      else Some spans
  end.

Definition split_spans (fuel : nat) (text : str) (chunk_size overlap : Z)
    : option (list (Z * Z)) :=
  if len text <=? chunk_size then Some [(0, len text)]
  else span_loop fuel text chunk_size overlap 0 [].

Definition cut (text : str) (sp : Z * Z) : str := slice text (fst sp) (snd sp).

(** The chunks the loop appends for these slices. *)
Definition chunks_of_spans (text : str) (spans : list (Z * Z)) : list str :=
  filter truthy (map (fun sp => strip (cut text sp)) spans).

(** The first piece, then every later piece without its first
    [overlap] characters. *)
Definition drop_overlaps (overlap : Z) (pieces : list str) : str :=
  match pieces with
  | [] => []
  | p :: rest => p ++ flat_map (skipn (Z.to_nat overlap)) rest
  end.

(** The text put together again from the slices, and what holds of
    [start] and [spans] at the head of the loop. *)
Definition rebuilt (text : str) (overlap : Z) (spans : list (Z * Z)) : str :=
  drop_overlaps overlap (map (cut text) spans).

Definition at_head (text : str) (overlap : Z) (start : Z)
    (spans : list (Z * Z)) : Prop :=
  (spans = [] /\ start = 0) \/
  (spans <> [] /\ 0 <= start /\
   rebuilt text overlap spans
   = firstn (Z.to_nat (Z.min (start + overlap) (len text))) text).

(** The pieces with a chosen number of leading characters removed from
    each. *)
Fixpoint drop_leading (cuts : list nat) (pieces : list str) : str :=
  match cuts, pieces with
  | n :: cuts', p :: rest => skipn n p ++ drop_leading cuts' rest
  | [], p :: rest => p ++ drop_leading [] rest
  | _, [] => []
  end.

(** The length of the longest stretch of [text] without a sentence
    ending; [run] is the length of the stretch being read. *)
Fixpoint longest_run_from (text : str) (run : Z) : Z :=
  match text with
  | [] => run
  | c :: rest =>
      if is_sentence_ending c then Z.max run (longest_run_from rest 0)
      else longest_run_from rest (run + 1)
  end.

Definition longest_run (text : str) : Z := longest_run_from text 0.

(** A word of [s.split()]: not empty, and free of whitespace. *)
Definition spaceless (w : str) : Prop :=
  w <> [] /\ Forall (fun c => isspace c = false) w.

(** A run of two or more whitespace characters. *)
Fixpoint has_space_run (text : str) : bool :=
  match text with
  | c :: (c' :: _) as rest => (isspace c && isspace c') || has_space_run rest
  | _ => false
  end.

End Utils.

(** ** rag.py: the RAGPipeline class *)

Module Rag.
Import Py Utils.

(** The metadata dictionary stored with each chunk. *)
Record Meta := {
  source : string;
  chunk_id : Z;
  total_chunks : Z;
  char_count : Z
}.

Definition index_path : string := "data/faiss.index".
Definition chunks_path : string := "data/laws_chunks.pkl".
Definition fallback_model : string := "paraphrase-multilingual-MiniLM-L12-v2".
Definition sample_name : string := "sample_civil_code.txt".

(** Where the FAISS calls of the index-building block can raise, and
    where the calls of the saving block can; a write that fails may
    leave a partial file. *)
Inductive index_stage := AtShape | AtIndexFlatIP | AtNormalize | AtAdd.
Inductive save_stage := AtMakedirs | AtWriteIndex (partial : bool) | AtOpen | AtDump.

Definition index_stage_eqb (a b : index_stage) : bool :=
  match a, b with
  | AtShape, AtShape | AtIndexFlatIP, AtIndexFlatIP
  | AtNormalize, AtNormalize | AtAdd, AtAdd => true
  | _, _ => false
  end.

Section Pipeline.

(** What the libraries and the long literals supply: the Unicode
    table of [\w], the text of [get_sample_legal_text] and how its
    UTF-8 bytes read under the other encodings, and the float32
    arithmetic of the embeddings. *)
Variable unicode_alnum : char -> bool.
Variable sample_legal_text : str.
Variable sample_reread : encoding -> read_result.
Context {vec score : Type}.
Variable normalize_L2 : vec -> vec.
Variable inner_product : vec -> vec -> score.
Variable score_leb : score -> score -> bool.
Variable lowest_score : score.

(** A loaded [SentenceTransformer], as the library documents it:
    [encode] gives one vector per text, in the order of the texts, or
    raises. *)
Record Encoder := { embed : str -> vec; crashes : list str -> bool }.

Definition encode (enc : Encoder) (texts : list str) : option (list vec) :=
  if crashes enc texts then None else Some (map (embed enc) texts).

Record RAGPipeline := {
  model_name : string;
  encoder : option Encoder;
  index : option (list vec);
  chunks : list str;
  chunk_metadata : list Meta
}.

(** [RAGPipeline.__init__]. *)
Definition init (name : string) : RAGPipeline :=
  {| model_name := name; encoder := None; index := None;
     chunks := []; chunk_metadata := [] |}.

(** What a path under [data/] holds: a FAISS index; a pickled
    dictionary with the keys [chunks] and [metadata]; a pickled
    dictionary with the key [chunks] and without the key [metadata]; or
    anything else (a file that does not unpickle, or an object without
    the key [chunks], which fails a load at the same point: before
    anything of the chunk file is assigned). *)
Inductive artifact :=
| FaissIndex (vectors : list vec)
| Pickle (stored_chunks : list str) (stored_metadata : list Meta)
| ChunksOnly (stored_chunks : list str)
| Garbage.

Record World := {
  self : RAGPipeline;
  dirs : Dirs;
  files : string -> option artifact
}.

(** The world outside the interpreter during one call. *)
Record Env := {
  SENTENCE_TRANSFORMERS_AVAILABLE : bool;
  FAISS_AVAILABLE : bool;
  SentenceTransformer : string -> option Encoder;
  corpus_read_only : bool;
  index_fault : option index_stage;
  save_fault : option save_stage
}.

Definition with_self (f : RAGPipeline -> RAGPipeline) : M World unit :=
  modify (fun w => {| self := f (self w); dirs := dirs w; files := files w |}).

Definition set_encoder (e : Encoder) : M World unit :=
  with_self (fun p => {| model_name := model_name p; encoder := Some e;
                         index := index p; chunks := chunks p;
                         chunk_metadata := chunk_metadata p |}).

Definition set_index (i : list vec) : M World unit :=
  with_self (fun p => {| model_name := model_name p; encoder := encoder p;
                         index := Some i; chunks := chunks p;
                         chunk_metadata := chunk_metadata p |}).

Definition set_chunks (c : list str) : M World unit :=
  with_self (fun p => {| model_name := model_name p; encoder := encoder p;
                         index := index p; chunks := c;
                         chunk_metadata := chunk_metadata p |}).

Definition set_chunk_metadata (m : list Meta) : M World unit :=
  with_self (fun p => {| model_name := model_name p; encoder := encoder p;
                         index := index p; chunks := chunks p;
                         chunk_metadata := m |}).

Definition in_dirs {A} (m : M Dirs A) : M World A :=
  zoom dirs (fun d w => {| self := self w; dirs := d; files := files w |}) m.

Definition write_file (path : string) (a : artifact) : M World unit :=
  modify (fun w => {| self := self w; dirs := dirs w;
                      files := fun p => if String.eqb p path then Some a
                                        else files w p |}).

Definition exists_ (path : string) : M World bool :=
  gets (fun w => match files w path with Some _ => true | None => false end).

(** [SentenceTransformer(name)]. *)
Definition construct (env : Env) (name : string) : M World Encoder :=
  match SentenceTransformer env name with
  | Some e => ret e
  | None => raise
  end.

Definition _load_encoder (env : Env) : M World bool :=
  if negb (SENTENCE_TRANSFORMERS_AVAILABLE env) then ret false
  else
    p <- gets self ;;
    match encoder p with
    | None =>
        try_except
          (e <- construct env (model_name p) ;; set_encoder e ;; ret true)
          (try_except
             (e <- construct env fallback_model ;; set_encoder e ;; ret true)
             (ret false))
    | Some _ => ret true
    end.

(** [faiss.read_index(path)]. *)
Definition read_index (path : string) : M World (list vec) :=
  f <- gets (fun w => files w path) ;;
  match f with
  | Some (FaissIndex v) => ret v
  | _ => raise
  end.

(** [pickle.load] of the file at [path]: the object read, as what it
    holds under the keys [chunks] and [metadata]. *)
Definition load_pickle (path : string)
    : M World (option (list str) * option (list Meta)) :=
  f <- gets (fun w => files w path) ;;
  match f with
  | Some (Pickle c m) => ret (Some c, Some m)
  | Some (ChunksOnly c) => ret (Some c, None)
  | _ => raise
  end.

(** [data[key]]: the value, or a [KeyError]. *)
Definition subscript {A} (value : option A) : M World A :=
  match value with
  | Some a => ret a
  | None => raise
  end.

Definition _load_existing_index (env : Env) (index_path chunks_path : string)
    : M World bool :=
  try_except
    (ok <- _load_encoder env ;;
     if negb ok then ret false
     else
       i <- read_index index_path ;;
       set_index i ;;
       data <- load_pickle chunks_path ;;
       c <- subscript (fst data) ;;
       set_chunks c ;;
       m <- subscript (snd data) ;;
       set_chunk_metadata m ;;
       ret true)
    (ret false).

(** The sample document written when no document was found; writing it
    fails when nothing can be created under [data_dir]. *)
Definition sample_file : RawFile :=
  {| fname := sample_name;
     fread := fun e => match e with
                       | utf_8 => Decoded sample_legal_text
                       | _ => sample_reread e
                       end |}.

Definition write_sample (refused : bool) (data_dir : string) : M Dirs unit :=
  makedirs refused data_dir ;;
  (if refused then raise else ret tt) ;;
  modify (fun d : Dirs =>
            match d data_dir with
            | Some entries =>
                set_dir d data_dir
                  (filter (fun f => negb (String.eqb (fname f) sample_name))
                          entries ++ [sample_file])
            | None => d
            end).

Definition fault_here (env : Env) (stage : index_stage) : M World unit :=
  match index_fault env with
  | Some s => if index_stage_eqb s stage then raise else ret tt
  | None => ret tt
  end.

(** The two nested loops filling [self.chunks] and
    [self.chunk_metadata]. *)
Definition process_documents (fuel : nat) (law_texts : list (string * str))
    (chunk_size overlap : Z) : M World unit :=
  for_each law_texts (fun doc =>
    let filename := fst doc in
    let cleaned_content := clean_text unicode_alnum (snd doc) in
    document_chunks <-
      match split_text fuel cleaned_content chunk_size overlap with
      | Some c => ret c
      | None => hang
      end ;;
    for_each (enumerate document_chunks) (fun ic =>
      p <- gets self ;;
      set_chunks (chunks p ++ [snd ic]) ;;
      p <- gets self ;;
      set_chunk_metadata
        (chunk_metadata p ++
           [{| source := filename; chunk_id := fst ic;
               total_chunks := len document_chunks;
               char_count := len (snd ic) |}]))).

(** The [try] block that builds the index from the embeddings. *)
Definition build_faiss (env : Env) (embeddings : list vec) : M World unit :=
  fault_here env AtShape ;;
  fault_here env AtIndexFlatIP ;;
  set_index [] ;;
  fault_here env AtNormalize ;;
  let embeddings := map normalize_L2 embeddings in
  fault_here env AtAdd ;;
  p <- gets self ;;
  match index p with
  | Some vectors => set_index (vectors ++ embeddings)
  | None => raise
  end.

(** [faiss.write_index(self.index, path)]. *)
Definition write_index (env : Env) (vectors : option (list vec))
    (path : string) : M World unit :=
  match save_fault env, vectors with
  | Some (AtWriteIndex partial), _ =>
      (if partial then write_file path Garbage else ret tt) ;; raise
  | _, Some v => write_file path (FaissIndex v)
  | _, None => raise
  end.

(** [with open(path, 'wb') as f: pickle.dump(..., f)]: opening
    truncates the file, so a failing dump leaves it unreadable. *)
Definition dump_chunks (env : Env) (p : RAGPipeline) (path : string)
    : M World unit :=
  match save_fault env with
  | Some AtOpen => raise
  | Some AtDump => write_file path Garbage ;; raise
  | _ => write_file path (Pickle (chunks p) (chunk_metadata p))
  end.

(** The [try] block that saves the index and the chunks. *)
Definition save (env : Env) : M World bool :=
  match save_fault env with Some AtMakedirs => raise | _ => ret tt end ;;
  p <- gets self ;;
  write_index env (index p) index_path ;;
  dump_chunks env p chunks_path ;;
  ret true.

(** The documents of [data_dir], or the sample document written there
    when none was found. *)
Definition load_or_sample (refused : bool) (data_dir : string)
    : M Dirs (list (string * str)) :=
  law_texts <- load_law_texts refused data_dir ;;
  if negb (truthy law_texts)
  then write_sample refused data_dir ;; load_law_texts refused data_dir
  else ret law_texts.

(** [self.encoder.encode(self.chunks)]. *)
Definition embed_chunks : M World (list vec) :=
  p <- gets self ;;
  match encoder p with
  | Some enc =>
      match encode enc (chunks p) with
      | Some e => ret e
      | None => raise
      end
  | None => raise
  end.

(** The part of [build_index] after the fast path; each [try] block
    whose handler returns [False] yields [None] or [false] instead. *)
Definition rebuild (env : Env) (fuel : nat) (data_dir : string)
    (chunk_size overlap : Z) : M World bool :=
  ok <- _load_encoder env ;;
  if negb ok then ret false
  else
    law_texts <- in_dirs (load_or_sample (corpus_read_only env) data_dir) ;;
    set_chunks [] ;;
    set_chunk_metadata [] ;;
    process_documents fuel law_texts chunk_size overlap ;;
    embeddings <- try_except (e <- embed_chunks ;; ret (Some e)) (ret None) ;;
    match embeddings with
    | None => ret false
    | Some embeddings =>
        built <- try_except (build_faiss env embeddings ;; ret true) (ret false) ;;
        if negb built then ret false
        else try_except (save env) (ret false)
    end.

(** Whether [build_index] takes the fast path. *)
Definition fast_path (force_rebuild : bool) : M World bool :=
  have_index <- exists_ index_path ;;
  have_chunks <- exists_ chunks_path ;;
  ret (negb force_rebuild && have_index && have_chunks).

Definition build_index (env : Env) (fuel : nat) (data_dir : string)
    (chunk_size overlap : Z) (force_rebuild : bool) : M World bool :=
  if negb (SENTENCE_TRANSFORMERS_AVAILABLE env) || negb (FAISS_AVAILABLE env)
  then ret false
  else
    fast <- fast_path force_rebuild ;;
    if fast
    then _load_existing_index env index_path chunks_path
    else rebuild env fuel data_dir chunk_size overlap.

(** *** search_law *)

(** FAISS's [IndexFlatIP.search] on one query row, as the library
    documents it: exactly [k] labels and scores, the stored positions by
    descending inner product first, and for the places beyond the number
    of stored vectors the label [-1] with the lowest float; its Python
    wrapper asserts [k > 0]. FAISS leaves the order among equal scores
    open; [insert_hit] puts the earlier position first, one of the
    orders FAISS may give, and no statement below is about the order
    among equal scores. *)
Fixpoint insert_hit (h : Z * score) (hits : list (Z * score)) : list (Z * score) :=
  match hits with
  | [] => [h]
  | h' :: rest =>
      if score_leb (snd h') (snd h) then h :: hits
      else h' :: insert_hit h rest
  end.

Definition ranked (vectors : list vec) (q : vec) : list (Z * score) :=
  fold_right insert_hit []
    (map (fun iv => (fst iv, inner_product q (snd iv))) (enumerate vectors)).

Definition faiss_search (vectors : list vec) (q : vec) (k : Z)
    : option (list (Z * score)) :=
  if k <=? 0 then None
  else
    let top := firstn (Z.to_nat k) (ranked vectors q) in
    Some (top ++ repeat (-1, lowest_score) (Z.to_nat k - length top)).

Record SearchResult := {
  chunk : str;
  metadata : Meta;
  score_of : score;
  rank : Z
}.

(** The [for i in range(len(indices[0]))] loop; [None] is the
    [IndexError] of a list subscript. *)
Fixpoint collect (p : RAGPipeline) (hits : list (Z * (Z * score)))
    (results : list SearchResult) : option (list SearchResult) :=
  match hits with
  | [] => Some results
  | (i, (idx, sc)) :: rest =>
      if idx <? len (chunks p) then
        match item (chunks p) idx, item (chunk_metadata p) idx with
        | Some c, Some m =>
            collect p rest
              (results ++ [{| chunk := c; metadata := m; score_of := sc;
                              rank := i + 1 |}])
        | _, _ => None
        end
      else collect p rest results
  end.

Definition search_law (query : str) (k : Z) : M World (list SearchResult) :=
  p <- gets self ;;
  match index p, encoder p with
  | Some vectors, Some enc =>
      try_except
        (match encode enc [query] with
         | Some query_embedding =>
             match map normalize_L2 query_embedding with
             | q :: _ =>
                 match faiss_search vectors q k with
                 | Some hits =>
                     match collect p (enumerate hits) [] with
                     | Some results => ret results
                     | None => raise
                     end
                 | None => raise
                 end
             | [] => raise
             end
         | None => raise
         end)
        (ret [])
  | _, _ => ret []
  end.

(** *** Notions used to state the properties *)

(** The metadata record [m] is that of chunk [c]: its length, and its
    place among the chunks of the document it names. *)
Definition describes (fuel : nat) (chunk_size overlap : Z)
    (docs : list (string * str)) (m : Meta) (c : str) : Prop :=
  char_count m = len c /\
  exists content document_chunks,
    In (source m, content) docs /\
    split_text fuel (clean_text unicode_alnum content) chunk_size overlap
      = Some document_chunks /\
    total_chunks m = len document_chunks /\
    0 <= chunk_id m /\
    nth_error document_chunks (Z.to_nat (chunk_id m)) = Some c.

(** Position by position: as many vectors and metadata records as
    chunks, the [i]-th vector the normalised embedding of the [i]-th
    chunk, the [i]-th record that of the [i]-th chunk. *)
Definition aligned (emb : str -> vec) (record_of : Meta -> str -> Prop)
    (vectors : list vec) (cs : list str) (ms : list Meta) : Prop :=
  length vectors = length cs /\
  length ms = length cs /\
  forall i c, nth_error cs i = Some c ->
    nth_error vectors i = Some (normalize_L2 (emb c)) /\
    exists m, nth_error ms i = Some m /\ record_of m c.

(** The live index, chunks and metadata of [w'] are the artifacts stored
    at the two paths in [w]. *)
Definition loaded_from (index_path chunks_path : string) (w w' : World) : Prop :=
  exists vectors cs ms,
    files w index_path = Some (FaissIndex vectors) /\
    files w chunks_path = Some (Pickle cs ms) /\
    index (self w') = Some vectors /\
    chunks (self w') = cs /\
    chunk_metadata (self w') = ms.

(** No model can be loaded for this pipeline. *)
Definition encoder_unavailable (env : Env) (p : RAGPipeline) : Prop :=
  encoder p = None /\
  SentenceTransformer env (model_name p) = None /\
  SentenceTransformer env fallback_model = None.

(** Everything but the encoder is as before. *)
Definition same_store (w w' : World) : Prop :=
  model_name (self w') = model_name (self w) /\
  index (self w') = index (self w) /\
  chunks (self w') = chunks (self w) /\
  chunk_metadata (self w') = chunk_metadata (self w) /\
  dirs w' = dirs w /\
  files w' = files w.

(** The pipeline object apart from its index, and the disk. *)
Definition same_but_index (w w' : World) : Prop :=
  model_name (self w') = model_name (self w) /\
  encoder (self w') = encoder (self w) /\
  chunks (self w') = chunks (self w) /\
  chunk_metadata (self w') = chunk_metadata (self w) /\
  dirs w' = dirs w /\
  files w' = files w.

(** What the chunking loops keep of the world [w0] they start from, and
    what they establish of the two lists they fill. *)
Definition kept (fuel : nat) (chunk_size overlap : Z)
    (docs : list (string * str)) (w0 s : World) : Prop :=
  model_name (self s) = model_name (self w0) /\
  encoder (self s) = encoder (self w0) /\
  index (self s) = index (self w0) /\
  dirs s = dirs w0 /\
  files s = files w0 /\
  Forall2 (fun c m => describes fuel chunk_size overlap docs m c)
          (chunks (self s)) (chunk_metadata (self s)).

(** The state a successful rebuild leaves: an aligned pipeline, saved as
    it is. *)
Definition built (env : Env) (fuel : nat) (data_dir : string)
    (chunk_size overlap : Z) (w w' : World) : Prop :=
  exists enc vectors docs,
    encoder (self w') = Some enc /\
    index (self w') = Some vectors /\
    fst (load_or_sample (corpus_read_only env) data_dir (dirs w))
      = Returns docs /\
    aligned (embed enc) (describes fuel chunk_size overlap docs)
            vectors (chunks (self w')) (chunk_metadata (self w')) /\
    files w' index_path = Some (FaissIndex vectors) /\
    files w' chunks_path
      = Some (Pickle (chunks (self w')) (chunk_metadata (self w'))).

(** How a rebuild ends. *)
Definition rebuild_post (env : Env) (fuel : nat) (data_dir : string)
    (chunk_size overlap : Z) (w : World) (r : outcome bool) (w' : World) : Prop :=
  (corpus_read_only env = false -> r <> Raises) /\
  (encoder_unavailable env (self w) -> r = Returns false /\ w' = w) /\
  (index_fault env <> None ->
   r <> Returns true /\ files w' = files w /\
   (index_fault env = Some AtShape \/ index_fault env = Some AtIndexFlatIP ->
    index (self w') = index (self w))) /\
  (save_fault env <> None ->
   r <> Returns true /\
   (save_fault env = Some AtMakedirs \/
    save_fault env = Some (AtWriteIndex false) ->
    files w' = files w)) /\
  (forall enc, encoder (self w') = Some enc ->
               crashes enc (chunks (self w')) = true ->
               r <> Returns true /\ files w' = files w /\
               index (self w') = index (self w)) /\
  (r = Returns true -> built env fuel data_dir chunk_size overlap w w').

End Pipeline.

Arguments Encoder : clear implicits.
Arguments RAGPipeline : clear implicits.
Arguments artifact : clear implicits.
Arguments World : clear implicits.
Arguments Env : clear implicits.
Arguments SearchResult : clear implicits.

End Rag.

(** ** Concrete inputs *)

Module Inputs.
Import Py.

Definition looping_text : str := lit "aaaaaa.aaaaaaaaaaaaa".

Definition overlong_text : str := lit "aaaaa.aaaaaa.aaaaaaaaa".

Definition spaced_text : str := lit "aaaaaaaaa bbbbbbbbb".

Definition plain_text : str := lit "aaaaaaaaaaaaaaaaaaaaaaaaaaaaaa".

Definition lettered_text : str := lit "abcdefghij".

End Inputs.

(** A small instance of the pipeline: embeddings of one dimension over
    [Z], a text embedded as its length, normalisation as the sign, and an
    encoder that fails on a batch of more than two texts. *)

Module Toy.
Import Py Utils Rag.

Definition alnum (c : char) : bool := ((1024 <=? c) && (c <=? 1279))%N.
Definition sample : str := lit "Article 1. Sample.".
Definition sample_reread (e : encoding) : read_result := DecodeError.
Definition normalize (v : Z) : Z := Z.sgn v.
Definition lowest : Z := - 2 ^ 128.

Definition encoder : Encoder Z :=
  {| embed := fun s => len s; crashes := fun texts => 2 <? len texts |}.

Definition env (idx : option index_stage) (sv : option save_stage) : Env Z :=
  {| SENTENCE_TRANSFORMERS_AVAILABLE := true;
     FAISS_AVAILABLE := true;
     SentenceTransformer := fun _ => Some encoder;
     corpus_read_only := false;
     index_fault := idx;
     save_fault := sv |}.

Definition doc (name content : string) : RawFile :=
  {| fname := name; fread := fun _ => Decoded (lit content) |}.

Definition laws : string := "data/laws_raw".

Definition corpus (entries : list RawFile) : Dirs :=
  {| entries_of := fun p => if String.eqb p laws then Some entries else None;
     matched_by := fun _ _ => [] |}.

Definition build (e : Env Z) (force_rebuild : bool) : M (World Z) bool :=
  build_index alnum sample sample_reread normalize e 2000 laws 1000 200
              force_rebuild.

Definition search : str -> Z -> M (World Z) (list (SearchResult Z)) :=
  search_law normalize Z.mul Z.leb lowest.

(** A new process: a pipeline just constructed, on a given disk. *)
Definition fresh (d : Dirs) (f : string -> option (artifact Z)) : World Z :=
  {| self := init "paraphrase-multilingual-mpnet-base-v2"; dirs := d; files := f |}.

Definition with_dirs (d : Dirs) (w : World Z) : World Z :=
  {| self := self w; dirs := d; files := files w |}.

Definition one_doc : Dirs := corpus [doc "a.txt" "One."].
Definition two_docs : Dirs :=
  corpus [doc "a.txt" "One."; doc "b.txt" "Two two."].
Definition three_docs : Dirs :=
  corpus [doc "a.txt" "One."; doc "b.txt" "Two two."; doc "c.md" "Three."].

(** A first build on one document. *)
Definition w0 : World Z := fresh one_doc (fun _ => None).
Definition w1 : World Z := snd (build (env None None) false w0).

(** A forced rebuild on two documents that cannot open the chunk file
    for writing, and the load a new process then does. *)
Definition w2 : World Z :=
  snd (build (env None (Some AtOpen)) true (with_dirs two_docs w1)).
Definition w3 : World Z :=
  snd (build (env None None) false (fresh (dirs w2) (files w2))).

(** A forced rebuild on three documents, on which the encoder fails. *)
Definition w4 : World Z :=
  snd (build (env None None) true (with_dirs three_docs w1)).

(** A directory holding one empty text file. *)
Definition empty_file : RawFile :=
  {| fname := "empty.txt"; fread := fun _ => Decoded [] |}.
Definition empty_corpus : Dirs := corpus [empty_file].

End Toy.

(** ** rag.py: get_stats and the module-level functions *)

Module RagModule.
Import Py Utils Rag.

Definition default_model : string := "paraphrase-multilingual-mpnet-base-v2".
Definition default_data_dir : string := "data/laws_raw".

(** [sum(...)] over integers. *)
Definition sum (l : list Z) : Z := fold_right Z.add 0 l.

Section Module_level.

Variable unicode_alnum : char -> bool.
Variable sample_legal_text : str.
Variable sample_reread : encoding -> read_result.
Context {vec score float : Type}.
Variable normalize_L2 : vec -> vec.
Variable inner_product : vec -> vec -> score.
Variable score_leb : score -> score -> bool.
Variable lowest_score : score.

(** The true division [int / int], a float. *)
Variable true_div : Z -> Z -> float.

(** *** RAGPipeline.get_stats *)

Inductive number := Int (z : Z) | Float (x : float).

Record Statistics := {
  total_chunks : Z;
  total_characters : Z;
  average_chunk_size : number;
  sources : list string;
  model_name : string;
  index_size : Z
}.

(** The dictionaries that [get_stats] and [get_rag_stats] return: the
    one with the key [error], the statistics, and the empty one. *)
Inductive stats_dict :=
| NoDocuments
| Stats (s : Statistics)
| EmptyDict.

(** [list(set(...))] keeps one occurrence of each source, in an order of
    its own; the order here is that of [nodup]. *)
Definition get_stats (p : RAGPipeline vec) : stats_dict :=
  if negb (truthy (chunks p)) then NoDocuments
  else
    let total_chunks := len (chunks p) in
    let total_chars := sum (map len (chunks p)) in
    let avg_chunk_size :=
      if 0 <? total_chunks then Float (true_div total_chars total_chunks)
      else Int 0 in
    let sources := nodup string_dec (map source (chunk_metadata p)) in
    Stats {| total_chunks := total_chunks;
             total_characters := total_chars;
             average_chunk_size := avg_chunk_size;
             sources := sources;
             model_name := Rag.model_name p;
             index_size := match index p with
                           | Some vectors => len vectors
                           | None => 0
                           end |}.

(** *** The global pipeline instance *)

(** The interpreter's global [rag_pipeline], and the disk. *)
Record Process := {
  rag_pipeline : option (RAGPipeline vec);
  disk_dirs : Dirs;
  disk_files : string -> option (artifact vec)
}.

(** A method call [rag_pipeline.m(...)]; on [None] it is an
    [AttributeError]. *)
Definition on_pipeline {A} (m : M (World vec) A) : M Process A :=
  fun g =>
    match rag_pipeline g with
    | Some p =>
        let (r, w) := m {| self := p; dirs := disk_dirs g; files := disk_files g |} in
        (r, {| rag_pipeline := Some (self w); disk_dirs := dirs w;
               disk_files := files w |})
    | None => (Raises, g)
    end.

Definition set_pipeline (p : RAGPipeline vec) : M Process unit :=
  modify (fun g => {| rag_pipeline := Some p; disk_dirs := disk_dirs g;
                      disk_files := disk_files g |}).

Definition path_exists (path : string) : M Process bool :=
  gets (fun g => match disk_files g path with Some _ => true | None => false end).

(** [initialize_rag] and the module-level [build_index] call each other;
    [depth] bounds the nesting of the calls, and a call that would go
    deeper hangs. *)
Fixpoint initialize_rag (depth : nat) (env : Env vec) (fuel : nat)
    {struct depth} : M Process bool :=
  match depth with
  | O => hang
  | S depth' =>
      p <- gets rag_pipeline ;;
      match p with
      | Some _ => ret true
      | None =>
          if negb (SENTENCE_TRANSFORMERS_AVAILABLE env)
             || negb (FAISS_AVAILABLE env)
          then ret false
          else
            set_pipeline (init default_model) ;;
            have_index <- path_exists index_path ;;
            have_chunks <- path_exists chunks_path ;;
            success <-
              (if have_index && have_chunks
               then on_pipeline (_load_existing_index env index_path chunks_path)
               else ret false) ;;
            if success then ret true
            else build_index depth' env fuel default_data_dir true
      end
  end
with build_index (depth : nat) (env : Env vec) (fuel : nat)
    (data_dir : string) (force_rebuild : bool) {struct depth} : M Process bool :=
  match depth with
  | O => hang
  | S depth' =>
      p <- gets rag_pipeline ;;
      ready <-
        match p with
        | None => initialize_rag depth' env fuel
        | Some _ => ret true
        end ;;
      if negb ready then ret false
      else on_pipeline
             (Rag.build_index unicode_alnum sample_legal_text sample_reread
                normalize_L2 env fuel data_dir 1000 200 force_rebuild)
  end.

Definition search_law (depth : nat) (env : Env vec) (fuel : nat)
    (query : str) (k : Z) : M Process (list (SearchResult score)) :=
  p <- gets rag_pipeline ;;
  ready <-
    match p with
    | None => initialize_rag depth env fuel
    | Some _ => ret true
    end ;;
  if negb ready then ret []
  else on_pipeline
         (Rag.search_law normalize_L2 inner_product score_leb lowest_score
            query k).

Definition get_rag_stats (depth : nat) (env : Env vec) (fuel : nat)
    : M Process stats_dict :=
  p <- gets rag_pipeline ;;
  ready <-
    match p with
    | None => initialize_rag depth env fuel
    | Some _ => ret true
    end ;;
  if negb ready then ret EmptyDict
  else on_pipeline (w <- gets self ;; ret (get_stats w)).

End Module_level.

Arguments Statistics : clear implicits.
Arguments stats_dict : clear implicits.
Arguments number : clear implicits.
Arguments Process : clear implicits.

End RagModule.

(** ** Further notions and inputs *)

Module More.
Import Py Utils Rag.

(** Slices cut one after the other: the first starts at [start], and
    each next one [overlap] characters before the end of the one before. *)
Fixpoint chained_from (start overlap : Z) (spans : list (Z * Z)) : Prop :=
  match spans with
  | [] => True
  | sp :: rest => fst sp = start /\ chained_from (snd sp - overlap) overlap rest
  end.

(** [c] is a contiguous piece of [text]. *)
Definition piece_of (text c : str) : Prop :=
  exists before after, text = before ++ c ++ after.

(** What every chunk appended by the loop is. *)
Definition good_chunk (text c : str) : Prop :=
  c <> [] /\ strip c = c /\ piece_of text c.

(** A text of two sentences, cut by the default scan. *)
Definition two_sentences : str := lit "One two three. Four five six. Seven.".

(** The result that [search_law] makes of the hit at place [fst h] of
    the row returned by the index, whose label is [fst (snd h)] and
    whose score is [snd (snd h)]. *)
Definition result_of {vec score : Type} (p : Rag.RAGPipeline vec)
    (h : Z * (Z * score)) (r : Rag.SearchResult score) : Prop :=
  Py.item (Rag.chunks p) (fst (snd h)) = Some (Rag.chunk r) /\
  Py.item (Rag.chunk_metadata p) (fst (snd h)) = Some (Rag.metadata r) /\
  Rag.score_of r = snd (snd h) /\
  Rag.rank r = fst h + 1.

(** [b] is not above [a]. *)
Definition not_above {score : Type} (score_leb : score -> score -> bool)
    (a b : score) : Prop :=
  score_leb b a = true.

(** The three results of a search for three on the pipeline of one
    chunk: the chunk with its score, and twice more with the filler
    score. *)
Definition thrice : list (Rag.SearchResult Z) :=
  let m := {| Rag.source := "a.txt"; Rag.chunk_id := 0;
              Rag.total_chunks := 1; Rag.char_count := 4 |} in
  [ {| Rag.chunk := Py.lit "One."; Rag.metadata := m;
       Rag.score_of := 1; Rag.rank := 1 |};
    {| Rag.chunk := Py.lit "One."; Rag.metadata := m;
       Rag.score_of := Toy.lowest; Rag.rank := 2 |};
    {| Rag.chunk := Py.lit "One."; Rag.metadata := m;
       Rag.score_of := Toy.lowest; Rag.rank := 3 |} ].

(** The pipeline [p] on the disk of the process [g], and the process
    that a method call leaves. *)
Definition world_of {vec : Type} (p : Rag.RAGPipeline vec)
    (g : RagModule.Process vec) : Rag.World vec :=
  {| Rag.self := p; Rag.dirs := RagModule.disk_dirs g;
     Rag.files := RagModule.disk_files g |}.

Definition process_of {vec : Type} (w : Rag.World vec) : RagModule.Process vec :=
  {| RagModule.rag_pipeline := Some (Rag.self w);
     RagModule.disk_dirs := Rag.dirs w;
     RagModule.disk_files := Rag.files w |}.

(** A process just started, on a disk with no saved index. *)
Definition new_process (d : Py.Dirs) : RagModule.Process Z :=
  {| RagModule.rag_pipeline := None; RagModule.disk_dirs := d;
     RagModule.disk_files := fun _ => None |}.

(** An interpreter in which [faiss] cannot be imported. *)
Definition env_without_faiss : Rag.Env Z :=
  {| Rag.SENTENCE_TRANSFORMERS_AVAILABLE := true;
     Rag.FAISS_AVAILABLE := false;
     Rag.SentenceTransformer := fun _ => Some Toy.encoder;
     Rag.corpus_read_only := false;
     Rag.index_fault := None;
     Rag.save_fault := None |}.

(** A quotient kept as its two terms. *)
Definition ratio (a b : Z) : Z * Z := (a, b).

(** The pipeline of one chunk rebuilt on two documents, and its
    statistics. *)
Definition w5 : Rag.World Z :=
  snd (Toy.build (Toy.env None None) true (Toy.with_dirs Toy.two_docs Toy.w1)).

Definition stats_w5 : RagModule.Statistics (Z * Z) :=
  {| RagModule.total_chunks := 2;
     RagModule.total_characters := 12;
     RagModule.average_chunk_size := RagModule.Float (12, 2);
     RagModule.sources := ["a.txt"; "b.txt"]%string;
     RagModule.model_name := "paraphrase-multilingual-mpnet-base-v2";
     RagModule.index_size := 2 |}.

(** The metadata records that [build_index] writes for the chunks of
    one document. *)
Definition records_of (filename : string) (document_chunks : list Py.str)
    : list Rag.Meta :=
  map (fun ic => {| Rag.source := filename; Rag.chunk_id := fst ic;
                    Rag.total_chunks := Py.len document_chunks;
                    Rag.char_count := Py.len (snd ic) |})
      (Py.enumerate document_chunks).


End More.

(** * Properties of the loader and the cleaner *)

Module TextFacts.
Import Py Utils Toy.

(** ** load_law_texts *)


(** C8 (the code against the claim). An empty [.txt] file decodes under
    the first encoding tried, to the empty string; the test [if content:]
    takes the empty string for a failure, and the file is left out (and
    logged as one that could not be decoded). *)
Theorem load_law_texts_skips_empty_file :
  forall refused : bool,
    read_with empty_file encodings = Returns (Some []) /\
    load_law_texts refused laws empty_corpus = (Returns [], empty_corpus).
Proof. intros refused. split; reflexivity. Qed.

(** ** clean_text *)

(** Every character kept by [clean_text] is on the allow-list. *)
Lemma clean_text_allowed (unicode_alnum : char -> bool) (text : str) :
  Forall (fun c => allowed unicode_alnum c = true) (clean_text unicode_alnum text).
Proof.
  unfold clean_text. apply Forall_forall. intros c Hc.
  now apply filter_In in Hc.
Qed.

(** The first step alone does collapse whitespace: the words of
    [text.split()] joined by single spaces hold no run of whitespace. It
    is the removal of characters afterwards that brings spaces together. *)

Lemma split_from_spaceless (s : str) :
  forall word,
    Forall (fun c => isspace c = false) word ->
    Forall spaceless (split_from s word).
Proof.
  induction s as [|c s IH]; intros word Hword; cbn [split_from].
  - destruct word as [|x word]; cbn [truthy]; constructor; [|constructor].
    split; [discriminate|exact Hword].
  - destruct (isspace c) eqn:Hc.
    + destruct word as [|x word]; cbn [truthy].
      * apply IH. constructor.
      * constructor; [split; [discriminate|exact Hword]|].
        apply IH. constructor.
    + apply IH. apply Forall_app. split; [exact Hword|].
      constructor; [exact Hc|constructor].
Qed.

Lemma has_space_run_after_word (w rest : str) :
  Forall (fun c => isspace c = false) w ->
  has_space_run (w ++ rest) = has_space_run rest.
Proof.
  induction 1 as [|c w Hc _ IH]; [reflexivity|].
  cbn [app has_space_run]. rewrite Hc. cbn [andb orb].
  destruct (w ++ rest) as [|c' l] eqn:E; [|exact IH].
  apply app_eq_nil in E as [_ ->]. reflexivity.
Qed.

Lemma join_spaceless (words : list str) :
  Forall spaceless words ->
  has_space_run (join (lit " ") words) = false.
Proof.
  induction 1 as [|w words [Hne Hw] Hwords IH]; [reflexivity|].
  cbn [join]. destruct words as [|w' words'].
  - rewrite <- (app_nil_r w). now rewrite has_space_run_after_word.
  - rewrite has_space_run_after_word by exact Hw.
    inversion Hwords as [|? ? [Hne' Hw'] _]; subst.
    assert (Hhead : exists c' l, join (lit " ") (w' :: words') = c' :: l
                                 /\ isspace c' = false).
    { destruct w' as [|c' w'']; [congruence|].
      inversion Hw'; subst.
      destruct words'; cbn [join app]; eauto. }
    destruct Hhead as (c' & l & Hj & Hc').
    rewrite Hj in *.
    change (has_space_run (lit " " ++ c' :: l))
      with ((isspace 32%N && isspace c') || has_space_run (c' :: l)).
    now rewrite Hc', andb_false_r, IH.
Qed.

Lemma collapse_leaves_no_space_run (text : str) :
  has_space_run (join (lit " ") (split text)) = false.
Proof.
  apply join_spaceless. apply split_from_spaceless. constructor.
Qed.

(** C9 (the code against the claim). Whitespace is collapsed before the
    characters off the allow-list are removed, so removing a character
    that stood between two spaces leaves the two spaces side by side. *)
Theorem clean_text_leaves_space_run :
  forall unicode_alnum : char -> bool,
    clean_text unicode_alnum (lit "a @ b") = lit "a  b" /\
    has_space_run (clean_text unicode_alnum (lit "a @ b")) = true.
Proof. intros unicode_alnum. split; reflexivity. Qed.

End TextFacts.

(** * Properties of the chunker *)

Module ChunkerFacts.
Import Py Utils Inputs.

(** ** Lengths of slices and stripped strings *)

Lemma lstrip_length (s : str) : (length (lstrip s) <= length s)%nat.
Proof.
  induction s as [|c s IH]; simpl; [lia|].
  destruct (isspace c); simpl; lia.
Qed.

Lemma strip_length (s : str) : (length (strip s) <= length s)%nat.
Proof.
  unfold strip, rstrip. rewrite length_rev.
  etransitivity; [apply lstrip_length|].
  rewrite length_rev. apply lstrip_length.
Qed.

Lemma slice_length {A} (l : list A) (a b : Z) :
  len (slice l a b) <= Z.max 0 (norm_bound (len l) b - norm_bound (len l) a).
Proof.
  unfold slice, len.
  pose proof (firstn_le_length
                (Z.to_nat (norm_bound (len l) b - norm_bound (len l) a))
                (skipn (Z.to_nat (norm_bound (len l) a)) l)) as H.
  unfold len in *. lia.
Qed.

(** ** The boundary scan *)

Lemma scan_range (text : str) (thr : Z) (n : nat) :
  forall i d, scan text thr i n d = d \/
              (i + 1 <= scan text thr i n d <= i + Z.of_nat n /\
               thr + 1 < scan text thr i n d).
Proof.
  induction n as [|n IH]; intros i d; simpl; [now left|].
  destruct (is_sentence_ending (get text i) && (thr <? i)) eqn:E.
  - right. apply andb_prop in E as [_ E]. apply Z.ltb_lt in E. lia.
  - destruct (IH (i + 1) d) as [->|H]; [now left|right; lia].
Qed.

(** The slice cut at [start] ends at [start + chunk_size], or at a
    boundary past the midpoint and at most 100 characters further. *)
Lemma chunk_end_range (text : str) (chunk_size start : Z) :
  chunk_end text chunk_size start = start + chunk_size \/
  (1 <= chunk_end text chunk_size start <= start + chunk_size + 100 /\
   chunk_end text chunk_size start <= len text /\
   start + chunk_size / 2 + 1 < chunk_end text chunk_size start).
Proof.
  unfold chunk_end.
  destruct (start + chunk_size <? len text) eqn:E; [|now left].
  unfold find_break.
  destruct (scan_range text (start + chunk_size / 2)
              (Z.to_nat (Z.min (len text) (start + chunk_size + 100)
                         - Z.max 0 (start + chunk_size - 200)))
              (Z.max 0 (start + chunk_size - 200)) (start + chunk_size))
    as [->|H]; [now left|right].
  lia.
Qed.

Lemma slice_bound (text : str) (chunk_size start : Z) :
  0 <= chunk_size ->
  len (slice text start (chunk_end text chunk_size start)) <= chunk_size + 100.
Proof.
  intros Hcs.
  pose proof (slice_length text start (chunk_end text chunk_size start)) as Hl.
  pose proof (chunk_end_range text chunk_size start) as He.
  assert (0 <= len text) by (unfold len; lia).
  unfold norm_bound in Hl.
  destruct (chunk_end text chunk_size start <? 0) eqn:E1;
    destruct (start <? 0) eqn:E2;
    rewrite ?Z.ltb_lt, ?Z.ltb_ge in *; lia.
Qed.

Lemma loop_body_bound (text : str) (chunk_size overlap start : Z) (chunks : list str) :
  0 <= chunk_size ->
  Forall (fun c => len c <= chunk_size + 100) chunks ->
  Forall (fun c => len c <= chunk_size + 100)
         (chunks_in (loop_body text chunk_size overlap start chunks)).
Proof.
  intros Hcs Hall. unfold loop_body.
  set (chunk := strip (slice text start (chunk_end text chunk_size start))).
  assert (Hchunk : len chunk <= chunk_size + 100).
  { pose proof (slice_bound text chunk_size start Hcs) as Hs.
    pose proof (strip_length (slice text start (chunk_end text chunk_size start))).
    unfold chunk, len in *. lia. }
  assert (Hall' : Forall (fun c => len c <= chunk_size + 100)
                         (if truthy chunk then chunks ++ [chunk] else chunks)).
  { destruct (truthy chunk); [|exact Hall].
    apply Forall_app. split; [exact Hall|]. now constructor. }
  destruct (len text <=? _); exact Hall'.
Qed.

Lemma while_loop_bound (text : str) (chunk_size overlap : Z) :
  0 <= chunk_size ->
  forall fuel start chunks result,
    Forall (fun c => len c <= chunk_size + 100) chunks ->
    while_loop fuel text chunk_size overlap start chunks = Some result ->
    Forall (fun c => len c <= chunk_size + 100) result.
Proof.
  intros Hcs. induction fuel as [|fuel IH]; intros start chunks result Hall; simpl.
  - discriminate.
  - destruct (start <? len text).
    + pose proof (loop_body_bound text chunk_size overlap start chunks Hcs Hall) as Hb.
      destruct (loop_body text chunk_size overlap start chunks) as [s' c'|c'];
        simpl in Hb.
      * intros H. exact (IH _ _ _ Hb H).
      * intros [= <-]. exact Hb.
    + intros [= <-]. exact Hall.
Qed.

(** The loop run for [fuel] passes is [while_loop]. *)
Lemma while_loop_passes (text : str) (chunk_size overlap : Z) :
  forall fuel start chunks,
    while_loop fuel text chunk_size overlap start chunks
    = match passes fuel text chunk_size overlap (Running start chunks) with
      | Finished c => Some c
      | Running _ _ => None
      end.
Proof.
  induction fuel as [|fuel IH]; intros start chunks; [reflexivity|].
  cbn [while_loop passes].
  destruct (start <? len text); [|reflexivity].
  destruct (loop_body text chunk_size overlap start chunks) as [s' c'|c'].
  - apply IH.
  - destruct fuel; reflexivity.
Qed.

(** The bound holds of the chunks appended after any number of passes,
    also on a run that never ends. *)
Lemma passes_bound (text : str) (chunk_size overlap : Z) :
  0 <= chunk_size ->
  forall n st,
    Forall (fun c => len c <= chunk_size + 100) (chunks_in st) ->
    Forall (fun c => len c <= chunk_size + 100)
           (chunks_in (passes n text chunk_size overlap st)).
Proof.
  intros Hcs. induction n as [|n IH]; intros st Hst; [exact Hst|].
  destruct st as [start chunks|chunks]; cbn [passes]; [|exact Hst].
  destruct (start <? len text); [|exact Hst].
  apply IH. now apply loop_body_bound.
Qed.

(** ** A run of the loop that never ends *)

Lemma looping_body (chunks : list str) :
  loop_body looping_text 10 7 0 chunks = Running 0 (chunks ++ [lit "aaaaaa."]).
Proof. reflexivity. Qed.

Lemma looping_while (fuel : nat) :
  forall chunks, while_loop fuel looping_text 10 7 0 chunks = None.
Proof.
  induction fuel as [|fuel IH]; intros chunks; [reflexivity|].
  cbn [while_loop].
  replace (0 <? len looping_text) with true by reflexivity.
  rewrite looping_body. apply IH.
Qed.

(** C4 (the code against the claim). With [chunk_size = 10] and
    [overlap = 7] the text [aaaaaa.aaaaaaaaaaaaa] has its first sentence
    ending just past the midpoint of the first chunk: the slice ends at 7,
    the next start is [7 - 7 = 0], and the loop repeats the same pass for
    ever. However much fuel is given, [split_text] does not return. *)
Theorem split_text_does_not_terminate :
  forall fuel, split_text fuel looping_text 10 7 = None.
Proof.
  intros fuel. unfold split_text.
  replace (len looping_text <=? 10) with false by reflexivity.
  apply looping_while.
Qed.

(** X30. Every chunk returned by [split_text] for a non-negative
    [chunk_size] has at most [chunk_size + 100] characters: the boundary
    scan reaches up to 100 characters past the nominal end of the chunk,
    and no further. *)
Theorem split_text_chunk_bound :
  forall fuel text chunk_size overlap chunks,
    0 <= chunk_size ->
    split_text fuel text chunk_size overlap = Some chunks ->
    Forall (fun c => len c <= chunk_size + 100) chunks.
Proof.
  intros fuel text chunk_size overlap chunks Hcs. unfold split_text.
  destruct (len text <=? chunk_size) eqn:E.
  - intros [= <-]. constructor; [|constructor].
    apply Z.leb_le in E. lia.
  - apply while_loop_bound; [exact Hcs|constructor].
Qed.

(** The bound on [overlong_text], whose first chunk has 13 characters. *)
Lemma split_text_chunk_bound_witness :
  Forall (fun c => len c <= 10 + 100)
         [lit "aaaaa.aaaaaa."; lit "aaaaaaaaa"].
Proof.
  apply (split_text_chunk_bound 2 overlong_text 10 0); [lia|reflexivity].
Defined.

(** C5 (the code against the claim). No stretch of [overlong_text]
    without a sentence ending is longer than 9, yet with
    [chunk_size = 10] the first chunk has 13 characters, three more than
    the maximum size that [chunk_size] is documented to be: the only
    ending before the nominal end is not past the midpoint, and the scan
    goes on, beyond the nominal end, to the ending at position 12. *)
Theorem split_text_chunk_exceeds_size :
  split_text 2 overlong_text 10 0
    = Some [lit "aaaaa.aaaaaa."; lit "aaaaaaaaa"] /\
  longest_run overlong_text <= 10 /\
  ~ Forall (fun c => len c <= 10) [lit "aaaaa.aaaaaa."; lit "aaaaaaaaa"].
Proof.
  split; [reflexivity|]. split; [vm_compute; discriminate|].
  intros H. inversion H as [|? ? H1 _]. vm_compute in H1. now apply H1.
Qed.

(** ** The slices tile the text *)

Lemma chunks_of_spans_app (text : str) (spans : list (Z * Z)) (sp : Z * Z) :
  chunks_of_spans text (spans ++ [sp])
  = (if truthy (strip (cut text sp))
     then chunks_of_spans text spans ++ [strip (cut text sp)]
     else chunks_of_spans text spans).
Proof.
  unfold chunks_of_spans. rewrite map_app, filter_app. simpl.
  destruct (truthy (strip (cut text sp))); [reflexivity|apply app_nil_r].
Qed.

(** The chunks of [while_loop] are the stripped, non-empty slices of
    [span_loop]. *)
Lemma while_loop_spans (text : str) (chunk_size overlap : Z) :
  forall fuel start spans,
    while_loop fuel text chunk_size overlap start (chunks_of_spans text spans)
    = option_map (chunks_of_spans text)
                 (span_loop fuel text chunk_size overlap start spans).
Proof.
  induction fuel as [|fuel IH]; intros start spans; [reflexivity|].
  cbn [while_loop span_loop].
  destruct (start <? len text); [|reflexivity].
  unfold loop_body, span_body.
  destruct (len text <=? chunk_end text chunk_size start - overlap);
    [cbn [option_map]|rewrite <- IH];
    rewrite chunks_of_spans_app; reflexivity.
Qed.

Lemma firstn_plus {A} (l : list A) (n m : nat) :
  firstn n l ++ firstn m (skipn n l) = firstn (n + m) l.
Proof.
  revert l; induction n as [|n IH]; intros l; [reflexivity|].
  destruct l as [|x l]; simpl; [now rewrite firstn_nil|].
  now rewrite IH.
Qed.

Lemma slice_extends {A} (l : list A) (a b : Z) :
  0 <= a <= b ->
  firstn (Z.to_nat (Z.min a (len l))) l ++ slice l a b
  = firstn (Z.to_nat (Z.min b (len l))) l.
Proof.
  intros H. unfold slice, norm_bound.
  assert (0 <= len l) by (unfold len; lia).
  replace (a <? 0) with false by (symmetry; apply Z.ltb_ge; lia).
  replace (b <? 0) with false by (symmetry; apply Z.ltb_ge; lia).
  rewrite firstn_plus. f_equal. lia.
Qed.

Lemma slice_from_zero {A} (l : list A) (b : Z) :
  0 <= b -> slice l 0 b = firstn (Z.to_nat (Z.min b (len l))) l.
Proof.
  intros H. rewrite <- (slice_extends l 0 b) by lia.
  replace (Z.to_nat (Z.min 0 (len l))) with O by (unfold len; lia).
  reflexivity.
Qed.

Lemma skipn_slice {A} (l : list A) (a b n : Z) :
  0 <= a -> 0 <= n -> a + n <= b ->
  skipn (Z.to_nat n) (slice l a b) = slice l (a + n) b.
Proof.
  intros Ha Hn Hb. unfold slice, norm_bound.
  assert (0 <= len l) by (unfold len; lia).
  replace (a <? 0) with false by (symmetry; apply Z.ltb_ge; lia).
  replace (b <? 0) with false by (symmetry; apply Z.ltb_ge; lia).
  replace (a + n <? 0) with false by (symmetry; apply Z.ltb_ge; lia).
  rewrite skipn_firstn_comm, skipn_skipn.
  destruct (Z.le_gt_cases (a + n) (len l)) as [Hle|Hgt].
  - f_equal; [lia|f_equal; lia].
  - rewrite !(skipn_all2 l) by (unfold len in *; lia).
    now rewrite !firstn_nil.
Qed.

Lemma drop_overlaps_snoc (overlap : Z) (pieces : list str) (p : str) :
  pieces <> [] ->
  drop_overlaps overlap (pieces ++ [p])
  = drop_overlaps overlap pieces ++ skipn (Z.to_nat overlap) p.
Proof.
  destruct pieces as [|q rest]; [congruence|intros _].
  simpl. rewrite flat_map_app. simpl.
  now rewrite app_nil_r, app_assoc.
Qed.

Section Tiling.

Variable text : str.
Variables chunk_size overlap : Z.
Hypothesis overlap_nonneg : 0 <= overlap.
Hypothesis overlap_below_size : overlap < chunk_size.
Hypothesis overlap_below_mid : overlap <= chunk_size / 2 + 1.

Local Abbreviation rebuilt := (Utils.rebuilt text overlap).
Local Abbreviation at_head := (Utils.at_head text overlap).

(** Each pass moves [start] forward. *)
Lemma chunk_end_progress (start : Z) :
  start + overlap < chunk_end text chunk_size start.
Proof.
  pose proof (chunk_end_range text chunk_size start). lia.
Qed.

Lemma rebuilt_step (start : Z) (spans : list (Z * Z)) :
  at_head start spans -> 0 <= start ->
  let end_ := chunk_end text chunk_size start in
  rebuilt (spans ++ [(start, end_)])
  = firstn (Z.to_nat (Z.min end_ (len text))) text.
Proof.
  intros Hhead Hstart end_.
  pose proof (chunk_end_progress start) as Hp. fold end_ in Hp.
  unfold rebuilt. rewrite map_app. cbn [map].
  destruct Hhead as [[-> ->]|(Hne & _ & Hreb)].
  - cbn [app map drop_overlaps flat_map]. rewrite app_nil_r.
    unfold cut; cbn [fst snd]. apply slice_from_zero. lia.
  - rewrite drop_overlaps_snoc by (destruct spans; [congruence|discriminate]).
    fold (rebuilt spans). rewrite Hreb.
    unfold cut; cbn [fst snd].
    rewrite skipn_slice by lia.
    apply slice_extends. lia.
Qed.

Lemma span_loop_tiles :
  forall fuel start spans,
    0 <= start < len text ->
    len text - start <= Z.of_nat fuel ->
    at_head start spans ->
    exists spans',
      span_loop fuel text chunk_size overlap start spans = Some spans' /\
      rebuilt spans' = text.
Proof.
  induction fuel as [|fuel IH]; intros start spans Hstart Hfuel Hhead; [lia|].
  cbn [span_loop].
  replace (start <? len text) with true by (symmetry; apply Z.ltb_lt; lia).
  unfold span_body.
  pose proof (chunk_end_progress start) as Hp.
  pose proof (rebuilt_step start spans Hhead (proj1 Hstart)) as Hreb.
  cbv zeta in Hreb.
  destruct (len text <=? chunk_end text chunk_size start - overlap) eqn:E.
  - apply Z.leb_le in E. eexists; split; [reflexivity|].
    rewrite Hreb.
    replace (Z.to_nat (Z.min (chunk_end text chunk_size start) (len text)))
      with (length text) by (unfold len in *; lia).
    apply firstn_all.
  - apply Z.leb_gt in E. apply IH; [lia|lia|].
    right. split; [now destruct spans|]. split; [lia|].
    rewrite Hreb. do 2 f_equal. lia.
Qed.

End Tiling.

(** With [overlap] at most [chunk_size // 2 + 1] the loop ends within
    [len(text)] passes, its chunks are the stripped slices, and the
    slices tile the text. *)
Lemma split_text_tiling (text : str) (chunk_size overlap : Z) :
  0 <= overlap -> overlap < chunk_size -> overlap <= chunk_size / 2 + 1 ->
  exists spans,
    split_spans (S (length text)) text chunk_size overlap = Some spans /\
    split_text (S (length text)) text chunk_size overlap
      = Some (if len text <=? chunk_size then [text]
              else chunks_of_spans text spans) /\
    drop_overlaps overlap (map (cut text) spans) = text.
Proof.
  intros H0 H1 H2.
  unfold split_spans, split_text.
  destruct (len text <=? chunk_size) eqn:E.
  - eexists; split; [reflexivity|]. split; [reflexivity|].
    cbn [map drop_overlaps flat_map]. rewrite app_nil_r.
    unfold cut; cbn [fst snd].
    rewrite slice_from_zero by (unfold len; lia).
    replace (Z.to_nat (Z.min (len text) (len text))) with (length text)
      by (unfold len; lia).
    apply firstn_all.
  - apply Z.leb_gt in E.
    destruct (span_loop_tiles text chunk_size overlap H0 H1 H2
                (S (length text)) 0 [])
      as (spans & Hs & Hr).
    + lia.
    + unfold len. lia.
    + now left.
    + exists spans. split; [exact Hs|]. split; [|exact Hr].
      change (@nil str) with (chunks_of_spans text []).
      rewrite while_loop_spans, Hs. reflexivity.
Qed.

(** Where the chunker does terminate: [overlap] at most
    [chunk_size // 2 + 1], which the default [1000] and [200] satisfy. *)
Lemma split_text_returns (text : str) (chunk_size overlap : Z) :
  0 <= overlap -> overlap < chunk_size -> overlap <= chunk_size / 2 + 1 ->
  exists chunks,
    split_text (S (length text)) text chunk_size overlap = Some chunks.
Proof.
  intros H0 H1 H2.
  destruct (split_text_tiling text chunk_size overlap H0 H1 H2)
    as (spans & _ & Hs & _).
  eauto.
Qed.

(** ** Coverage wherever the loop ends *)

(** The scan stops at the first sentence ending past the threshold. *)
Lemma scan_first (text : str) (thr : Z) :
  forall n i d,
    (scan text thr i n d = d /\
     forall j, i <= j < i + Z.of_nat n ->
               is_sentence_ending (get text j) = true -> thr < j -> False) \/
    (exists j,
        i <= j < i + Z.of_nat n /\
        is_sentence_ending (get text j) = true /\ thr < j /\
        scan text thr i n d = j + 1 /\
        forall k, i <= k < j ->
                  is_sentence_ending (get text k) = true -> thr < k -> False).
Proof.
  induction n as [|n IH]; intros i d; cbn [scan].
  - left. split; [reflexivity|]. intros j Hj. lia.
  - destruct (is_sentence_ending (get text i) && (thr <? i)) eqn:E.
    + right. exists i. apply andb_prop in E as [E1 E2]. apply Z.ltb_lt in E2.
      repeat split; try lia; auto.
    + assert (Hi : is_sentence_ending (get text i) = true -> thr < i -> False).
      { intros He Ht. rewrite He in E. cbn in E. apply Z.ltb_ge in E. lia. }
      destruct (IH (i + 1) d) as [[Hs Hnone]|(j & Hj & He & Ht & Hs & Hmin)].
      * left. split; [exact Hs|]. intros j Hj He Ht.
        destruct (Z.eq_dec j i) as [->|Hne]; [auto|].
        apply (Hnone j); auto. lia.
      * right. exists j. repeat split; try lia; auto.
        intros k Hk Hek Htk.
        destruct (Z.eq_dec k i) as [->|Hne]; [auto|].
        apply (Hmin k); auto. lia.
Qed.

(** A later start never gives an earlier end. *)
Lemma chunk_end_mono (text : str) (chunk_size s' s : Z) :
  1 <= chunk_size -> s' <= s ->
  chunk_end text chunk_size s' <= chunk_end text chunk_size s.
Proof.
  intros Hcs Hle. unfold chunk_end, find_break.
  assert (Hlen : 0 <= len text) by (unfold len; lia).
  assert (Hhalf : chunk_size / 2 < chunk_size)
    by (apply Z.div_lt_upper_bound; lia).
  destruct (s + chunk_size <? len text) eqn:E;
    destruct (s' + chunk_size <? len text) eqn:E';
    rewrite ?Z.ltb_lt, ?Z.ltb_ge in *; try lia.
  - destruct (scan_first text (s + chunk_size / 2)
                (Z.to_nat (Z.min (len text) (s + chunk_size + 100)
                           - Z.max 0 (s + chunk_size - 200)))
                (Z.max 0 (s + chunk_size - 200)) (s + chunk_size))
      as [[-> Hnone]|(j & Hj & He & Ht & -> & Hmin)];
      destruct (scan_first text (s' + chunk_size / 2)
                  (Z.to_nat (Z.min (len text) (s' + chunk_size + 100)
                             - Z.max 0 (s' + chunk_size - 200)))
                  (Z.max 0 (s' + chunk_size - 200)) (s' + chunk_size))
        as [[-> Hnone']|(j' & Hj' & He' & Ht' & -> & Hmin')].
    + lia.
    + destruct (Z.le_gt_cases (j' + 1) (s + chunk_size)) as [|Hgt];
        [assumption|].
      exfalso. apply (Hnone j'); auto; lia.
    + destruct (Z.le_gt_cases (s' + chunk_size) (j + 1)) as [|Hgt];
        [assumption|].
      exfalso. apply (Hnone' j); auto; lia.
    + destruct (Z.le_gt_cases (j' + 1) (j + 1)) as [|Hgt]; [assumption|].
      exfalso. apply (Hmin' j); auto; lia.
  - destruct (scan_first text (s' + chunk_size / 2)
                (Z.to_nat (Z.min (len text) (s' + chunk_size + 100)
                           - Z.max 0 (s' + chunk_size - 200)))
                (Z.max 0 (s' + chunk_size - 200)) (s' + chunk_size))
      as [[-> Hnone']|(j' & Hj' & He' & Ht' & -> & Hmin')]; lia.
Qed.

(** A pass that does not move [start] forward is followed by passes
    that do not either: the loop never ends. *)
Lemma span_loop_stuck (text : str) (chunk_size overlap : Z) :
  1 <= chunk_size ->
  forall fuel start spans,
    start < len text ->
    chunk_end text chunk_size start - overlap <= start ->
    span_loop fuel text chunk_size overlap start spans = None.
Proof.
  intros Hcs. induction fuel as [|fuel IH]; intros start spans Hlt Hback;
    [reflexivity|].
  cbn [span_loop].
  replace (start <? len text) with true by (symmetry; apply Z.ltb_lt; lia).
  unfold span_body.
  replace (len text <=? chunk_end text chunk_size start - overlap) with false
    by (symmetry; apply Z.leb_gt; lia).
  apply IH; [lia|].
  pose proof (chunk_end_mono text chunk_size
                (chunk_end text chunk_size start - overlap) start Hcs Hback).
  lia.
Qed.

Lemma rebuilt_snoc (text : str) (overlap start end_ : Z) (spans : list (Z * Z)) :
  0 <= overlap -> 0 <= start -> start + overlap <= end_ ->
  at_head text overlap start spans ->
  rebuilt text overlap (spans ++ [(start, end_)])
  = firstn (Z.to_nat (Z.min end_ (len text))) text.
Proof.
  intros Hov Hstart Hp Hhead.
  unfold rebuilt. rewrite map_app. cbn [map].
  destruct Hhead as [[-> ->]|(Hne & _ & Hreb)].
  - cbn [app map drop_overlaps flat_map]. rewrite app_nil_r.
    unfold cut; cbn [fst snd]. apply slice_from_zero. lia.
  - rewrite drop_overlaps_snoc by (destruct spans; [congruence|discriminate]).
    fold (rebuilt text overlap spans). rewrite Hreb.
    unfold cut; cbn [fst snd].
    rewrite skipn_slice by lia.
    apply slice_extends. lia.
Qed.

(** Whenever the loop ends, its slices tile the text. *)
Lemma span_loop_covers (text : str) (chunk_size overlap : Z) :
  0 <= overlap -> 1 <= chunk_size ->
  forall fuel start spans result,
    0 <= start < len text ->
    at_head text overlap start spans ->
    span_loop fuel text chunk_size overlap start spans = Some result ->
    rebuilt text overlap result = text.
Proof.
  intros Hov Hcs. induction fuel as [|fuel IH];
    intros start spans result Hstart Hhead Hrun; [discriminate Hrun|].
  assert (Hforward : start + overlap < chunk_end text chunk_size start).
  { destruct (Z.lt_ge_cases (start + overlap) (chunk_end text chunk_size start))
      as [|Hback]; [assumption|].
    rewrite (span_loop_stuck text chunk_size overlap Hcs (S fuel) start spans)
      in Hrun by lia.
    discriminate Hrun. }
  cbn [span_loop] in Hrun.
  replace (start <? len text) with true in Hrun
    by (symmetry; apply Z.ltb_lt; lia).
  unfold span_body in Hrun.
  pose proof (rebuilt_snoc text overlap start (chunk_end text chunk_size start)
                spans Hov (proj1 Hstart) (Z.lt_le_incl _ _ Hforward) Hhead)
    as Hreb.
  destruct (len text <=? chunk_end text chunk_size start - overlap) eqn:E.
  - apply Z.leb_le in E. injection Hrun as <-. rewrite Hreb.
    replace (Z.to_nat (Z.min (chunk_end text chunk_size start) (len text)))
      with (length text) by (unfold len in *; lia).
    apply firstn_all.
  - apply Z.leb_gt in E.
    apply (IH (chunk_end text chunk_size start - overlap)
              (spans ++ [(start, chunk_end text chunk_size start)]) result);
      [lia| |exact Hrun].
    right. split; [now destruct spans|]. split; [lia|].
    rewrite Hreb. do 2 f_equal. lia.
Qed.

Lemma split_text_covers (text : str) (chunk_size overlap : Z) :
  0 <= overlap -> overlap < chunk_size ->
  forall fuel spans,
    split_spans fuel text chunk_size overlap = Some spans ->
    split_text fuel text chunk_size overlap
      = Some (if len text <=? chunk_size then [text]
              else chunks_of_spans text spans) /\
    drop_overlaps overlap (map (cut text) spans) = text.
Proof.
  intros H0 H1 fuel spans. unfold split_spans, split_text.
  destruct (len text <=? chunk_size) eqn:E.
  - intros [= <-]. split; [reflexivity|].
    cbn [map drop_overlaps flat_map]. rewrite app_nil_r.
    unfold cut; cbn [fst snd].
    rewrite slice_from_zero by (unfold len; lia).
    replace (Z.to_nat (Z.min (len text) (len text))) with (length text)
      by (unfold len; lia).
    apply firstn_all.
  - apply Z.leb_gt in E. intros Hs. split.
    + change (@nil str) with (chunks_of_spans text []).
      rewrite while_loop_spans, Hs. reflexivity.
    + apply (span_loop_covers text chunk_size overlap) with (fuel := fuel)
        (start := 0) (spans := []); [lia|lia|lia|now left|exact Hs].
Qed.

(** The loop ends within [len(text) - start] passes, or never. *)
Lemma span_loop_ends_or_never (text : str) (chunk_size overlap : Z) :
  1 <= chunk_size ->
  forall fuel start spans,
    0 <= start < len text ->
    len text - start <= Z.of_nat fuel ->
    (exists result,
        span_loop fuel text chunk_size overlap start spans = Some result) \/
    (forall fuel' spans',
        span_loop fuel' text chunk_size overlap start spans' = None).
Proof.
  intros Hcs. induction fuel as [|fuel IH]; intros start spans Hstart Hfuel;
    [lia|].
  destruct (Z.lt_ge_cases start (chunk_end text chunk_size start - overlap))
    as [Hforward|Hback].
  2:{ right. intros fuel' spans'. apply span_loop_stuck; lia. }
  cbn [span_loop].
  replace (start <? len text) with true by (symmetry; apply Z.ltb_lt; lia).
  unfold span_body.
  destruct (len text <=? chunk_end text chunk_size start - overlap) eqn:E;
    [left; eauto|].
  apply Z.leb_gt in E.
  destruct (IH (chunk_end text chunk_size start - overlap)
              (spans ++ [(start, chunk_end text chunk_size start)]))
    as [Hsome|Hnone]; [lia|lia|left; exact Hsome|].
  right. intros [|fuel'] spans'; [reflexivity|].
  cbn [span_loop].
  replace (start <? len text) with true by (symmetry; apply Z.ltb_lt; lia).
  unfold span_body.
  replace (len text <=? chunk_end text chunk_size start - overlap) with false
    by (symmetry; apply Z.leb_gt; lia).
  apply Hnone.
Qed.

Lemma split_text_ends_or_never (text : str) (chunk_size overlap : Z) :
  overlap < chunk_size -> 0 <= overlap ->
  (exists spans,
      split_spans (S (length text)) text chunk_size overlap = Some spans) \/
  (forall fuel, split_text fuel text chunk_size overlap = None).
Proof.
  intros H1 H0. unfold split_spans, split_text.
  destruct (len text <=? chunk_size) eqn:E; [left; eauto|].
  apply Z.leb_gt in E.
  destruct (span_loop_ends_or_never text chunk_size overlap ltac:(lia)
              (S (length text)) 0 [])
    as [Hsome|Hnone]; [lia|unfold len; lia|left; exact Hsome|].
  right. intros fuel.
  change (@nil str) with (chunks_of_spans text []).
  now rewrite while_loop_spans, Hnone.
Qed.

(** C6 (as amended). For every text and every [0 <= overlap < chunk_size]:
    whenever [split_text] returns, the slices [text[start:end]] it cut
    reconstruct the text exactly once the first [overlap] characters of
    every slice after the first are removed, and the chunks returned
    are these slices stripped of surrounding whitespace, the empty ones
    left out (the whole text, untouched, when it fits in one chunk).
    [split_text] returns within [len(text) + 1] passes or never returns;
    it does return when [overlap] is at most [chunk_size // 2 + 1]. *)
Theorem split_text_slices_cover :
  forall text chunk_size overlap,
    0 <= overlap -> overlap < chunk_size ->
    (forall fuel spans,
        split_spans fuel text chunk_size overlap = Some spans ->
        split_text fuel text chunk_size overlap
          = Some (if len text <=? chunk_size then [text]
                  else chunks_of_spans text spans) /\
        drop_overlaps overlap (map (cut text) spans) = text) /\
    ((exists spans,
         split_spans (S (length text)) text chunk_size overlap = Some spans) \/
     (forall fuel, split_text fuel text chunk_size overlap = None)) /\
    (overlap <= chunk_size / 2 + 1 ->
     exists spans,
       split_spans (S (length text)) text chunk_size overlap = Some spans).
Proof.
  intros text chunk_size overlap H0 H1. split; [|split].
  - exact (split_text_covers text chunk_size overlap H0 H1).
  - exact (split_text_ends_or_never text chunk_size overlap H1 H0).
  - intros H2.
    destruct (split_text_tiling text chunk_size overlap H0 H1 H2)
      as (spans & Hs & _).
    eauto.
Qed.

(** The amended coverage on thirty letters cut at 10 with an overlap of
    9, which is beyond half of the size: the loop ends after thirty
    passes and its slices tile the text. *)
Lemma split_text_slices_cover_witness :
  exists spans,
    split_spans 31 plain_text 10 9 = Some spans /\
    split_text 31 plain_text 10 9
      = Some (if len plain_text <=? 10 then [plain_text]
              else chunks_of_spans plain_text spans) /\
    drop_overlaps 9 (map (cut plain_text) spans) = plain_text.
Proof.
  destruct (split_text_slices_cover plain_text 10 9) as [Hcover _]; [lia|lia|].
  eexists. split; [vm_compute; reflexivity|].
  apply Hcover. vm_compute. reflexivity.
Defined.

Lemma in_skipn {A} (x : A) (n : nat) (l : list A) : In x (skipn n l) -> In x l.
Proof.
  intros H. rewrite <- (firstn_skipn n l). apply in_or_app. now right.
Qed.

Lemma in_drop_leading (x : char) (pieces : list str) :
  forall cuts, In x (drop_leading cuts pieces) -> exists p, In p pieces /\ In x p.
Proof.
  induction pieces as [|p rest IH]; intros cuts H.
  - destruct cuts; contradiction.
  - destruct cuts as [|n cuts]; cbn [drop_leading] in H;
      apply in_app_or in H as [H|H].
    + exists p. split; [now left|exact H].
    + destruct (IH _ H) as (q & Hq & Hx). exists q. split; [now right|exact Hx].
    + exists p. split; [now left|exact (in_skipn _ _ _ H)].
    + destruct (IH _ H) as (q & Hq & Hx). exists q. split; [now right|exact Hx].
Qed.

(** C6 (the claim as stated fails). With [chunk_size = 10] and
    [overlap = 0] the two chunks of [aaaaaaaaa bbbbbbbbb] are the two
    words: the space that ended the first slice was stripped. Their
    concatenation is not the text, and no removal of leading characters
    from the chunks gives the text back, as no chunk holds a space. And
    with an [overlap] below 0, which is below [chunk_size] as the claim
    asks, the slices themselves leave text out: cut at 4 with an
    overlap of -1, [abcdefghij] gives [abcd] and [fghi], and no removal
    of leading characters gives the text back, as no slice holds the
    letter that was stepped over. *)
Lemma chunk_coverage_counterexample :
  split_text 2 spaced_text 10 0 = Some [lit "aaaaaaaaa"; lit "bbbbbbbbb"] /\
  drop_overlaps 0 [lit "aaaaaaaaa"; lit "bbbbbbbbb"] <> spaced_text /\
  (forall cuts,
      drop_leading cuts [lit "aaaaaaaaa"; lit "bbbbbbbbb"] <> spaced_text) /\
  split_spans 2 lettered_text 4 (-1) = Some [(0, 4); (5, 9)] /\
  map (cut lettered_text) [(0, 4); (5, 9)] = [lit "abcd"; lit "fghi"] /\
  split_text 2 lettered_text 4 (-1) = Some [lit "abcd"; lit "fghi"] /\
  forall cuts, drop_leading cuts [lit "abcd"; lit "fghi"] <> lettered_text.
Proof.
  split; [reflexivity|]. split; [vm_compute; discriminate|].
  split.
  { intros cuts Heq.
    assert (Hin : In 32%N (drop_leading cuts [lit "aaaaaaaaa"; lit "bbbbbbbbb"])).
    { rewrite Heq. vm_compute. intuition. }
    apply in_drop_leading in Hin as (p & [<-|[<-|[]]] & Hp);
      vm_compute in Hp; intuition discriminate. }
  split; [reflexivity|]. split; [reflexivity|]. split; [reflexivity|].
  intros cuts Heq.
  assert (Hin : In 101%N (drop_leading cuts [lit "abcd"; lit "fghi"])).
  { rewrite Heq. vm_compute. intuition. }
  apply in_drop_leading in Hin as (p & [<-|[<-|[]]] & Hp);
    vm_compute in Hp; intuition discriminate.
Qed.

End ChunkerFacts.

(** * Properties of the pipeline *)

Module RagFacts.
Import Py Utils Rag.

(** ** Reasoning about calls *)

Lemma sat_run {S A} (m : M S A) (s : S) (Q : outcome A -> S -> Prop) r s' :
  sat m s Q -> m s = (r, s') -> Q r s'.
Proof. unfold sat. intros H E. now rewrite E in H. Qed.

Lemma sat_weaken {S A} (m : M S A) (s : S) (Q Q' : outcome A -> S -> Prop) :
  sat m s Q -> (forall r s', Q r s' -> Q' r s') -> sat m s Q'.
Proof. unfold sat. auto. Qed.

Lemma sat_ret {S A} (a : A) (s : S) (Q : outcome A -> S -> Prop) :
  Q (Returns a) s -> sat (ret a) s Q.
Proof. exact (fun H => H). Qed.

Lemma sat_raise {S A} (s : S) (Q : outcome A -> S -> Prop) :
  Q Raises s -> sat raise s Q.
Proof. exact (fun H => H). Qed.

Lemma sat_hang {S A} (s : S) (Q : outcome A -> S -> Prop) :
  Q Hangs s -> sat hang s Q.
Proof. exact (fun H => H). Qed.

Lemma sat_gets {S A B} (f : S -> A) (k : A -> M S B) (s : S) Q :
  sat (k (f s)) s Q -> sat (bind (gets f) k) s Q.
Proof. exact (fun H => H). Qed.

Lemma sat_modify {S B} (f : S -> S) (k : unit -> M S B) (s : S) Q :
  sat (k tt) (f s) Q -> sat (bind (modify f) k) s Q.
Proof. exact (fun H => H). Qed.

Lemma sat_bind {S A B} (m : M S A) (f : A -> M S B) (s : S) Q :
  sat m s (fun r s1 =>
             match r with
             | Returns a => sat (f a) s1 Q
             | Raises => Q Raises s1
             | Hangs => Q Hangs s1
             end) ->
  sat (bind m f) s Q.
Proof.
  unfold sat, bind. destruct (m s) as [[a| |] s1]; simpl; auto.
Qed.

Lemma sat_try {S A} (body handler : M S A) (s : S) Q :
  sat body s (fun r s1 =>
                match r with
                | Raises => sat handler s1 Q
                | _ => Q r s1
                end) ->
  sat (try_except body handler) s Q.
Proof.
  unfold sat, try_except. destruct (body s) as [[a| |] s1]; simpl; auto.
Qed.

(** A loop keeps what each pass keeps, however it ends; when it returns,
    every pass has returned. *)
Lemma sat_for_each {S A} (I : S -> Prop) (body : A -> M S unit) (xs : list A) :
  (forall x s, In x xs -> I s ->
               sat (body x) s (fun r s' => r <> Raises /\ I s')) ->
  forall s, I s -> sat (for_each xs body) s (fun r s' => r <> Raises /\ I s').
Proof.
  induction xs as [|x xs IH]; intros Hbody s Hs.
  - split; [discriminate|exact Hs].
  - cbn [for_each]. apply sat_bind.
    eapply sat_weaken; [apply (Hbody x s); [now left|exact Hs]|].
    intros [[]| |] s' [Hr Hi].
    + apply IH; [|exact Hi]. intros y s0 Hy. apply Hbody. now right.
    + congruence.
    + split; [discriminate|exact Hi].
Qed.

Ltac unfold_calls :=
  unfold sat, bind, ret, raise, hang, try_except, gets, modify, zoom in *.

Section Facts.

Variable unicode_alnum : char -> bool.
Variable sample_legal_text : str.
Variable sample_reread : encoding -> read_result.
Context {vec : Type}.
Variable normalize_L2 : vec -> vec.

Local Abbreviation World := (Rag.World vec).
Local Abbreviation Env := (Rag.Env vec).
Local Abbreviation load_or_sample :=
  (Rag.load_or_sample sample_legal_text sample_reread).
Local Abbreviation process_documents := (Rag.process_documents unicode_alnum).
Local Abbreviation describes := (Rag.describes unicode_alnum).
Local Abbreviation aligned := (Rag.aligned normalize_L2).
Local Abbreviation build_faiss := (Rag.build_faiss normalize_L2).
Local Abbreviation rebuild :=
  (Rag.rebuild unicode_alnum sample_legal_text sample_reread normalize_L2).
Local Abbreviation build_index :=
  (Rag.build_index unicode_alnum sample_legal_text sample_reread normalize_L2).
Local Abbreviation kept := (Rag.kept unicode_alnum).
Local Abbreviation built :=
  (Rag.built unicode_alnum sample_legal_text sample_reread normalize_L2).
Local Abbreviation rebuild_post :=
  (Rag.rebuild_post unicode_alnum sample_legal_text sample_reread normalize_L2).

Lemma load_encoder_spec (env : Env) (w : World) :
  sat (_load_encoder env) w
      (fun r w' =>
         match r with
         | Returns true =>
             (exists enc, encoder (self w') = Some enc) /\
             ~ encoder_unavailable env (self w) /\
             SENTENCE_TRANSFORMERS_AVAILABLE env = true /\
             same_store w w'
         | Returns false =>
             w' = w /\
             (SENTENCE_TRANSFORMERS_AVAILABLE env = false \/
              encoder_unavailable env (self w))
         | _ => False
         end).
Proof.
  unfold _load_encoder, construct, set_encoder, with_self, encoder_unavailable,
    same_store.
  unfold_calls.
  destruct (SENTENCE_TRANSFORMERS_AVAILABLE env) eqn:Hav; simpl; [|auto].
  destruct (encoder (self w)) as [e|] eqn:He; simpl.
  - repeat split; eauto. intros [H _]; discriminate.
  - destruct (SentenceTransformer env (model_name (self w))) as [e|] eqn:H1; simpl.
    + repeat split; eauto. intros (_ & H & _); discriminate.
    + destruct (SentenceTransformer env fallback_model) as [e|] eqn:H2; simpl.
      * repeat split; eauto. intros (_ & _ & H); discriminate.
      * auto.
Qed.

Lemma load_law_texts_runs (refused : bool) (data_dir : string) (d : Dirs) :
  corpus_outcome refused (fst (load_law_texts refused data_dir d)).
Proof.
  unfold load_law_texts, makedirs, corpus_outcome. unfold_calls.
  destruct (d data_dir) eqn:E; [exact I|].
  cbv beta iota. rewrite E.
  destruct refused; cbn; first [reflexivity|exact I].
Qed.

Lemma load_or_sample_runs (refused : bool) (data_dir : string) (d : Dirs) :
  corpus_outcome refused (fst (load_or_sample refused data_dir d)).
Proof.
  unfold Rag.load_or_sample. unfold bind at 1.
  pose proof (load_law_texts_runs refused data_dir d) as H1.
  destruct (load_law_texts refused data_dir d) as [[docs| |] d1]; cbn in *;
    try assumption.
  destruct (negb (truthy docs)); [|exact I].
  destruct refused.
  - unfold write_sample, makedirs, corpus_outcome. unfold_calls.
    cbv beta iota.
    destruct (d1 data_dir); reflexivity.
  - unfold write_sample, makedirs. unfold bind at 1 2 3 4.
    unfold gets, ret, modify. cbv beta iota.
    destruct (d1 data_dir); apply load_law_texts_runs.
Qed.

Lemma in_enumerate_from {A} (xs : list A) :
  forall k i x, In (i, x) (enumerate_from k xs) ->
                k <= i /\ nth_error xs (Z.to_nat (i - k)) = Some x.
Proof.
  induction xs as [|y xs IH]; intros k i x; cbn [enumerate_from In]; [tauto|].
  intros [[= <- <-]|H].
  - rewrite Z.sub_diag. split; [lia|reflexivity].
  - apply IH in H as [Hk Hn]. split; [lia|].
    replace (Z.to_nat (i - k)) with (S (Z.to_nat (i - (k + 1)))) by lia.
    exact Hn.
Qed.

Lemma process_documents_spec (fuel : nat) (chunk_size overlap : Z)
    (docs : list (string * str)) (w : World) :
  Forall2 (fun c m => describes fuel chunk_size overlap docs m c)
          (chunks (self w)) (chunk_metadata (self w)) ->
  sat (process_documents fuel docs chunk_size overlap) w
      (fun r w' => r <> Raises /\ kept fuel chunk_size overlap docs w w').
Proof.
  intros Hw. unfold Rag.process_documents.
  apply (sat_for_each (kept fuel chunk_size overlap docs w));
    [|unfold Rag.kept; auto 10].
  intros [filename content] s Hdoc Hs. cbn [fst snd].
  destruct (split_text fuel (clean_text unicode_alnum content) chunk_size overlap)
    as [document_chunks|] eqn:Hsplit.
  - apply sat_bind, sat_ret.
    apply (sat_for_each (kept fuel chunk_size overlap docs w)); [|exact Hs].
    intros [i chunk] s1 Hin (Hm & He & Hi & Hd & Hf & Hall).
    unfold set_chunks, set_chunk_metadata, with_self. unfold_calls. cbn.
    split; [discriminate|]. unfold Rag.kept; cbn.
    repeat (split; [assumption|]).
    apply Forall2_app; [exact Hall|]. constructor; [|constructor].
    apply in_enumerate_from in Hin as [Hi0 Hnth].
    rewrite Z.sub_0_r in Hnth.
    split; [reflexivity|]. cbn.
    exists content, document_chunks. auto.
  - apply sat_bind, sat_hang. split; [discriminate|exact Hs].
Qed.

Lemma build_faiss_spec (env : Env) (embeddings : list vec) (w : World) :
  sat (build_faiss env embeddings) w
      (fun r w' =>
         same_but_index w w' /\
         match r with
         | Returns _ =>
             index_fault env = None /\
             index (self w') = Some (map normalize_L2 embeddings)
         | Raises =>
             index_fault env <> None /\
             (index_fault env = Some AtShape \/
              index_fault env = Some AtIndexFlatIP ->
              index (self w') = index (self w))
         | Hangs => False
         end).
Proof.
  unfold Rag.build_faiss, fault_here, set_index, with_self, same_but_index.
  unfold_calls.
  destruct (index_fault env) as [[]|]; cbn; repeat split;
    try congruence; intros [|]; congruence.
Qed.

Lemma save_spec (env : Env) (w : World) :
  sat (save env) w
      (fun r w' =>
         self w' = self w /\ dirs w' = dirs w /\
         match r with
         | Returns b =>
             b = true /\ save_fault env = None /\
             exists vectors,
               index (self w) = Some vectors /\
               files w' index_path = Some (FaissIndex vectors) /\
               files w' chunks_path
                 = Some (Pickle (chunks (self w)) (chunk_metadata (self w)))
         | Raises =>
             (save_fault env <> None \/ index (self w) = None) /\
             (save_fault env = Some AtMakedirs \/
              save_fault env = Some (AtWriteIndex false) ->
              files w' = files w)
         | Hangs => False
         end).
Proof.
  unfold save, write_index, dump_chunks, write_file. unfold_calls.
  destruct (save_fault env) as [[|[]| |]|]; cbn;
    destruct (index (self w)) as [vectors|]; cbn;
    repeat split; try (left; congruence); try (right; congruence); eauto;
    intros [|]; congruence.
Qed.

Lemma forall2_aligned (emb : str -> vec) (R : str -> Meta -> Prop)
    (cs : list str) (ms : list Meta) :
  Forall2 R cs ms ->
  aligned emb (fun m c => R c m)
          (map normalize_L2 (map emb cs)) cs ms.
Proof.
  intros H. unfold Rag.aligned. rewrite !length_map.
  split; [reflexivity|]. split; [symmetry; exact (Forall2_length H)|].
  intros i c Hc. split.
  - rewrite map_map.
    exact (map_nth_error (fun x => normalize_L2 (emb x)) i cs Hc).
  - revert i Hc. induction H as [|c0 m0 cs ms Hcm _ IH]; intros [|i] Hc;
      cbn in *; try discriminate.
    + injection Hc as <-. eauto.
    + now apply IH.
Qed.

Ltac failed_post :=
  unfold Rag.rebuild_post;
  repeat match goal with
         | |- _ /\ _ => split
         | |- _ <> _ => intro
         | |- _ -> _ => intro
         | |- forall _, _ => intro
         end;
  try discriminate; try contradiction; try congruence.

Lemma rebuild_spec (env : Env) (fuel : nat) (data_dir : string)
    (chunk_size overlap : Z) (w : World) :
  sat (rebuild env fuel data_dir chunk_size overlap) w
      (rebuild_post env fuel data_dir chunk_size overlap w).
Proof.
  unfold Rag.rebuild. apply sat_bind.
  eapply sat_weaken; [apply load_encoder_spec|].
  intros [[|]| |] w1 H; cbn [negb]; try contradiction.
  2:{ destruct H as [-> _]. apply sat_ret. failed_post. }
  destruct H as ((enc & Henc) & Hav & _ & (Hm1 & Hi1 & Hc1 & Hmd1 & Hd1 & Hf1)).
  apply sat_bind. unfold in_dirs, zoom. unfold sat at 1. rewrite Hd1.
  pose proof (load_or_sample_runs (corpus_read_only env) data_dir (dirs w))
    as Hcorpus.
  destruct (load_or_sample (corpus_read_only env) data_dir (dirs w))
    as [[docs| |] d'] eqn:Hdocs; cbn [fst snd] in *;
    [|failed_post; cbn [files self]; congruence|contradiction].
  unfold set_chunks at 1, set_chunk_metadata at 1, with_self.
  apply sat_modify, sat_modify.
  cbn [self dirs files model_name encoder index chunks chunk_metadata].
  apply sat_bind.
  eapply sat_weaken; [apply process_documents_spec; constructor|].
  intros r2 w2 (Hr2 & Hm2 & He2 & Hi2 & Hd2 & Hf2 & Hall).
  cbn [self dirs files model_name encoder index chunks chunk_metadata] in *.
  rewrite Henc in He2.
  destruct r2 as [[]| |]; [|congruence|failed_post].
  apply sat_bind, sat_try, sat_bind.
  unfold embed_chunks, encode. unfold sat at 1. unfold bind, gets.
  rewrite He2.
  destruct (crashes enc (chunks (self w2))) eqn:Hcrash;
    unfold raise, ret; cbn [fst snd].
  { apply sat_ret, sat_ret. failed_post. }
  apply sat_ret. apply sat_bind, sat_try, sat_bind.
  eapply sat_weaken; [apply build_faiss_spec|].
  intros r3 w3 ((Hm3 & He3 & Hc3 & Hmd3 & Hd3 & Hf3) & H3).
  destruct r3 as [[]| |]; [| |contradiction].
  2:{ destruct H3 as [Hfault Hearly].
      apply sat_ret; cbn [negb]; apply sat_ret; failed_post.
      rewrite Hearly by assumption. congruence. }
  destruct H3 as [Hnofault Hi3].
  apply sat_ret. cbn [negb]. apply sat_try.
  eapply sat_weaken; [apply save_spec|].
  intros r4 w4 (Hs4 & Hd4 & H4).
  destruct r4 as [b| |]; [| |contradiction].
  - destruct H4 as (-> & Hnosave & vectors & Hv & Hfi & Hfc).
    unfold Rag.rebuild_post, Rag.built. rewrite Hs4.
    split; [discriminate|]. split; [intros Hu; contradiction|].
    split; [congruence|]. split; [congruence|].
    split; [intros enc' He' Hc'; congruence|]. intros _.
    exists enc, vectors, docs.
    rewrite Hdocs, Hfi, Hfc.
    split; [congruence|]. split; [exact Hv|]. split; [reflexivity|].
    split; [|split; reflexivity].
    assert (vectors = map normalize_L2 (map (embed enc) (chunks (self w2))))
      as -> by congruence.
    rewrite Hc3, Hmd3.
    exact (forall2_aligned (embed enc) _ _ _ Hall).
  - apply sat_ret. destruct H4 as [[H4|H4] Hnothing]; [|congruence].
    unfold Rag.rebuild_post. rewrite Hs4.
    split; [discriminate|]. split; [intros Hu; contradiction|].
    split; [congruence|].
    split; [intros _; split; [discriminate|]|].
    { intros Hstage. rewrite (Hnothing Hstage). congruence. }
    split; [intros enc' He' Hc'; congruence|]. intros [=].
Qed.

Lemma load_existing_spec (env : Env) (ip cp : string) (w : World) :
  sat (_load_existing_index env ip cp) w
      (fun r w' =>
         match r with
         | Returns true => loaded_from ip cp w w'
         | Returns false => True
         | _ => False
         end).
Proof.
  unfold _load_existing_index. apply sat_try, sat_bind.
  eapply sat_weaken; [apply load_encoder_spec|].
  intros [[|]| |] w1 H; cbn [negb]; try contradiction; [|exact I].
  destruct H as (_ & _ & _ & (_ & _ & _ & _ & _ & Hf1)).
  unfold read_index, load_pickle, subscript, set_index, set_chunks,
    set_chunk_metadata, with_self, loaded_from.
  unfold_calls. rewrite Hf1.
  destruct (files w ip) as [[vectors|c m|c|]|]; cbn; try exact I.
  rewrite Hf1.
  destruct (files w cp) as [[vectors'|c m|c|]|]; cbn; try exact I.
  exists vectors, c, m. auto.
Qed.

Lemma fast_path_runs (force_rebuild : bool) (w : World) :
  exists b, fast_path force_rebuild w = (Returns b, w).
Proof. unfold fast_path, exists_. unfold_calls. eauto. Qed.

Lemma rebuild_post_refused (env : Env) (fuel : nat) (data_dir : string)
    (chunk_size overlap : Z) (w : World) :
  rebuild_post env fuel data_dir chunk_size overlap w (Returns false) w.
Proof.
  unfold Rag.rebuild_post.
  split; [discriminate|]. split; [auto|].
  split; [intros _; split; [discriminate|split; reflexivity]|].
  split; [intros _; split; [discriminate|reflexivity]|].
  split; [intros enc _ _; split; [discriminate|split; reflexivity]|].
  intros [=].
Qed.

(** How [build_index] ends. *)
Lemma build_index_spec (env : Env) (fuel : nat) (data_dir : string)
    (chunk_size overlap : Z) (force_rebuild : bool) (w : World) :
  sat (build_index env fuel data_dir chunk_size overlap force_rebuild) w
      (fun r w' =>
         (SENTENCE_TRANSFORMERS_AVAILABLE env = false \/
          FAISS_AVAILABLE env = false -> r = Returns false /\ w' = w) /\
         (fast_path force_rebuild w = (Returns true, w) ->
          match r with
          | Returns true => loaded_from index_path chunks_path w w'
          | Returns false => True
          | _ => False
          end) /\
         (fast_path force_rebuild w = (Returns false, w) ->
          rebuild_post env fuel data_dir chunk_size overlap w r w')).
Proof.
  unfold Rag.build_index.
  destruct (negb (SENTENCE_TRANSFORMERS_AVAILABLE env)
            || negb (FAISS_AVAILABLE env)) eqn:Hdeps.
  - apply sat_ret. split; [auto|].
    split; intros _; [exact I|apply rebuild_post_refused].
  - apply orb_false_elim in Hdeps as [Hst Hfa].
    apply negb_false_iff in Hst, Hfa.
    apply sat_bind.
    destruct (fast_path_runs force_rebuild w) as (b & Hb).
    unfold sat at 1. rewrite Hb. cbn [fst snd].
    destruct b.
    + eapply sat_weaken; [apply load_existing_spec|].
      intros r w' H. split; [intros [|]; congruence|].
      split; [auto|intros [=]].
    + eapply sat_weaken; [apply rebuild_spec|].
      intros r w' H. split; [intros [|]; congruence|].
      split; [intros [=]|auto].
Qed.

(** ** build_index *)

(** C1 (as amended). A successful rebuild leaves an aligned pipeline: as
    many vectors and metadata records as chunks, the [i]-th vector the
    normalised embedding of the [i]-th chunk, the [i]-th record that of
    the [i]-th chunk, and the two artifacts saved are this index and
    these lists. A successful load (called directly, or as the fast path
    of [build_index]) leaves as index, chunks and metadata exactly what
    the two files held; it compares nothing, so the pipeline is aligned
    when, and only when, the two files were. *)
Theorem alignment_after_build_or_load :
  forall (env : Env) (fuel : nat) (data_dir : string) (chunk_size overlap : Z)
         (force_rebuild : bool) (ip cp : string) (w w' : World),
    (_load_existing_index env ip cp w = (Returns true, w') ->
     loaded_from ip cp w w') /\
    (build_index env fuel data_dir chunk_size overlap force_rebuild w
       = (Returns true, w') ->
     (fast_path force_rebuild w = (Returns true, w) /\
      loaded_from index_path chunks_path w w') \/
     (fast_path force_rebuild w = (Returns false, w) /\
      built env fuel data_dir chunk_size overlap w w')).
Proof.
  intros env fuel data_dir chunk_size overlap force_rebuild ip cp w w'. split.
  - intros H. exact (sat_run _ _ _ _ _ (load_existing_spec env ip cp w) H).
  - intros H.
    pose proof (sat_run _ _ _ _ _
                  (build_index_spec env fuel data_dir chunk_size overlap
                     force_rebuild w) H) as (_ & Hfast & Hslow).
    destruct (fast_path_runs force_rebuild w) as ([|] & Hb).
    + left. split; [exact Hb|exact (Hfast Hb)].
    + right. split; [exact Hb|].
      destruct (Hslow Hb) as (_ & _ & _ & _ & _ & Hbuilt). now apply Hbuilt.
Qed.




End Facts.

(** ** search_law *)

Section SearchFacts.

Context {vec score : Type}.
Variable normalize_L2 : vec -> vec.
Variable inner_product : vec -> vec -> score.
Variable score_leb : score -> score -> bool.
Variable lowest_score : score.

Local Abbreviation World := (Rag.World vec).
Local Abbreviation search_law :=
  (Rag.search_law normalize_L2 inner_product score_leb lowest_score).

Lemma search_law_runs (query : str) (k : Z) (w : World) :
  exists results, search_law query k w = (Returns results, w).
Proof.
  unfold Rag.search_law. unfold_calls.
  destruct (index (self w)) as [vectors|]; [|eauto].
  destruct (encoder (self w)) as [enc|]; [|eauto].
  destruct (encode enc [query]) as [[|q qs]|]; cbn [map]; eauto.
  destruct (faiss_search inner_product score_leb lowest_score vectors
              (normalize_L2 q) k) as [hits|]; eauto.
  destruct (collect (self w) (enumerate hits) []); eauto.
Qed.

(** C10. Whatever the pipeline, the query and [k], [search_law] returns,
    and leaves the pipeline object (its chunks, metadata and index among
    the rest) and the disk exactly as they were, on the path that finds
    results and on the path that ends in the exception handler alike. *)
Theorem search_law_read_only :
  forall (w : World) (query : str) (k : Z),
    snd (search_law query k w) = w /\
    chunks (self (snd (search_law query k w))) = chunks (self w) /\
    chunk_metadata (self (snd (search_law query k w))) = chunk_metadata (self w) /\
    index (self (snd (search_law query k w))) = index (self w) /\
    fst (search_law query k w) <> Raises.
Proof.
  intros w query k.
  destruct (search_law_runs query k w) as (results & ->). cbn.
  repeat split. discriminate.
Qed.

(** C7. On a pipeline whose index or encoder is still [None],
    [search_law] returns the empty list, raises nothing and changes
    nothing. *)
Theorem search_before_build :
  forall (w : World) (query : str) (k : Z),
    index (self w) = None \/ encoder (self w) = None ->
    search_law query k w = (Returns [], w).
Proof.
  intros w query k H. unfold Rag.search_law. unfold_calls.
  destruct H as [-> | ->]; [reflexivity|].
  destruct (index (self w)); reflexivity.
Qed.

(** C3 (the code against the claim). A pipeline holding one chunk, asked
    for three results, returns three: the index fills the two missing
    places with the label [-1], which passes the test
    [idx < len(self.chunks)] and, as a Python subscript, names the last
    chunk again. *)
Theorem search_law_beyond_index :
  forall (name : string) (emb : str -> vec) (v : vec) (c : str) (m : Meta)
         (d : Dirs) (f : string -> option (artifact vec)) (query : str),
    let enc := {| embed := emb; crashes := fun _ => false |} in
    let w := {| self := {| model_name := name; encoder := Some enc;
                           index := Some [v]; chunks := [c];
                           chunk_metadata := [m] |};
                dirs := d; files := f |} in
    search_law query 3 w
    = (Returns
         [ {| chunk := c; metadata := m;
              score_of := inner_product (normalize_L2 (emb query)) v;
              rank := 1 |};
           {| chunk := c; metadata := m; score_of := lowest_score; rank := 2 |};
           {| chunk := c; metadata := m; score_of := lowest_score; rank := 3 |} ],
       w).
Proof. reflexivity. Qed.

(** *** More results than chunks *)

Lemma item_in_range {A} (l : list A) (i : Z) :
  - len l <= i < len l -> exists x, item l i = Some x.
Proof.
  intros H. unfold item, len in *.
  destruct ((0 <=? i) && (i <? Z.of_nat (length l))) eqn:E.
  - apply andb_prop in E as [E1 E2]. apply Z.leb_le in E1. apply Z.ltb_lt in E2.
    destruct (nth_error l (Z.to_nat i)) as [x|] eqn:Hn; [eauto|].
    apply nth_error_None in Hn. lia.
  - assert (i < 0).
    { apply andb_false_iff in E as [E|E];
        [apply Z.leb_gt in E|apply Z.ltb_ge in E]; lia. }
    replace (- Z.of_nat (length l) <=? i) with true by (symmetry; apply Z.leb_le; lia).
    replace (i <? 0) with true by (symmetry; apply Z.ltb_lt; lia).
    cbn [andb].
    destruct (nth_error l (Z.to_nat (i + Z.of_nat (length l)))) as [x|] eqn:Hn;
      [eauto|].
    apply nth_error_None in Hn. lia.
Qed.

Lemma enumerate_from_labels {A} (xs : list A) :
  forall k, Forall (fun h => k <= fst h < k + len xs) (enumerate_from k xs).
Proof.
  induction xs as [|x xs IH]; intros k; cbn [enumerate_from]; constructor.
  - unfold len; cbn. lia.
  - eapply Forall_impl; [|apply IH]. unfold len; cbn. intros h. lia.
Qed.

Lemma insert_hit_spec (P : Z * score -> Prop) (h : Z * score) :
  forall hits, P h -> Forall P hits ->
               Forall P (insert_hit score_leb h hits) /\
               length (insert_hit score_leb h hits) = S (length hits).
Proof.
  induction hits as [|h' rest IH]; intros Hh Hall; cbn [insert_hit].
  - split; [now constructor|reflexivity].
  - destruct (score_leb (snd h') (snd h)).
    + split; [now constructor|reflexivity].
    + inversion Hall as [|? ? Hh' Hrest]; subst.
      destruct (IH Hh Hrest) as [H1 H2].
      split; [now constructor|cbn; now rewrite H2].
Qed.

Lemma enumerate_from_length {A} (xs : list A) :
  forall k, length (enumerate_from k xs) = length xs.
Proof.
  induction xs as [|x xs IH]; intros k; [reflexivity|cbn; now rewrite IH].
Qed.

Lemma sorted_hits_spec (P : Z * score -> Prop) (hits : list (Z * score)) :
  Forall P hits ->
  Forall P (fold_right (insert_hit score_leb) [] hits) /\
  length (fold_right (insert_hit score_leb) [] hits) = length hits.
Proof.
  induction 1 as [|h hits Hh _ [IH1 IH2]]; cbn [fold_right].
  - split; [constructor|reflexivity].
  - destruct (insert_hit_spec P h _ Hh IH1) as [H1 H2].
    split; [exact H1|]. rewrite H2. cbn. now rewrite IH2.
Qed.

Lemma ranked_spec (vectors : list vec) (q : vec) :
  Forall (fun h => 0 <= fst h < len vectors)
         (ranked inner_product score_leb vectors q) /\
  length (ranked inner_product score_leb vectors q) = length vectors.
Proof.
  unfold ranked, enumerate.
  destruct (sorted_hits_spec (fun h => 0 <= fst h < len vectors)
              (map (fun iv => (fst iv, inner_product q (snd iv)))
                   (enumerate_from 0 vectors))) as [H1 H2].
  - apply Forall_map. cbn [fst].
    exact (enumerate_from_labels vectors 0).
  - split; [exact H1|].
    now rewrite H2, length_map, enumerate_from_length.
Qed.

Lemma collect_all (p : RAGPipeline vec) :
  length (chunk_metadata p) = length (chunks p) ->
  forall (hits : list (Z * (Z * score))) (results : list (SearchResult score)),
    Forall (fun h => - len (chunks p) <= fst (snd h) < len (chunks p)) hits ->
    exists results',
      collect p hits results = Some results' /\
      length results' = (length results + length hits)%nat.
Proof.
  intros Hmeta. induction hits as [|[i [idx sc]] rest IH]; intros results Hall.
  - exists results. split; [reflexivity|cbn; lia].
  - inversion Hall as [|? ? Hidx Hrest]; subst. cbn [fst snd] in Hidx.
    cbn [collect].
    replace (idx <? len (chunks p)) with true by (symmetry; apply Z.ltb_lt; lia).
    destruct (item_in_range (chunks p) idx Hidx) as (c & ->).
    destruct (item_in_range (chunk_metadata p) idx) as (m & ->).
    { unfold len in *. rewrite Hmeta. exact Hidx. }
    destruct (IH (results ++ [{| chunk := c; metadata := m; score_of := sc;
                                 rank := i + 1 |}]) Hrest)
      as (results' & Hc & Hl).
    exists results'. split; [exact Hc|].
    rewrite Hl, length_app. cbn. lia.
Qed.

Lemma enumerate_from_snd {A} (P : A -> Prop) (xs : list A) :
  Forall P xs -> forall k, Forall (fun h => P (snd h)) (enumerate_from k xs).
Proof.
  induction 1 as [|x xs Hx _ IH]; intros k; cbn [enumerate_from];
    constructor; auto.
Qed.

(** On a pipeline with as many vectors and metadata records as chunks,
    and at least one chunk, [search_law] returns [k] results for every
    positive [k], also when [k] exceeds the number of chunks. *)
Lemma search_law_returns_k (w : World) (query : str) (k : Z)
    (enc : Encoder vec) (vectors : list vec) :
  index (self w) = Some vectors ->
  encoder (self w) = Some enc ->
  crashes enc [query] = false ->
  length vectors = length (chunks (self w)) ->
  length (chunk_metadata (self w)) = length (chunks (self w)) ->
  (0 < length (chunks (self w)))%nat ->
  0 < k ->
  exists results,
    search_law query k w = (Returns results, w) /\ len results = k.
Proof.
  intros Hi He Hc Hv Hm Hn Hk.
  unfold Rag.search_law. unfold_calls. rewrite Hi, He.
  unfold encode. rewrite Hc. cbn [map].
  unfold faiss_search.
  replace (k <=? 0) with false by (symmetry; apply Z.leb_gt; lia).
  destruct (ranked_spec vectors (normalize_L2 (embed enc query))) as [Hr Hrl].
  set (r := ranked inner_product score_leb vectors
                   (normalize_L2 (embed enc query))) in *.
  set (hits := firstn (Z.to_nat k) r
               ++ repeat (-1, lowest_score) (Z.to_nat k - length (firstn (Z.to_nat k) r))).
  assert (Hhits : Forall (fun h => - len (chunks (self w)) <= fst h
                                   < len (chunks (self w))) hits).
  { apply Forall_app. split.
    - apply Forall_forall. intros h Hh.
      assert (Hin : In h r).
      { rewrite <- (firstn_skipn (Z.to_nat k) r). apply in_or_app. now left. }
      rewrite Forall_forall in Hr. specialize (Hr h Hin).
      unfold len in *. lia.
    - apply Forall_forall. intros h Hh. apply repeat_spec in Hh. subst h.
      unfold len; cbn. lia. }
  assert (Hlen : length hits = Z.to_nat k).
  { unfold hits. rewrite length_app, repeat_length.
    pose proof (firstn_le_length (Z.to_nat k) r). lia. }
  destruct (collect_all (self w) Hm (enumerate hits) []
              (enumerate_from_snd _ hits Hhits 0))
    as (results & Hcol & Hl).
  fold hits. rewrite Hcol. exists results. split; [reflexivity|].
  unfold len. rewrite Hl. unfold enumerate.
  rewrite enumerate_from_length, Hlen. cbn. lia.
Qed.

End SearchFacts.

(** ** The properties on the small instance *)

Import Toy.

(** The amended alignment on the small instance: the load of stale
    files, and the first build. *)
Lemma alignment_after_build_or_load_witness :
  loaded_from index_path chunks_path (fresh (dirs w2) (files w2)) w3 /\
  Rag.built alnum sample sample_reread normalize (env None None)
            2000 laws 1000 200 w0 w1.
Proof.
  split.
  - apply (proj1 (alignment_after_build_or_load alnum sample sample_reread
                    normalize (env None None) 2000 laws 1000 200 false
                    index_path chunks_path (fresh (dirs w2) (files w2)) w3)).
    vm_compute. reflexivity.
  - destruct (proj2 (alignment_after_build_or_load alnum sample sample_reread
                       normalize (env None None) 2000 laws 1000 200 false
                       index_path chunks_path w0 w1))
      as [[Hfast _]|[_ Hbuilt]].
    + vm_compute. reflexivity.
    + vm_compute in Hfast. discriminate Hfast.
    + exact Hbuilt.
Defined.

(** C1 (the claim as stated fails). A build on one document succeeds. A
    forced rebuild on two documents writes the new index of two vectors
    and then cannot open the chunk file: it returns [False], and the disk
    holds the new index beside the old chunk list. The load of a new
    process succeeds on these two files, and leaves an index of two
    vectors over one chunk and one metadata record. *)
Lemma alignment_counterexample :
  build (env None None) false w0 = (Returns true, w1) /\
  build (env None (Some AtOpen)) true (with_dirs two_docs w1)
    = (Returns false, w2) /\
  build (env None None) false (fresh (dirs w2) (files w2)) = (Returns true, w3) /\
  index (self w3) = Some [1; 1] /\
  chunks (self w3) = [lit "One."] /\
  length (chunk_metadata (self w3)) = 1%nat /\
  forall emb record_of,
    ~ Rag.aligned normalize emb record_of
        [1; 1] (chunks (self w3)) (chunk_metadata (self w3)).
Proof.
  repeat match goal with
         | |- _ = _ /\ _ => split; [vm_compute; reflexivity|]
         end.
  intros emb record_of (Hlen & _). vm_compute in Hlen. discriminate Hlen.
Qed.



(** A search on the pipeline just constructed. *)
Lemma search_before_build_witness :
  search (lit "property") 3 w0 = (Returns [], w0).
Proof.
  apply (search_before_build normalize Z.mul Z.leb lowest w0).
  left. reflexivity.
Defined.

End RagFacts.

(** * Further properties of the chunker *)

Module ChunkerMore.
Import Py Utils Inputs More ChunkerFacts.

(** ** Stripping *)

Lemma lstrip_idempotent (s : str) : lstrip (lstrip s) = lstrip s.
Proof.
  induction s as [|c s IH]; [reflexivity|]. cbn [lstrip].
  destruct (isspace c) eqn:E; [exact IH|]. cbn [lstrip]. now rewrite E.
Qed.

Lemma lstrip_suffix (s : str) : exists spaces, s = spaces ++ lstrip s.
Proof.
  induction s as [|c s [spaces IH]]; [now exists []|]. cbn [lstrip].
  destruct (isspace c).
  - exists (c :: spaces). cbn. now rewrite <- IH.
  - now exists [].
Qed.

Lemma lstrip_fixed_head (c : char) (s : str) :
  lstrip (c :: s) = c :: s -> isspace c = false.
Proof.
  cbn [lstrip]. destruct (isspace c); [|reflexivity].
  intros H. pose proof (lstrip_length s) as Hl. rewrite H in Hl. cbn in Hl. lia.
Qed.

Lemma lstrip_keeps (c : char) (s : str) :
  isspace c = false -> lstrip (c :: s) = c :: s.
Proof. intros H. cbn [lstrip]. now rewrite H. Qed.

(** A stripped string starts and ends with no whitespace: stripping it
    again gives it back. *)
Lemma strip_idempotent (s : str) : strip (strip s) = strip s.
Proof.
  unfold strip, rstrip.
  set (u := lstrip s).
  assert (Hu : lstrip u = u) by apply lstrip_idempotent.
  destruct (lstrip_suffix (rev u)) as [spaces Hv].
  set (v := lstrip (rev u)) in *.
  assert (Hvv : lstrip v = v) by apply lstrip_idempotent.
  assert (Hhead : lstrip (rev v) = rev v).
  { destruct (rev v) as [|c t] eqn:E; [reflexivity|].
    apply lstrip_keeps.
    assert (Hu' : u = (c :: t) ++ rev spaces).
    { rewrite <- E, <- rev_app_distr, <- Hv. now rewrite rev_involutive. }
    rewrite Hu' in Hu. cbn [app] in Hu.
    exact (lstrip_fixed_head _ _ Hu). }
  rewrite Hhead, rev_involutive, Hvv. reflexivity.
Qed.

Lemma piece_of_refl (text : str) : piece_of text text.
Proof. exists [], []. now rewrite app_nil_r. Qed.

Lemma piece_of_trans (a b c : str) :
  piece_of a b -> piece_of b c -> piece_of a c.
Proof.
  intros (p1 & q1 & ->) (p2 & q2 & ->).
  exists (p1 ++ p2), (q2 ++ q1). now rewrite <- !app_assoc.
Qed.

Lemma lstrip_piece (s : str) : piece_of s (lstrip s).
Proof.
  destruct (lstrip_suffix s) as [spaces H].
  exists spaces, []. now rewrite app_nil_r.
Qed.

Lemma strip_piece (s : str) : piece_of s (strip s).
Proof.
  apply piece_of_trans with (lstrip s); [apply lstrip_piece|].
  unfold strip, rstrip.
  destruct (lstrip_suffix (rev (lstrip s))) as [spaces H].
  exists [], (rev spaces). cbn [app].
  rewrite <- rev_app_distr, <- H. now rewrite rev_involutive.
Qed.

Lemma slice_piece {A} (l : list A) (a b : Z) :
  exists before after, l = before ++ slice l a b ++ after.
Proof.
  unfold slice.
  set (a' := Z.to_nat (norm_bound (len l) a)).
  set (n := Z.to_nat (norm_bound (len l) b - norm_bound (len l) a)).
  exists (firstn a' l), (skipn n (skipn a' l)).
  now rewrite firstn_skipn, firstn_skipn.
Qed.

(** ** What every chunk of the loop is *)

Lemma loop_body_good (text : str) (chunk_size overlap start : Z)
    (chunks : list str) :
  Forall (good_chunk text) chunks ->
  Forall (good_chunk text)
         (chunks_in (loop_body text chunk_size overlap start chunks)).
Proof.
  intros Hall. unfold loop_body.
  set (sl := slice text start (chunk_end text chunk_size start)).
  assert (Hnew : Forall (good_chunk text)
                        (if truthy (strip sl) then chunks ++ [strip sl]
                         else chunks)).
  { destruct (truthy (strip sl)) eqn:Ht; [|exact Hall].
    apply Forall_app. split; [exact Hall|]. constructor; [|constructor].
    split; [intros E; rewrite E in Ht; discriminate|].
    split; [apply strip_idempotent|].
    apply piece_of_trans with sl; [apply slice_piece|apply strip_piece]. }
  destruct (len text <=? _); exact Hnew.
Qed.

Lemma while_loop_good (text : str) (chunk_size overlap : Z) :
  forall fuel start chunks result,
    Forall (good_chunk text) chunks ->
    while_loop fuel text chunk_size overlap start chunks = Some result ->
    Forall (good_chunk text) result.
Proof.
  induction fuel as [|fuel IH]; intros start chunks result Hall; cbn [while_loop].
  - discriminate.
  - destruct (start <? len text).
    + pose proof (loop_body_good text chunk_size overlap start chunks Hall) as Hb.
      destruct (loop_body text chunk_size overlap start chunks) as [s' c'|c'];
        cbn [chunks_in] in Hb.
      * intros H. exact (IH _ _ _ Hb H).
      * intros [= <-]. exact Hb.
    + intros [= <-]. exact Hall.
Qed.

(** X1. When the text is longer than [chunk_size], no chunk returned is
    empty and none starts or ends with whitespace. (A text that fits in
    one chunk is returned as it is, empty or not.) *)
Theorem split_text_chunks_trimmed :
  forall fuel text chunk_size overlap chunks,
    chunk_size < len text ->
    split_text fuel text chunk_size overlap = Some chunks ->
    Forall (fun c => c <> [] /\ strip c = c) chunks.
Proof.
  intros fuel text chunk_size overlap chunks Hlong. unfold split_text.
  replace (len text <=? chunk_size) with false by (symmetry; apply Z.leb_gt; lia).
  intros H.
  eapply Forall_impl; [|exact (while_loop_good _ _ _ _ _ _ _ (Forall_nil _) H)].
  intros c (H1 & H2 & _). now split.
Qed.

(** X2. Every chunk returned is a contiguous piece of the text, whatever
    the sizes given. *)
Theorem split_text_chunks_are_pieces :
  forall fuel text chunk_size overlap chunks,
    split_text fuel text chunk_size overlap = Some chunks ->
    Forall (piece_of text) chunks.
Proof.
  intros fuel text chunk_size overlap chunks. unfold split_text.
  destruct (len text <=? chunk_size).
  - intros [= <-]. constructor; [apply piece_of_refl|constructor].
  - intros H.
    eapply Forall_impl; [|exact (while_loop_good _ _ _ _ _ _ _ (Forall_nil _) H)].
    intros c (_ & _ & H3). exact H3.
Qed.

(** ** How the slices follow one another *)

Lemma chained_from_app (overlap : Z) (spans : list (Z * Z)) :
  forall start sp rest,
    chained_from start overlap (spans ++ [sp]) ->
    chained_from (snd sp - overlap) overlap rest ->
    chained_from start overlap (spans ++ sp :: rest).
Proof.
  induction spans as [|x spans IH]; intros start sp rest H1 H2;
    cbn [app chained_from] in *.
  - split; [apply H1|exact H2].
  - split; [apply H1|]. apply IH; [apply H1|exact H2].
Qed.

Lemma span_loop_chained (text : str) (chunk_size overlap : Z) :
  forall fuel start spans result,
    span_loop fuel text chunk_size overlap start spans = Some result ->
    exists new, result = spans ++ new /\ chained_from start overlap new.
Proof.
  induction fuel as [|fuel IH]; intros start spans result; cbn [span_loop].
  - discriminate.
  - destruct (start <? len text).
    + unfold span_body.
      destruct (len text <=? chunk_end text chunk_size start - overlap).
      * intros [= <-]. eexists. split; [reflexivity|]. cbn. auto.
      * intros H. apply IH in H as (new & -> & Hnew).
        exists ((start, chunk_end text chunk_size start) :: new).
        split; [now rewrite <- app_assoc|]. cbn. auto.
    + intros [= <-]. exists []. split; [now rewrite app_nil_r|exact I].
Qed.

(** X3. When the text is longer than [chunk_size], the chunks returned
    are the stripped, non-empty slices [text[start:end]] of a sequence of
    slices of which the first starts at 0 and every next one starts
    exactly [overlap] characters before the end of the one before it. *)
Theorem split_text_slices_chained :
  forall fuel text chunk_size overlap chunks,
    chunk_size < len text ->
    split_text fuel text chunk_size overlap = Some chunks ->
    exists spans,
      split_spans fuel text chunk_size overlap = Some spans /\
      chunks = chunks_of_spans text spans /\
      chained_from 0 overlap spans.
Proof.
  intros fuel text chunk_size overlap chunks Hlong.
  unfold split_text, split_spans.
  replace (len text <=? chunk_size) with false by (symmetry; apply Z.leb_gt; lia).
  change (@nil str) with (chunks_of_spans text []).
  rewrite while_loop_spans.
  destruct (span_loop fuel text chunk_size overlap 0 []) as [spans|] eqn:Hs;
    [|discriminate].
  intros [= <-]. exists spans. split; [reflexivity|]. split; [reflexivity|].
  apply span_loop_chained in Hs as (new & -> & Hnew). exact Hnew.
Qed.

(** ** Where the loop ends *)

(** The loop ends within [len(text)] passes. *)
Lemma split_text_ends :
  forall fuel text chunk_size overlap,
    0 <= overlap -> overlap < chunk_size -> overlap <= chunk_size / 2 + 1 ->
    len text <= Z.of_nat fuel ->
    exists chunks, split_text fuel text chunk_size overlap = Some chunks.
Proof.
  intros fuel text chunk_size overlap H0 H1 H2 Hfuel. unfold split_text.
  destruct (len text <=? chunk_size) eqn:E; [eauto|].
  apply Z.leb_gt in E.
  destruct (span_loop_tiles text chunk_size overlap H0 H1 H2 fuel 0 [])
    as (spans & Hs & _); [lia|lia|now left|].
  change (@nil str) with (chunks_of_spans text []).
  rewrite while_loop_spans, Hs. cbn. eauto.
Qed.

(** X4. With [0 <= overlap < chunk_size] and [overlap] at most
    [chunk_size // 2 + 1] (as with the defaults 1000 and 200) the loop
    ends: [split_text] returns after at most [len(text)] passes. *)
Theorem split_text_returns_within :
  forall fuel text chunk_size overlap,
    0 <= overlap -> overlap < chunk_size -> overlap <= chunk_size / 2 + 1 ->
    len text <= Z.of_nat fuel ->
    exists chunks, split_text fuel text chunk_size overlap = Some chunks.
Proof. exact split_text_ends. Qed.

(** ** The four properties on [two_sentences], cut at 20 with overlap 5 *)

Lemma split_text_chunks_trimmed_witness :
  Forall (fun c => c <> [] /\ strip c = c)
         [lit "One two three."; lit "hree. Four five six."; lit "six. Seven."].
Proof.
  apply (split_text_chunks_trimmed 40 two_sentences 20 5);
    [vm_compute; reflexivity|vm_compute; reflexivity].
Defined.

Lemma split_text_chunks_are_pieces_witness :
  Forall (piece_of two_sentences)
         [lit "One two three."; lit "hree. Four five six."; lit "six. Seven."].
Proof.
  apply (split_text_chunks_are_pieces 40 two_sentences 20 5).
  vm_compute. reflexivity.
Defined.

Lemma split_text_slices_chained_witness :
  exists spans,
    split_spans 40 two_sentences 20 5 = Some spans /\
    [lit "One two three."; lit "hree. Four five six."; lit "six. Seven."]
      = chunks_of_spans two_sentences spans /\
    chained_from 0 5 spans.
Proof.
  apply (split_text_slices_chained 40 two_sentences 20 5);
    [vm_compute; reflexivity|vm_compute; reflexivity].
Defined.

Lemma split_text_returns_within_witness :
  exists chunks, split_text 36 two_sentences 20 5 = Some chunks.
Proof.
  apply (split_text_returns_within 36 two_sentences 20 5);
    [lia|lia|vm_compute; discriminate|vm_compute; discriminate].
Defined.

End ChunkerMore.

(** * Further properties of the loader and the cleaner *)

Module TextMore.
Import Py Utils Toy TextFacts.

(** ** clean_text *)

Lemma join_only_spaces (words : list str) :
  Forall spaceless words ->
  Forall (fun c => isspace c = true -> c = 32%N) (join (lit " ") words).
Proof.
  induction 1 as [|w words [_ Hw] _ IH]; [constructor|].
  assert (Hword : Forall (fun c => isspace c = true -> c = 32%N) w).
  { eapply Forall_impl; [|exact Hw]. cbn. congruence. }
  cbn [join]. destruct words as [|w' words']; [exact Hword|].
  apply Forall_app. split; [exact Hword|].
  apply Forall_app. split; [|exact IH].
  constructor; [reflexivity|constructor].
Qed.

(** X5. Every character of the output of [clean_text] is on the
    allow-list, and the only whitespace character left is the plain
    space: no newline, tab or other Unicode space survives. *)
Theorem clean_text_characters :
  forall (unicode_alnum : char -> bool) (text : str),
    Forall (fun c => allowed unicode_alnum c = true /\
                     (isspace c = true -> c = 32%N))
           (clean_text unicode_alnum text).
Proof.
  intros unicode_alnum text. unfold clean_text.
  apply Forall_forall. intros c Hc. apply filter_In in Hc as [Hin Hall].
  split; [exact Hall|].
  pose proof (join_only_spaces (split text)
                (split_from_spaceless text [] (Forall_nil _))) as H.
  rewrite Forall_forall in H. exact (H c Hin).
Qed.

Lemma in_join (sep : str) (c : char) (words : list str) :
  In c (join sep words) -> In c sep \/ exists w, In w words /\ In c w.
Proof.
  induction words as [|w words IH]; cbn [join]; [contradiction|].
  destruct words as [|w' words'].
  - intros H. right. exists w. split; [now left|exact H].
  - intros H. apply in_app_or in H as [H|H].
    + right. exists w. split; [now left|exact H].
    + apply in_app_or in H as [H|H]; [now left|].
      destruct (IH H) as [Hs|(x & Hx & Hc)]; [now left|].
      right. exists x. split; [now right|exact Hc].
Qed.

Lemma in_split_from (s : str) :
  forall word w c,
    In w (split_from s word) -> In c w -> In c s \/ In c word.
Proof.
  induction s as [|x s IH]; intros word w c; cbn [split_from].
  - destruct word as [|y word]; cbn [truthy]; [contradiction|].
    intros [<-|[]] Hc. now right.
  - destruct (isspace x).
    + destruct word as [|y word]; cbn [truthy].
      * intros Hw Hc. destruct (IH _ _ _ Hw Hc) as [H|[]]. left. now right.
      * intros [<-|Hw] Hc; [now right|].
        destruct (IH _ _ _ Hw Hc) as [H|[]]. left. now right.
    + intros Hw Hc. destruct (IH _ _ _ Hw Hc) as [H|H]; [left; now right|].
      apply in_app_or in H as [H|[<-|[]]]; [now right|left; now left].
Qed.

Lemma filter_all {A} (f : A -> bool) (l : list A) :
  (forall x, In x l -> f x = true) -> filter f l = l.
Proof.
  induction l as [|x l IH]; intros H; [reflexivity|]. cbn [filter].
  rewrite (H x) by now left. f_equal. apply IH. intros y Hy. apply H. now right.
Qed.

(** On a text of allowed characters only the first step of
    [clean_text] does anything. *)
Lemma clean_text_collapses (unicode_alnum : char -> bool) (text : str) :
  Forall (fun c => allowed unicode_alnum c = true) text ->
  clean_text unicode_alnum text = join (lit " ") (split text).
Proof.
  intros Hall. unfold clean_text. apply filter_all. intros c Hc.
  apply in_join in Hc as [[<-|[]]|(w & Hw & Hc)].
  - unfold allowed. now rewrite orb_true_r.
  - unfold split in Hw.
    destruct (in_split_from _ _ _ _ Hw Hc) as [H|[]].
    rewrite Forall_forall in Hall. now apply Hall.
Qed.

(** X6. On a text all of whose characters are on the allow-list,
    [clean_text] only collapses whitespace: the output is the words of
    the text joined by single spaces, and holds no run of two or more
    whitespace characters. *)
Theorem clean_text_of_allowed_text :
  forall (unicode_alnum : char -> bool) (text : str),
    Forall (fun c => allowed unicode_alnum c = true) text ->
    clean_text unicode_alnum text = join (lit " ") (split text) /\
    has_space_run (clean_text unicode_alnum text) = false.
Proof.
  intros unicode_alnum text Hall.
  rewrite (clean_text_collapses unicode_alnum text Hall).
  split; [reflexivity|apply collapse_leaves_no_space_run].
Qed.

Lemma clean_text_of_allowed_text_witness :
  clean_text alnum (lit "Art. 1:   a  (b)")
    = join (lit " ") (split (lit "Art. 1:   a  (b)")) /\
  has_space_run (clean_text alnum (lit "Art. 1:   a  (b)")) = false.
Proof.
  apply (clean_text_of_allowed_text alnum).
  repeat constructor.
Defined.

Lemma split_from_word (w rest word : str) :
  Forall (fun c => isspace c = false) w ->
  split_from (w ++ rest) word = split_from rest (word ++ w).
Proof.
  intros H. revert word. induction H as [|c w Hc _ IH]; intros word.
  - now rewrite app_nil_r.
  - cbn [app split_from]. rewrite Hc, IH, <- app_assoc. reflexivity.
Qed.

(** Splitting what was joined by single spaces gives the words back. *)
Lemma split_join (words : list str) :
  Forall spaceless words -> split (join (lit " ") words) = words.
Proof.
  unfold split. induction 1 as [|w words [Hne Hw] _ IH]; [reflexivity|].
  cbn [join]. destruct words as [|w' words'].
  - replace (split_from w []) with (split_from (w ++ []) [])
      by now rewrite app_nil_r.
    rewrite split_from_word by exact Hw.
    cbn [app split_from]. destruct w; [congruence|reflexivity].
  - rewrite split_from_word by exact Hw. cbn [app].
    change (lit " " ++ join (lit " ") (w' :: words'))
      with (32%N :: join (lit " ") (w' :: words')).
    cbn [split_from]. change (isspace 32%N) with true. cbv iota.
    destruct w; [congruence|]. cbn [truthy]. now rewrite IH.
Qed.

(** X7. [clean_text] is stable from its second application on: what
    one application may leave behind (the run of spaces where a
    character was removed) the second one collapses, and a third
    changes nothing. *)
Theorem clean_text_twice_is_stable :
  forall (unicode_alnum : char -> bool) (text : str),
    let once := clean_text unicode_alnum text in
    let twice := clean_text unicode_alnum once in
    clean_text unicode_alnum twice = twice /\
    has_space_run twice = false.
Proof.
  intros unicode_alnum text once twice.
  assert (Hallowed : forall t,
             Forall (fun c => allowed unicode_alnum c = true)
                    (clean_text unicode_alnum t)).
  { intros t. unfold clean_text. apply Forall_forall. intros c Hc.
    now apply filter_In in Hc. }
  assert (E : twice = join (lit " ") (split once)).
  { apply clean_text_collapses. apply Hallowed. }
  split.
  - rewrite (clean_text_collapses unicode_alnum twice (Hallowed once)).
    rewrite E at 1. rewrite split_join; [now rewrite E|].
    apply split_from_spaceless. constructor.
  - rewrite E. apply collapse_leaves_no_space_run.
Qed.

(** ** load_law_texts *)





End TextMore.

(** * Further properties of the pipeline *)

Module RagMore.
Import Py Utils Rag More RagFacts ChunkerMore.

Section Loading.

Context {vec : Type}.

Local Abbreviation World := (Rag.World vec).
Local Abbreviation Env := (Rag.Env vec).

(** How [_load_encoder] ends. *)
Lemma load_encoder_outcome :
  forall (env : Env) (w : World),
    exists b w',
      _load_encoder env w = (Returns b, w') /\
      same_store w w' /\
      (forall e, encoder (self w) = Some e -> encoder (self w') = Some e) /\
      (b = false -> w' = w) /\
      (b = true -> encoder (self w') <> None /\
                   _load_encoder env w' = (Returns true, w')).
Proof.
  intros env w.
  unfold _load_encoder, construct, set_encoder, with_self, same_store.
  unfold_calls.
  destruct (SENTENCE_TRANSFORMERS_AVAILABLE env) eqn:Hav; cbn [negb].
  2:{ exists false, w. repeat split; auto; discriminate. }
  destruct (encoder (self w)) as [e|] eqn:He.
  - exists true, w. rewrite He.
    repeat split; auto; discriminate.
  - destruct (SentenceTransformer env (model_name (self w))) as [e|] eqn:H1;
      cbn [fst snd self model_name encoder].
    + eexists true, _. split; [reflexivity|]. cbn.
      repeat split; auto; discriminate.
    + destruct (SentenceTransformer env fallback_model) as [e|] eqn:H2;
        cbn [fst snd self model_name encoder].
      * eexists true, _. split; [reflexivity|]. cbn.
        repeat split; auto; discriminate.
      * exists false, w. repeat split; auto; discriminate.
Qed.

(** X10. [_load_encoder] raises nothing and touches nothing but the
    encoder. An encoder already loaded is kept as it is. When it returns
    [False] the pipeline is unchanged; when it returns [True] an encoder
    is in place and a further call returns [True] and changes nothing. *)
Theorem load_encoder_settles :
  forall (env : Env) (w : World),
    exists b w',
      _load_encoder env w = (Returns b, w') /\
      same_store w w' /\
      (forall e, encoder (self w) = Some e -> encoder (self w') = Some e) /\
      (b = false -> w' = w) /\
      (b = true -> encoder (self w') <> None /\
                   _load_encoder env w' = (Returns true, w')).
Proof. exact load_encoder_outcome. Qed.

(** How [_load_existing_index] ends, in full. *)
Lemma load_existing_outcome (env : Env) (ip cp : string) (w : World) :
  exists b w',
    _load_existing_index env ip cp w = (Returns b, w') /\
    dirs w' = dirs w /\ files w' = files w /\
    model_name (self w') = model_name (self w) /\
    match fst (_load_encoder env w), files w ip, files w cp with
    | Returns true, Some (FaissIndex v), Some (Pickle c m) =>
        b = true /\ index (self w') = Some v /\
        chunks (self w') = c /\ chunk_metadata (self w') = m /\
        encoder (self w') = encoder (self (snd (_load_encoder env w)))
    | Returns true, Some (FaissIndex v), Some (ChunksOnly c) =>
        b = false /\ index (self w') = Some v /\
        chunks (self w') = c /\
        chunk_metadata (self w') = chunk_metadata (self w)
    | Returns true, Some (FaissIndex v), _ =>
        b = false /\ index (self w') = Some v /\
        chunks (self w') = chunks (self w) /\
        chunk_metadata (self w') = chunk_metadata (self w)
    | Returns true, _, _ =>
        b = false /\ index (self w') = index (self w) /\
        chunks (self w') = chunks (self w) /\
        chunk_metadata (self w') = chunk_metadata (self w)
    | _, _, _ => b = false /\ w' = w
    end.
Proof.
  unfold _load_existing_index.
  destruct (load_encoder_outcome env w)
    as (b1 & w1 & He & (Hm & Hi & Hc & Hmd & Hd & Hf) & _ & Hfalse & _).
  unfold try_except at 1. unfold bind at 1. rewrite He. cbn [fst snd].
  destruct b1; cbn [negb].
  2:{ rewrite (Hfalse eq_refl). exists false, w. unfold ret. auto 10. }
  unfold read_index, load_pickle, subscript, set_index, set_chunks,
    set_chunk_metadata, with_self.
  unfold_calls. cbv beta iota. rewrite Hf.
  destruct (files w ip) as [[v|c m|c|]|] eqn:Hip; cbn;
    try (eexists false, _; split; [reflexivity|]; cbn; auto 10; fail).
  rewrite Hf.
  destruct (files w cp) as [[v'|c m|c|]|] eqn:Hcp; cbn;
    try (eexists false, _; split; [reflexivity|]; cbn; auto 10; fail).
  eexists true, _. split; [reflexivity|]. cbn. auto 10.
Qed.

(** X11. [_load_existing_index] raises nothing and writes nothing. It
    returns [True] exactly when an encoder can be had, the index file
    holds an index and the chunk file holds the chunk and metadata lists. *)
Theorem load_existing_index_succeeds_iff :
  forall (env : Env) (ip cp : string) (w : World),
    exists b w',
      _load_existing_index env ip cp w = (Returns b, w') /\
      dirs w' = dirs w /\ files w' = files w /\
      (b = true <->
       fst (_load_encoder env w) = Returns true /\
       (exists v, files w ip = Some (FaissIndex v)) /\
       (exists c m, files w cp = Some (Pickle c m))).
Proof.
  intros env ip cp w.
  destruct (load_existing_outcome env ip cp w)
    as (b & w' & Hrun & Hd & Hf & _ & H).
  exists b, w'. split; [exact Hrun|]. split; [exact Hd|]. split; [exact Hf|].
  destruct (fst (_load_encoder env w)) as [[|]| |];
    destruct (files w ip) as [[v|c m|c|]|];
    destruct (files w cp) as [[v'|c' m'|c'|]|];
    destruct H as [-> _];
    (split; [try discriminate; eauto 10
            |intros (H1 & (? & H2) & (? & ? & H3)); congruence || reflexivity]).
Qed.


End Loading.

Section Building.

Variable unicode_alnum : char -> bool.
Variable sample_legal_text : str.
Variable sample_reread : encoding -> read_result.
Context {vec : Type}.
Variable normalize_L2 : vec -> vec.

Local Abbreviation World := (Rag.World vec).
Local Abbreviation Env := (Rag.Env vec).
Local Abbreviation load_or_sample :=
  (Rag.load_or_sample sample_legal_text sample_reread).
Local Abbreviation sample_file :=
  (Rag.sample_file sample_legal_text sample_reread).
Local Abbreviation process_documents := (Rag.process_documents unicode_alnum).
Local Abbreviation rebuild :=
  (Rag.rebuild unicode_alnum sample_legal_text sample_reread normalize_L2).
Local Abbreviation build_index :=
  (Rag.build_index unicode_alnum sample_legal_text sample_reread normalize_L2).

(** The three ways through [build_index]. *)
Lemma build_index_cases (env : Env) (fuel : nat) (data_dir : string)
    (chunk_size overlap : Z) (force_rebuild : bool) (w : World)
    (r : outcome bool) (w' : World) :
  build_index env fuel data_dir chunk_size overlap force_rebuild w = (r, w') ->
  ((SENTENCE_TRANSFORMERS_AVAILABLE env = false \/ FAISS_AVAILABLE env = false) /\
   r = Returns false /\ w' = w) \/
  (SENTENCE_TRANSFORMERS_AVAILABLE env = true /\ FAISS_AVAILABLE env = true /\
   fast_path force_rebuild w = (Returns true, w) /\
   _load_existing_index env index_path chunks_path w = (r, w')) \/
  (SENTENCE_TRANSFORMERS_AVAILABLE env = true /\ FAISS_AVAILABLE env = true /\
   fast_path force_rebuild w = (Returns false, w) /\
   rebuild env fuel data_dir chunk_size overlap w = (r, w')).
Proof.
  unfold Rag.build_index.
  destruct (SENTENCE_TRANSFORMERS_AVAILABLE env); cbn [negb orb].
  2:{ intros [= <- <-]. left. auto. }
  destruct (FAISS_AVAILABLE env); cbn [negb].
  2:{ intros [= <- <-]. left. auto. }
  unfold bind at 1.
  destruct (fast_path_runs force_rebuild w) as (b & Hb). rewrite Hb.
  destruct b; intros H; right; [left|right]; auto.
Qed.

(** What a successful [build_index] leaves on the disk. *)
Lemma build_index_saved :
  forall (env : Env) (fuel : nat) (data_dir : string) (chunk_size overlap : Z)
         (force_rebuild : bool) (w w' : World),
    build_index env fuel data_dir chunk_size overlap force_rebuild w
      = (Returns true, w') ->
    exists vectors,
      index (self w') = Some vectors /\
      files w' index_path = Some (FaissIndex vectors) /\
      files w' chunks_path
        = Some (Pickle (chunks (self w')) (chunk_metadata (self w'))).
Proof.
  intros env fuel data_dir chunk_size overlap force_rebuild w w' H.
  apply build_index_cases in H
    as [(_ & [=] & _)|[(_ & _ & _ & H)|(_ & _ & _ & H)]].
  - destruct (load_existing_outcome env index_path chunks_path w)
      as (b & w0 & Hrun & _ & Hf & _ & Hm).
    rewrite H in Hrun. injection Hrun as <- <-. rewrite Hf.
    destruct (fst (_load_encoder env w)) as [[|]| |];
      destruct (files w index_path) as [[v|c m|c|]|];
      destruct (files w chunks_path) as [[v'|c' m'|c'|]|];
      destruct Hm as (Hb & Hm); try discriminate Hb.
    destruct Hm as (Hi & Hc & Hmd & _). exists v. now rewrite Hi, Hc, Hmd.
  - pose proof (sat_run _ _ _ _ _
                  (rebuild_spec unicode_alnum sample_legal_text sample_reread
                     normalize_L2 env fuel data_dir chunk_size overlap w) H)
      as (_ & _ & _ & _ & _ & Hbuilt).
    destruct (Hbuilt eq_refl) as (enc & vectors & docs & _ & Hi & _ & _ & Hfi & Hfc).
    exists vectors. auto.
Qed.

(** X13. After every successful [build_index], by either path, the disk
    holds what the pipeline holds: the index file is the live index and
    the chunk file is the live chunk and metadata lists. *)
Theorem build_index_disk_matches_memory :
  forall (env : Env) (fuel : nat) (data_dir : string) (chunk_size overlap : Z)
         (force_rebuild : bool) (w w' : World),
    build_index env fuel data_dir chunk_size overlap force_rebuild w
      = (Returns true, w') ->
    exists vectors,
      index (self w') = Some vectors /\
      files w' index_path = Some (FaissIndex vectors) /\
      files w' chunks_path
        = Some (Pickle (chunks (self w')) (chunk_metadata (self w'))).
Proof. exact build_index_saved. Qed.

(** X14. What a successful [build_index] saves, a new process loads
    back: on the disk it leaves, [build_index] without [force_rebuild] on
    a pipeline just constructed returns [True] as soon as an encoder can
    be loaded, and its index, chunks and metadata are those of the
    pipeline that saved them. *)
Theorem build_then_load_round_trip :
  forall (env : Env) (fuel : nat) (data_dir : string) (chunk_size overlap : Z)
         (force_rebuild : bool) (w w' : World),
    build_index env fuel data_dir chunk_size overlap force_rebuild w
      = (Returns true, w') ->
    forall (env2 : Env) (fuel2 : nat) (data_dir2 : string)
           (chunk_size2 overlap2 : Z) (name : string) (dirs2 : Dirs),
      SENTENCE_TRANSFORMERS_AVAILABLE env2 = true ->
      FAISS_AVAILABLE env2 = true ->
      SentenceTransformer env2 name <> None \/
      SentenceTransformer env2 fallback_model <> None ->
      exists w'',
        build_index env2 fuel2 data_dir2 chunk_size2 overlap2 false
                    {| self := init name; dirs := dirs2; files := files w' |}
          = (Returns true, w'') /\
        index (self w'') = index (self w') /\
        chunks (self w'') = chunks (self w') /\
        chunk_metadata (self w'') = chunk_metadata (self w').
Proof.
  intros env fuel data_dir chunk_size overlap force_rebuild w w' H
         env2 fuel2 data_dir2 chunk_size2 overlap2 name dirs2 Hst Hfa Hmodel.
  destruct (build_index_saved env fuel data_dir chunk_size
              overlap force_rebuild w w' H) as (vectors & Hi & Hfi & Hfc).
  set (w2 := {| self := init name; dirs := dirs2; files := files w' |}).
  assert (Henc : fst (_load_encoder env2 w2) = Returns true).
  { unfold _load_encoder, construct, set_encoder, with_self. unfold_calls.
    rewrite Hst. cbn.
    destruct (SentenceTransformer env2 name); [reflexivity|].
    destruct (SentenceTransformer env2 fallback_model); [reflexivity|].
    destruct Hmodel; congruence. }
  destruct (load_existing_outcome env2 index_path chunks_path w2)
    as (b & w'' & Hrun & _ & _ & _ & Hm).
  rewrite Henc in Hm. cbn [files w2] in Hm. rewrite Hfi, Hfc in Hm.
  destruct Hm as (-> & Hi2 & Hc2 & Hmd2 & _).
  exists w''. split.
  - unfold Rag.build_index. rewrite Hst, Hfa. cbn [negb orb].
    unfold fast_path, exists_. unfold bind at 1 2 3. unfold gets at 1 2.
    unfold ret at 1. cbn [files w2]. rewrite Hfi, Hfc. cbn. exact Hrun.
  - rewrite Hi. auto.
Qed.

(** ** An empty corpus *)





End Building.

(** ** Termination *)

Section Termination.

Variable unicode_alnum : char -> bool.
Variable sample_legal_text : str.
Variable sample_reread : encoding -> read_result.
Context {vec : Type}.
Variable normalize_L2 : vec -> vec.

Local Abbreviation World := (Rag.World vec).
Local Abbreviation Env := (Rag.Env vec).
Local Abbreviation load_or_sample :=
  (Rag.load_or_sample sample_legal_text sample_reread).
Local Abbreviation process_documents := (Rag.process_documents unicode_alnum).
Local Abbreviation build_faiss := (Rag.build_faiss normalize_L2).
Local Abbreviation rebuild :=
  (Rag.rebuild unicode_alnum sample_legal_text sample_reread normalize_L2).
Local Abbreviation build_index :=
  (Rag.build_index unicode_alnum sample_legal_text sample_reread normalize_L2).

Lemma for_each_ends {S A} (body : A -> M S unit) (xs : list A) :
  (forall x s, In x xs -> fst (body x s) <> Hangs) ->
  forall s, fst (for_each xs body s) <> Hangs.
Proof.
  induction xs as [|x xs IH]; intros Hbody s; cbn [for_each].
  - discriminate.
  - unfold bind. pose proof (Hbody x s (or_introl eq_refl)) as Hx.
    destruct (body x s) as [[[]| |] s1]; cbn in *;
      [|discriminate|congruence].
    apply IH. intros y s0 Hy. apply Hbody. now right.
Qed.

Lemma process_documents_ends (fuel : nat) (docs : list (string * str))
    (chunk_size overlap : Z) (w : World) :
  Forall (fun d => exists c,
            split_text fuel (clean_text unicode_alnum (snd d)) chunk_size overlap
            = Some c) docs ->
  fst (process_documents fuel docs chunk_size overlap w) <> Hangs.
Proof.
  intros H. unfold Rag.process_documents. apply for_each_ends.
  intros [filename content] s Hin. rewrite Forall_forall in H.
  destruct (H _ Hin) as (c & Hc). cbn [fst snd] in *. rewrite Hc.
  unfold bind at 1. unfold ret at 1.
  apply for_each_ends. intros [i ch] s1 _.
  unfold set_chunks, set_chunk_metadata, with_self. unfold_calls. cbn.
  discriminate.
Qed.

Lemma rebuild_ends (env : Env) (fuel : nat) (data_dir : string)
    (chunk_size overlap : Z) (w : World) :
  (forall docs,
      fst (load_or_sample (corpus_read_only env) data_dir (dirs w))
        = Returns docs ->
      Forall (fun d => exists c,
                split_text fuel (clean_text unicode_alnum (snd d))
                           chunk_size overlap = Some c) docs) ->
  fst (rebuild env fuel data_dir chunk_size overlap w) <> Hangs.
Proof.
  intros Hfuel.
  change (sat (rebuild env fuel data_dir chunk_size overlap) w
              (fun r _ => r <> Hangs)).
  unfold Rag.rebuild. apply sat_bind.
  destruct (load_encoder_outcome env w)
    as (b & w1 & He & (_ & _ & _ & _ & Hd1 & _) & _).
  unfold sat at 1. rewrite He. cbn [fst snd].
  destruct b; cbn [negb]; [|apply sat_ret; discriminate].
  apply sat_bind. unfold in_dirs, zoom. unfold sat at 1. rewrite Hd1.
  pose proof (load_or_sample_runs sample_legal_text sample_reread
                (corpus_read_only env) data_dir (dirs w)) as Hcorpus.
  specialize (Hfuel).
  destruct (load_or_sample (corpus_read_only env) data_dir (dirs w))
    as [[docs| |] d'] eqn:Hdocs; cbn [fst snd] in *;
    [|discriminate|contradiction].
  unfold set_chunks at 1, set_chunk_metadata at 1, with_self.
  apply sat_modify, sat_modify. apply sat_bind.
  match goal with
  | |- sat (Rag.process_documents _ _ _ _ _) ?s _ =>
      pose proof (process_documents_ends fuel docs chunk_size overlap s
                    (Hfuel docs eq_refl)) as Hp;
      unfold sat at 1;
      destruct (process_documents fuel docs chunk_size overlap s)
        as [[[]| |] w2]; cbn [fst snd] in *; [|discriminate|congruence]
  end.
  apply sat_bind, sat_try, sat_bind.
  unfold embed_chunks, encode. unfold sat at 1. unfold bind, gets.
  destruct (encoder (self w2)) as [enc|]; unfold raise, ret; cbn [fst snd];
    [|apply sat_ret; discriminate].
  destruct (crashes enc (chunks (self w2))); cbn [fst snd];
    [apply sat_ret, sat_ret; discriminate|].
  apply sat_ret. apply sat_bind, sat_try, sat_bind.
  eapply sat_weaken; [apply (build_faiss_spec normalize_L2)|].
  intros r3 w3 (_ & H3).
  destruct r3 as [[]| |];
    [|apply sat_ret; cbn [negb]; apply sat_ret; discriminate|contradiction].
  apply sat_ret. cbn [negb]. apply sat_try.
  eapply sat_weaken; [apply save_spec|].
  intros r4 w4 (_ & _ & H4).
  destruct r4 as [b| |]; [discriminate|apply sat_ret; discriminate|contradiction].
Qed.

(** With enough passes for the chunker on the documents of [data_dir],
    [build_index] ends. *)
Lemma build_index_ends_aux :
  forall (env : Env) (data_dir : string) (chunk_size overlap : Z)
         (force_rebuild : bool) (w : World),
    0 <= overlap -> overlap < chunk_size -> overlap <= chunk_size / 2 + 1 ->
    exists fuel0,
      forall fuel, (fuel0 <= fuel)%nat ->
        fst (build_index env fuel data_dir chunk_size overlap force_rebuild w)
          <> Hangs /\
        (corpus_read_only env = false ->
         exists b,
           fst (build_index env fuel data_dir chunk_size overlap force_rebuild w)
           = Returns b).
Proof.
  intros env data_dir chunk_size overlap force_rebuild w H0 H1 H2.
  set (docs0 := match fst (load_or_sample (corpus_read_only env) data_dir (dirs w))
                with Returns docs => docs | _ => [] end).
  exists (list_max (map (fun d => length (clean_text unicode_alnum (snd d))) docs0)).
  intros fuel Hfuel.
  assert (Hends : fst (build_index env fuel data_dir chunk_size overlap
                         force_rebuild w) <> Hangs).
  { destruct (build_index env fuel data_dir chunk_size overlap force_rebuild w)
      as [r w'] eqn:Hrun. cbn [fst].
    apply (build_index_cases unicode_alnum sample_legal_text sample_reread
             normalize_L2) in Hrun
      as [(_ & -> & _)|[(_ & _ & _ & H)|(_ & _ & _ & H)]]; [discriminate| |].
    - destruct (load_existing_outcome env index_path chunks_path w)
        as (b & w0 & Hl & _). rewrite H in Hl. injection Hl as -> _.
      discriminate.
    - pose proof (rebuild_ends env fuel data_dir chunk_size overlap w) as Hr.
      rewrite H in Hr. apply Hr. intros docs Hdocs.
      unfold docs0 in Hfuel. rewrite Hdocs in Hfuel.
      apply list_max_le in Hfuel. rewrite Forall_map in Hfuel.
      eapply Forall_impl; [|exact Hfuel]. cbn. intros d Hd.
      apply split_text_ends; auto. unfold len. lia. }
  split; [exact Hends|]. intros Hro.
  destruct (build_index env fuel data_dir chunk_size overlap force_rebuild w)
    as [r w'] eqn:Hrun. cbn [fst] in *.
  pose proof (sat_run _ _ _ _ _
                (build_index_spec unicode_alnum sample_legal_text sample_reread
                   normalize_L2 env fuel data_dir chunk_size overlap
                   force_rebuild w) Hrun) as (_ & Hfast & Hslow).
  destruct r as [b| |]; [eauto| |congruence].
  exfalso.
  destruct (fast_path_runs force_rebuild w) as ([|] & Hb).
  - exact (Hfast Hb).
  - destruct (Hslow Hb) as (Hnr & _). now apply Hnr.
Qed.


(** X16. With [0 <= overlap < chunk_size] and [overlap] at most
    [chunk_size // 2 + 1] (as with the defaults 1000 and 200),
    [build_index] ends on every pipeline and every disk: the chunker
    returns on each document, and no other step loops. Where the corpus
    directory can be written it returns a Boolean. *)
Theorem build_index_ends :
  forall (env : Env) (data_dir : string) (chunk_size overlap : Z)
         (force_rebuild : bool) (w : World),
    0 <= overlap -> overlap < chunk_size -> overlap <= chunk_size / 2 + 1 ->
    exists fuel0,
      forall fuel, (fuel0 <= fuel)%nat ->
        fst (build_index env fuel data_dir chunk_size overlap force_rebuild w)
          <> Hangs /\
        (corpus_read_only env = false ->
         exists b,
           fst (build_index env fuel data_dir chunk_size overlap force_rebuild w)
           = Returns b).
Proof. exact build_index_ends_aux. Qed.

End Termination.

(** ** search_law *)

Section Searching.

Context {vec score : Type}.
Variable normalize_L2 : vec -> vec.
Variable inner_product : vec -> vec -> score.
Variable score_leb : score -> score -> bool.
Variable lowest_score : score.

Local Abbreviation World := (Rag.World vec).
Local Abbreviation search_law :=
  (Rag.search_law normalize_L2 inner_product score_leb lowest_score).
Local Abbreviation ranked := (Rag.ranked inner_product score_leb).

(** The row of [k] hits that the index returns. *)
Local Abbreviation row vectors q k :=
  (firstn (Z.to_nat k) (ranked vectors q)
   ++ repeat (-1, lowest_score)
        (Z.to_nat k - length (firstn (Z.to_nat k) (ranked vectors q)))).

(** The loop over the hits appends one result for each hit whose label
    is below the number of chunks, in the order of the hits. *)
Lemma collect_spec (p : RAGPipeline vec) :
  forall (hits : list (Z * (Z * score)))
         (results results' : list (SearchResult score)),
    collect p hits results = Some results' ->
    exists new,
      results' = results ++ new /\
      Forall2 (result_of p)
              (filter (fun h => fst (snd h) <? len (chunks p)) hits) new.
Proof.
  induction hits as [|[i [idx sc]] rest IH]; intros results results' H;
    cbn [collect] in H.
  - injection H as <-. exists []. split; [now rewrite app_nil_r|constructor].
  - cbn [filter fst snd]. destruct (idx <? len (chunks p)) eqn:E.
    + destruct (item (chunks p) idx) as [c|] eqn:Hc; [|discriminate].
      destruct (item (chunk_metadata p) idx) as [m|] eqn:Hm; [|discriminate].
      apply IH in H as (new & -> & HF).
      exists ({| chunk := c; metadata := m; score_of := sc; rank := i + 1 |}
              :: new).
      split; [now rewrite <- app_assoc|].
      constructor; [|exact HF]. unfold result_of; cbn. auto.
    + apply IH in H. exact H.
Qed.

(** The two ways through [search_law]. *)
Lemma search_law_cases (w : World) (query : str) (k : Z) :
  search_law query k w = (Returns [], w) \/
  exists enc vectors results,
    index (self w) = Some vectors /\ encoder (self w) = Some enc /\
    0 < k /\
    collect (self w)
            (enumerate (row vectors (normalize_L2 (embed enc query)) k)) []
      = Some results /\
    search_law query k w = (Returns results, w).
Proof.
  unfold Rag.search_law. unfold_calls.
  destruct (index (self w)) as [vectors|]; [|now left].
  destruct (encoder (self w)) as [enc|]; [|now left].
  unfold encode. destruct (crashes enc [query]); [now left|]. cbn [map].
  unfold faiss_search. destruct (k <=? 0) eqn:Hk; [now left|].
  apply Z.leb_gt in Hk.
  destruct (collect (self w) _ []) as [results|] eqn:Hc; [|now left].
  right. exists enc, vectors, results. auto.
Qed.

Lemma sorted_filter {A} (R : A -> A -> Prop) (f : A -> bool) (l : list A) :
  StronglySorted R l -> StronglySorted R (filter f l).
Proof.
  induction 1 as [|a l Hl IH Ha]; cbn [filter]; [constructor|].
  destruct (f a); [|exact IH]. constructor; [exact IH|].
  apply Forall_forall. intros x Hx. apply filter_In in Hx as [Hx _].
  rewrite Forall_forall in Ha. auto.
Qed.

Lemma sorted_map {A B} (R : B -> B -> Prop) (f : A -> B) (l : list A) :
  StronglySorted (fun a b => R (f a) (f b)) l -> StronglySorted R (map f l).
Proof.
  induction 1 as [|a l Hl IH Ha]; cbn [map]; constructor; [exact IH|].
  apply Forall_map. exact Ha.
Qed.

Lemma sorted_firstn {A} (R : A -> A -> Prop) (n : nat) (l : list A) :
  StronglySorted R l -> StronglySorted R (firstn n l).
Proof.
  intros H. revert n. induction H as [|a l Hl IH Ha]; intros [|n];
    cbn [firstn]; try constructor; [apply IH|].
  apply Forall_forall. intros x Hx. rewrite Forall_forall in Ha. apply Ha.
  rewrite <- (firstn_skipn n l). apply in_or_app. now left.
Qed.

Lemma enumerate_places_sorted {A} (xs : list A) :
  forall k, StronglySorted (fun a b => fst a < fst b) (enumerate_from k xs).
Proof.
  induction xs as [|x xs IH]; intros k; cbn [enumerate_from]; constructor.
  - apply IH.
  - eapply Forall_impl; [|apply (enumerate_from_labels xs (k + 1))].
    cbn. intros h. lia.
Qed.

Lemma enumerate_values_sorted {A} (R : A -> A -> Prop) (xs : list A) :
  StronglySorted R xs ->
  forall k, StronglySorted (fun a b => R (snd a) (snd b)) (enumerate_from k xs).
Proof.
  induction 1 as [|x xs Hxs IH Hx]; intros k; cbn [enumerate_from];
    constructor; [apply IH|].
  apply (enumerate_from_snd (R x) xs Hx).
Qed.

Lemma results_ranks (p : RAGPipeline vec) hits (new : list (SearchResult score)) :
  Forall2 (result_of p) hits new ->
  map rank new = map (fun h => fst h + 1) hits /\
  map score_of new = map (fun h => snd (snd h)) hits.
Proof.
  induction 1 as [|h r hits new (_ & _ & Hs & Hr) _ [IH1 IH2]];
    cbn [map]; [auto|]. now rewrite Hr, Hs, IH1, IH2.
Qed.

Lemma row_length (vectors : list vec) (q : vec) (k : Z) :
  length (row vectors q k) = Z.to_nat k.
Proof.
  rewrite length_app, repeat_length.
  pose proof (firstn_le_length (Z.to_nat k) (ranked vectors q)). lia.
Qed.

(** How [search_law] ends, and what its results are made of. *)
Lemma search_law_outcome (w : World) (query : str) (k : Z) :
  exists results,
    search_law query k w = (Returns results, w) /\
    len results <= Z.max 0 k /\
    StronglySorted Z.lt (map rank results) /\
    Forall (fun r =>
              1 <= rank r <= k /\
              exists idx,
                idx < len (chunks (self w)) /\
                item (chunks (self w)) idx = Some (chunk r) /\
                item (chunk_metadata (self w)) idx = Some (metadata r))
           results.
Proof.
  destruct (search_law_cases w query k)
    as [H|(enc & vectors & results & _ & _ & Hk & Hc & H)].
  { exists []. split; [exact H|]. split; [unfold len; cbn; lia|].
    split; constructor. }
  exists results. split; [exact H|].
  apply collect_spec in Hc as (new & Hres & HF). cbn [app] in Hres. subst new.
  set (hits := enumerate (row vectors (normalize_L2 (embed enc query)) k)) in *.
  set (taken := filter (fun h => fst (snd h) <? len (chunks (self w))) hits) in *.
  assert (Hlen : length hits = Z.to_nat k).
  { unfold hits, enumerate. now rewrite enumerate_from_length, row_length. }
  assert (Hplaces : Forall (fun h => 0 <= fst h < k) hits).
  { eapply Forall_impl; [|apply enumerate_from_labels]. cbn. intros h.
    unfold len. rewrite row_length. lia. }
  destruct (results_ranks _ _ _ HF) as [Hranks _].
  split; [|split].
  - unfold len. rewrite <- (Forall2_length HF).
    pose proof (filter_length_le (fun h => fst (snd h) <? len (chunks (self w)))
                  hits).
    fold taken in H0. lia.
  - rewrite Hranks. apply sorted_map. apply sorted_filter.
    eapply StronglySorted_ind with (l := hits)
      (P := StronglySorted (fun a b => fst a + 1 < fst b + 1));
      [constructor| |apply enumerate_places_sorted].
    intros a l _ IH Ha. constructor; [exact IH|].
    eapply Forall_impl; [|exact Ha]. cbn. intros; lia.
  - assert (Htaken : Forall (fun h => (0 <= fst h < k) /\
                                      fst (snd h) < len (chunks (self w)))
                            taken).
    { apply Forall_forall. intros h Hh. apply filter_In in Hh as [Hh Hlt].
      rewrite Forall_forall in Hplaces. split; [auto|now apply Z.ltb_lt]. }
    clear - HF Htaken. induction HF as [|h r hs rs (Hc & Hm & _ & Hr) _ IH];
      constructor.
    + inversion Htaken as [|? ? [Hp Hl] _]; subst.
      split; [lia|]. exists (fst (snd h)). auto.
    + apply IH. now inversion Htaken.
Qed.

(** X17. [search_law] always returns, with the pipeline and the disk as
    they were, at most [k] results. Their ranks increase strictly and
    lie between 1 and [k], and the chunk and the metadata record of a
    result stand at one and the same position of the two lists. *)
Theorem search_law_results :
  forall (w : World) (query : str) (k : Z),
    exists results,
      search_law query k w = (Returns results, w) /\
      len results <= Z.max 0 k /\
      StronglySorted Z.lt (map rank results) /\
      Forall (fun r =>
                1 <= rank r <= k /\
                exists idx,
                  idx < len (chunks (self w)) /\
                  item (chunks (self w)) idx = Some (chunk r) /\
                  item (chunk_metadata (self w)) idx = Some (metadata r))
             results.
Proof. exact search_law_outcome. Qed.

(** X18. For [k <= 0] the search of the index raises, and [search_law]
    returns the empty list, on every pipeline. *)
Theorem search_law_nonpositive_k :
  forall (w : World) (query : str) (k : Z),
    k <= 0 -> search_law query k w = (Returns [], w).
Proof.
  intros w query k Hk.
  destruct (search_law_cases w query k) as [H|(? & ? & ? & _ & _ & H & _)];
    [exact H|lia].
Qed.

(** *** The order of the scores *)

Lemma insert_hit_sorted (h : Z * score) :
  (forall a b, score_leb a b = true \/ score_leb b a = true) ->
  (forall a b c, score_leb a b = true -> score_leb b c = true ->
                 score_leb a c = true) ->
  forall hits,
    StronglySorted (fun a b => not_above score_leb (snd a) (snd b)) hits ->
    StronglySorted (fun a b => not_above score_leb (snd a) (snd b))
                   (insert_hit score_leb h hits).
Proof.
  intros Htotal Htrans. induction 1 as [|h' rest Hrest IH Hh']; cbn [insert_hit].
  - constructor; constructor.
  - destruct (score_leb (snd h') (snd h)) eqn:E.
    + constructor; [now constructor|]. constructor; [exact E|].
      eapply Forall_impl; [|exact Hh']. unfold not_above. cbn. eauto.
    + constructor; [exact IH|].
      apply (insert_hit_spec score_leb
               (fun x => not_above score_leb (snd h') (snd x)) h rest);
        [|exact Hh'].
      unfold not_above. destruct (Htotal (snd h) (snd h')); congruence.
Qed.

Lemma ranked_sorted (vectors : list vec) (q : vec) :
  (forall a b, score_leb a b = true \/ score_leb b a = true) ->
  (forall a b c, score_leb a b = true -> score_leb b c = true ->
                 score_leb a c = true) ->
  StronglySorted (fun a b => not_above score_leb (snd a) (snd b))
                 (ranked vectors q) /\
  Forall (fun h => exists v, In v vectors /\ snd h = inner_product q v)
         (ranked vectors q).
Proof.
  intros Htotal Htrans. unfold Rag.ranked. split.
  - induction (map _ (enumerate vectors)) as [|h hs IH]; cbn [fold_right];
      [constructor|]. now apply insert_hit_sorted.
  - apply sorted_hits_spec. apply Forall_map. cbn [snd].
    unfold enumerate. generalize 0. induction vectors as [|v vs IH]; intros n;
      cbn [enumerate_from]; constructor.
    + exists v. split; [now left|reflexivity].
    + eapply Forall_impl; [|apply IH]. cbn. intros h (v' & Hv' & E).
      exists v'. split; [now right|exact E].
Qed.

Lemma row_sorted (vectors : list vec) (q : vec) (k : Z) :
  (forall a b, score_leb a b = true \/ score_leb b a = true) ->
  (forall a b c, score_leb a b = true -> score_leb b c = true ->
                 score_leb a c = true) ->
  (forall v, In v vectors -> score_leb lowest_score (inner_product q v) = true) ->
  StronglySorted (fun a b => not_above score_leb (snd a) (snd b))
                 (row vectors q k).
Proof.
  intros Htotal Htrans Hlow.
  destruct (ranked_sorted vectors q Htotal Htrans) as [Hs Hv].
  assert (Hpad : forall n,
             StronglySorted (fun a b : Z * score => not_above score_leb (snd a) (snd b))
                            (repeat (-1, lowest_score) n)).
  { induction n as [|n IH]; cbn [repeat]; constructor; [exact IH|].
    apply Forall_forall. intros x Hx. apply repeat_spec in Hx. subst x.
    unfold not_above. cbn. destruct (Htotal lowest_score lowest_score); auto. }
  assert (Htop : Forall (fun h => score_leb lowest_score (snd h) = true)
                        (firstn (Z.to_nat k) (ranked vectors q))).
  { apply Forall_forall. intros h Hh.
    assert (Hin : In h (ranked vectors q)).
    { rewrite <- (firstn_skipn (Z.to_nat k) (ranked vectors q)).
      apply in_or_app. now left. }
    rewrite Forall_forall in Hv. destruct (Hv h Hin) as (v & Hin' & ->). auto. }
  pose proof (sorted_firstn _ (Z.to_nat k) _ Hs) as Hf.
  generalize (Z.to_nat k - length (firstn (Z.to_nat k) (ranked vectors q)))%nat.
  intros n.
  induction Hf as [|a l Hl IH Ha]; cbn [app]; [apply Hpad|].
  inversion Htop as [|? ? Hlow_a Htop']; subst.
  constructor; [apply IH; exact Htop'|].
  apply Forall_app. split; [exact Ha|].
  apply Forall_forall. intros x Hx. apply repeat_spec in Hx. subst x.
  exact Hlow_a.
Qed.

(** X19. Where the comparison of scores is a total preorder and no
    stored vector scores below the filler score of the index, the
    results of [search_law] come in descending order of score. *)
Theorem search_law_scores_descend :
  forall (w : World) (query : str) (k : Z)
         (results : list (SearchResult score)),
    (forall a b, score_leb a b = true \/ score_leb b a = true) ->
    (forall a b c, score_leb a b = true -> score_leb b c = true ->
                   score_leb a c = true) ->
    (forall enc vectors v,
        encoder (self w) = Some enc -> index (self w) = Some vectors ->
        In v vectors ->
        score_leb lowest_score
          (inner_product (normalize_L2 (embed enc query)) v) = true) ->
    search_law query k w = (Returns results, w) ->
    StronglySorted (not_above score_leb) (map score_of results).
Proof.
  intros w query k results Htotal Htrans Hlow Hrun.
  destruct (search_law_cases w query k)
    as [H|(enc & vectors & results' & Hi & He & Hk & Hc & H)];
    rewrite H in Hrun; injection Hrun as <-; [constructor|].
  apply collect_spec in Hc as (new & Hres & HF). cbn [app] in Hres. subst new.
  destruct (results_ranks _ _ _ HF) as [_ ->].
  apply sorted_map. apply sorted_filter.
  apply (enumerate_values_sorted
           (fun a b : Z * score => not_above score_leb (snd a) (snd b))).
  apply row_sorted; auto. intros v Hv. exact (Hlow enc vectors v He Hi Hv).
Qed.

(** *** What a search reads *)

Lemma collect_reads (p1 p2 : RAGPipeline vec) :
  chunks p1 = chunks p2 -> chunk_metadata p1 = chunk_metadata p2 ->
  forall (hits : list (Z * (Z * score))) results,
    collect p1 hits results = collect p2 hits results.
Proof.
  intros Hc Hm. induction hits as [|[i [idx sc]] rest IH]; intros results;
    cbn [collect]; [reflexivity|].
  rewrite Hc, Hm.
  destruct (idx <? len (chunks p2)); [|apply IH].
  destruct (item (chunks p2) idx); [|reflexivity].
  destruct (item (chunk_metadata p2) idx); [apply IH|reflexivity].
Qed.

(** X20. The results of [search_law] depend on the encoder, the index,
    the chunk list and the metadata list of the pipeline and on nothing
    else: neither the model name nor anything on the disk is read. *)
Theorem search_law_reads_four_attributes :
  forall (w1 w2 : World) (query : str) (k : Z),
    encoder (self w1) = encoder (self w2) ->
    index (self w1) = index (self w2) ->
    chunks (self w1) = chunks (self w2) ->
    chunk_metadata (self w1) = chunk_metadata (self w2) ->
    fst (search_law query k w1) = fst (search_law query k w2).
Proof.
  intros w1 w2 query k He Hi Hc Hm.
  unfold Rag.search_law. unfold_calls. rewrite He, Hi.
  destruct (index (self w2)) as [vectors|]; [|reflexivity].
  destruct (encoder (self w2)) as [enc|]; [|reflexivity].
  destruct (encode enc [query]) as [[|q qs]|]; cbn [map]; try reflexivity.
  destruct (faiss_search inner_product score_leb lowest_score vectors
              (normalize_L2 q) k) as [hits|]; [|reflexivity].
  rewrite (collect_reads (self w1) (self w2) Hc Hm).
  destruct (collect (self w2) (enumerate hits) []); reflexivity.
Qed.

End Searching.

(** ** What a rebuild indexes *)

Section Indexing.

Variable unicode_alnum : char -> bool.
Variable sample_legal_text : str.
Variable sample_reread : encoding -> read_result.
Context {vec : Type}.
Variable normalize_L2 : vec -> vec.

Local Abbreviation World := (Rag.World vec).
Local Abbreviation Env := (Rag.Env vec).
Local Abbreviation load_or_sample :=
  (Rag.load_or_sample sample_legal_text sample_reread).
Local Abbreviation process_documents := (Rag.process_documents unicode_alnum).
Local Abbreviation rebuild :=
  (Rag.rebuild unicode_alnum sample_legal_text sample_reread normalize_L2).
Local Abbreviation build_index :=
  (Rag.build_index unicode_alnum sample_legal_text sample_reread normalize_L2).
Local Abbreviation chunks_of fuel chunk_size overlap :=
  (fun (d : string * str) (cs : list str) =>
     split_text fuel (clean_text unicode_alnum (snd d)) chunk_size overlap
     = Some cs).
Local Abbreviation records docs per_doc :=
  (concat (map (fun dc : (string * str) * list str =>
                  records_of (fst (fst dc)) (snd dc))
               (combine docs per_doc))).

(** The inner loop appends the chunks of the document and their
    records, in order. *)
Lemma inner_loop_appends (filename : string) (n : Z) (cs : list str) :
  forall (k : Z) (w : World),
    exists w',
      for_each (enumerate_from k cs)
        (fun ic =>
           p <- gets self ;;
           set_chunks (chunks p ++ [snd ic]) ;;
           p <- gets self ;;
           set_chunk_metadata
             (chunk_metadata p ++
                [{| source := filename; chunk_id := fst ic;
                    total_chunks := n; char_count := len (snd ic) |}])) w
      = (Returns tt, w') /\
      chunks (self w') = chunks (self w) ++ cs /\
      chunk_metadata (self w')
      = chunk_metadata (self w)
        ++ map (fun ic => {| source := filename; chunk_id := fst ic;
                             total_chunks := n; char_count := len (snd ic) |})
               (enumerate_from k cs).
Proof.
  induction cs as [|c cs IH]; intros k w; cbn [enumerate_from for_each map].
  - exists w. now rewrite !app_nil_r.
  - unfold bind at 1.
    unfold set_chunks at 1, set_chunk_metadata at 1, with_self.
    unfold bind at 1 2 3. unfold gets at 1 2. unfold modify at 1 2.
    cbn [self chunks chunk_metadata fst snd].
    match goal with
    | |- exists w', for_each _ _ ?s = _ /\ _ =>
        destruct (IH (k + 1) s) as (w' & Hrun & Hc & Hm)
    end.
    exists w'. split; [exact Hrun|]. rewrite Hc, Hm. cbn.
    now rewrite <- !app_assoc.
Qed.

Lemma process_documents_result (fuel : nat) (chunk_size overlap : Z) :
  forall (docs : list (string * str)) (w w' : World),
    process_documents fuel docs chunk_size overlap w = (Returns tt, w') ->
    exists per_doc,
      Forall2 (chunks_of fuel chunk_size overlap) docs per_doc /\
      chunks (self w') = chunks (self w) ++ concat per_doc /\
      chunk_metadata (self w') = chunk_metadata (self w) ++ records docs per_doc.
Proof.
  unfold Rag.process_documents.
  induction docs as [|[filename content] docs IH]; intros w w' Hrun;
    cbn [for_each] in Hrun.
  - injection Hrun as <-. exists []. cbn. now rewrite !app_nil_r.
  - unfold bind at 1 in Hrun. cbn [fst snd] in Hrun.
    destruct (split_text fuel (clean_text unicode_alnum content) chunk_size overlap)
      as [cs|] eqn:Hsplit; [|discriminate Hrun].
    unfold bind at 1 in Hrun. unfold ret at 1 in Hrun.
    destruct (inner_loop_appends filename (len cs) cs 0 w)
      as (w1 & Hinner & Hc1 & Hm1).
    unfold enumerate in Hrun. rewrite Hinner in Hrun.
    apply IH in Hrun as (per_doc & HF & Hc & Hm).
    exists (cs :: per_doc). split; [constructor; [exact Hsplit|exact HF]|].
    rewrite Hc, Hm, Hc1, Hm1. cbn [concat combine map fst snd].
    unfold records_of, enumerate. now rewrite <- !app_assoc.
Qed.

(** What a successful rebuild indexes. *)
Lemma rebuild_result (env : Env) (fuel : nat) (data_dir : string)
    (chunk_size overlap : Z) (w : World) :
  sat (rebuild env fuel data_dir chunk_size overlap) w
      (fun r w' =>
         r = Returns true ->
         exists docs per_doc enc,
           fst (load_or_sample (corpus_read_only env) data_dir (dirs w))
             = Returns docs /\
           Forall2 (chunks_of fuel chunk_size overlap) docs per_doc /\
           chunks (self w') = concat per_doc /\
           chunk_metadata (self w') = records docs per_doc /\
           encoder (self w') = Some enc /\
           index (self w')
             = Some (map (fun c => normalize_L2 (embed enc c)) (concat per_doc))).
Proof.
  unfold Rag.rebuild. apply sat_bind.
  destruct (load_encoder_outcome env w)
    as (b & w1 & He & (_ & _ & _ & _ & Hd1 & _) & _).
  unfold sat at 1. rewrite He. cbn [fst snd].
  destruct b; cbn [negb]; [|apply sat_ret; discriminate].
  apply sat_bind. unfold in_dirs, zoom. unfold sat at 1. rewrite Hd1.
  destruct (load_or_sample (corpus_read_only env) data_dir (dirs w))
    as [[docs| |] d'] eqn:Hdocs; cbn [fst snd] in *; try discriminate.
  unfold set_chunks at 1, set_chunk_metadata at 1, with_self.
  apply sat_modify, sat_modify. apply sat_bind.
  match goal with
  | |- sat (Rag.process_documents _ _ _ _ _) ?s _ =>
      unfold sat at 1;
      destruct (process_documents fuel docs chunk_size overlap s)
        as [[[]| |] w2] eqn:Hp; cbn [fst snd]; try discriminate;
      apply process_documents_result in Hp as (per_doc & HF & Hc2 & Hm2)
  end.
  cbn [self chunks chunk_metadata app] in Hc2, Hm2.
  apply sat_bind, sat_try, sat_bind.
  unfold embed_chunks, encode. unfold sat at 1. unfold bind, gets.
  destruct (encoder (self w2)) as [enc|] eqn:He2; unfold raise, ret;
    cbn [fst snd]; [|apply sat_ret; discriminate].
  destruct (crashes enc (chunks (self w2))); cbn [fst snd];
    [apply sat_ret, sat_ret; discriminate|].
  apply sat_ret. apply sat_bind, sat_try, sat_bind.
  eapply sat_weaken; [apply (build_faiss_spec normalize_L2)|].
  intros r3 w3 ((_ & He3 & Hc3 & Hm3 & _) & H3).
  destruct r3 as [[]| |];
    [|apply sat_ret; cbn [negb]; apply sat_ret; discriminate|contradiction].
  destruct H3 as [_ Hi3].
  apply sat_ret. cbn [negb]. apply sat_try.
  eapply sat_weaken; [apply save_spec|].
  intros r4 w4 (Hs4 & _ & H4).
  destruct r4 as [b| |]; [|apply sat_ret; discriminate|contradiction].
  intros _. exists docs, per_doc, enc. rewrite Hs4, Hc3, Hm3, He3, Hi3.
  split; [reflexivity|]. split; [exact HF|].
  split; [exact Hc2|]. split; [exact Hm2|]. split; [exact He2|].
  now rewrite map_map, Hc2.
Qed.

(** X21. A forced [build_index] that returns [True] has indexed every
    chunk of every document of the corpus, once and in order: the chunk
    list is the concatenation of the chunk lists that [split_text]
    gives for the cleaned documents, the metadata list holds their
    records with [chunk_id] counting from 0 within each document, and
    the index holds the normalised embedding of each chunk. *)
Theorem build_index_indexes_every_chunk :
  forall (env : Env) (fuel : nat) (data_dir : string) (chunk_size overlap : Z)
         (w w' : World),
    build_index env fuel data_dir chunk_size overlap true w = (Returns true, w') ->
    exists docs per_doc enc,
      fst (load_or_sample (corpus_read_only env) data_dir (dirs w))
        = Returns docs /\
      Forall2 (chunks_of fuel chunk_size overlap) docs per_doc /\
      chunks (self w') = concat per_doc /\
      chunk_metadata (self w') = records docs per_doc /\
      encoder (self w') = Some enc /\
      index (self w')
        = Some (map (fun c => normalize_L2 (embed enc c)) (concat per_doc)).
Proof.
  intros env fuel data_dir chunk_size overlap w w' H.
  apply (build_index_cases unicode_alnum sample_legal_text sample_reread
           normalize_L2) in H
    as [(_ & [=] & _)|[(_ & _ & Hfast & _)|(_ & _ & _ & H)]].
  { unfold fast_path, exists_ in Hfast. unfold_calls. cbn in Hfast.
    discriminate Hfast. }
  exact (sat_run _ _ _ _ _
           (rebuild_result env fuel data_dir chunk_size overlap w) H eq_refl).
Qed.

End Indexing.

(** ** get_stats *)

Section Statistics.

Context {vec float : Type}.
Variable true_div : Z -> Z -> float.

Local Abbreviation get_stats := (RagModule.get_stats (vec := vec) true_div).

Lemma get_stats_outcome (p : RAGPipeline vec) (s : RagModule.Statistics float) :
  get_stats p = RagModule.Stats s ->
  0 < RagModule.total_chunks s /\
  RagModule.total_chunks s = len (chunks p) /\
  RagModule.total_characters s = RagModule.sum (map len (chunks p)) /\
  RagModule.average_chunk_size s
    = RagModule.Float (true_div (RagModule.total_characters s)
                                (RagModule.total_chunks s)) /\
  NoDup (RagModule.sources s) /\
  (forall name, In name (RagModule.sources s)
                <-> exists m, In m (chunk_metadata p) /\ source m = name) /\
  RagModule.index_size s = match index p with
                           | Some vectors => len vectors
                           | None => 0
                           end.
Proof.
  unfold RagModule.get_stats.
  destruct (chunks p) as [|c cs] eqn:Hc; cbn [truthy negb]; [discriminate|].
  intros [= <-]. cbn.
  assert (Hpos : 0 < len (c :: cs)) by (unfold len; cbn; lia).
  replace (0 <? len (c :: cs)) with true by (symmetry; now apply Z.ltb_lt).
  split; [exact Hpos|]. do 3 (split; [reflexivity|]).
  split; [apply NoDup_nodup|]. split; [|reflexivity].
  intros name. rewrite nodup_In, in_map_iff.
  split; intros (m & A & B); exists m; auto.
Qed.

(** X22. Whenever [get_stats] returns statistics there is at least one
    chunk, so the average is always the true quotient of the two totals
    and never the integer 0 of the [else] branch; the sources are those
    named in the metadata, each once. *)
Theorem get_stats_average_is_quotient :
  forall (p : RAGPipeline vec) (s : RagModule.Statistics float),
    get_stats p = RagModule.Stats s ->
    0 < RagModule.total_chunks s /\
    RagModule.average_chunk_size s
      = RagModule.Float (true_div (RagModule.total_characters s)
                                  (RagModule.total_chunks s)) /\
    NoDup (RagModule.sources s) /\
    (forall name, In name (RagModule.sources s)
                  <-> exists m, In m (chunk_metadata p) /\ source m = name).
Proof.
  intros p s H.
  destruct (get_stats_outcome p s H) as (H1 & _ & _ & H2 & H3 & H4 & _). auto.
Qed.

End Statistics.

Section Statistics_of_a_build.

Variable unicode_alnum : char -> bool.
Variable sample_legal_text : str.
Variable sample_reread : encoding -> read_result.
Context {vec float : Type}.
Variable normalize_L2 : vec -> vec.
Variable true_div : Z -> Z -> float.

Local Abbreviation World := (Rag.World vec).
Local Abbreviation Env := (Rag.Env vec).
Local Abbreviation load_or_sample :=
  (Rag.load_or_sample sample_legal_text sample_reread).
Local Abbreviation build_index :=
  (Rag.build_index unicode_alnum sample_legal_text sample_reread normalize_L2).
Local Abbreviation get_stats := (RagModule.get_stats (vec := vec) true_div).

Lemma records_of_aligned (R : Meta -> str -> Prop) :
  forall (cs : list str) (ms : list Meta),
    length ms = length cs ->
    (forall i c, nth_error cs i = Some c ->
                 exists m, nth_error ms i = Some m /\ R m c) ->
    Forall2 (fun c m => R m c) cs ms.
Proof.
  induction cs as [|c cs IH]; intros [|m ms] Hlen Hall;
    try discriminate; constructor.
  - destruct (Hall 0%nat c eq_refl) as (m' & [= <-] & Hm). exact Hm.
  - apply IH; [cbn in Hlen; congruence|].
    intros i c' Hc'. exact (Hall (S i) c' Hc').
Qed.

(** What the statistics of a pipeline just rebuilt say. *)
Lemma get_stats_after_rebuild_aux :
  forall (env : Env) (fuel : nat) (data_dir : string) (chunk_size overlap : Z)
         (w w' : World),
    build_index env fuel data_dir chunk_size overlap true w = (Returns true, w') ->
    exists docs,
      fst (load_or_sample (corpus_read_only env) data_dir (dirs w))
        = Returns docs /\
      match get_stats (self w') with
      | RagModule.Stats s =>
          RagModule.index_size s = RagModule.total_chunks s /\
          RagModule.total_chunks s = len (chunk_metadata (self w')) /\
          RagModule.total_characters s
            = RagModule.sum (map char_count (chunk_metadata (self w'))) /\
          incl (RagModule.sources s) (map fst docs)
      | RagModule.NoDocuments => chunks (self w') = []
      | RagModule.EmptyDict => False
      end.
Proof.
  intros env fuel data_dir chunk_size overlap w w' H.
  apply (build_index_cases unicode_alnum sample_legal_text sample_reread
           normalize_L2) in H
    as [(_ & [=] & _)|[(_ & _ & Hfast & _)|(_ & _ & _ & H)]].
  { unfold fast_path, exists_ in Hfast. unfold_calls. cbn in Hfast.
    discriminate Hfast. }
  pose proof (sat_run _ _ _ _ _
                (rebuild_spec unicode_alnum sample_legal_text sample_reread
                   normalize_L2 env fuel data_dir chunk_size overlap w) H)
    as (_ & _ & _ & _ & _ & Hbuilt).
  destruct (Hbuilt eq_refl)
    as (enc & vectors & docs & _ & Hi & Hdocs & (Hv & Hm & Hall) & _).
  exists docs. split; [exact Hdocs|].
  assert (HF : Forall2 (fun c m => describes unicode_alnum fuel chunk_size
                                     overlap docs m c)
                       (chunks (self w')) (chunk_metadata (self w'))).
  { apply records_of_aligned; [exact Hm|].
    intros i c Hc. exact (proj2 (Hall i c Hc)). }
  destruct (get_stats (self w')) as [|s|] eqn:Hs.
  - unfold RagModule.get_stats in Hs.
    destruct (chunks (self w')); [reflexivity|discriminate Hs].
  - destruct (get_stats_outcome true_div (self w') s Hs)
      as (_ & Htc & Hch & _ & _ & Hsrc & Hsize).
    rewrite Hsize, Hi, Htc, Hch. unfold len. rewrite Hv, Hm.
    split; [reflexivity|]. split; [reflexivity|]. split.
    + f_equal. clear - HF.
      induction HF as [|c m cs ms (Hcc & _) _ IH]; [reflexivity|].
      cbn [map]. fold (len c). now rewrite <- Hcc, IH.
    + intros name Hname. apply Hsrc in Hname as (m & Hin & <-).
      clear - HF Hin.
      induction HF as [|c m' cs ms (_ & content & ? & Hd & _) _ IH];
        [contradiction|].
      destruct Hin as [->|Hin]; [|auto].
      apply in_map_iff. exists (source m, content). auto.
  - unfold RagModule.get_stats in Hs.
    destruct (chunks (self w')); discriminate Hs.
Qed.

(** X23. After a forced [build_index] that returned [True], the
    statistics agree with the index and the metadata: as many vectors
    as chunks and as records, the total of characters is the sum of the
    lengths recorded, and every source is a document of the corpus. *)
Theorem get_stats_after_rebuild :
  forall (env : Env) (fuel : nat) (data_dir : string) (chunk_size overlap : Z)
         (w w' : World),
    build_index env fuel data_dir chunk_size overlap true w = (Returns true, w') ->
    exists docs,
      fst (load_or_sample (corpus_read_only env) data_dir (dirs w))
        = Returns docs /\
      match get_stats (self w') with
      | RagModule.Stats s =>
          RagModule.index_size s = RagModule.total_chunks s /\
          RagModule.total_chunks s = len (chunk_metadata (self w')) /\
          RagModule.total_characters s
            = RagModule.sum (map char_count (chunk_metadata (self w'))) /\
          incl (RagModule.sources s) (map fst docs)
      | RagModule.NoDocuments => chunks (self w') = []
      | RagModule.EmptyDict => False
      end.
Proof. exact get_stats_after_rebuild_aux. Qed.

End Statistics_of_a_build.

(** ** The module-level functions *)

Section Module_level.

Variable unicode_alnum : char -> bool.
Variable sample_legal_text : str.
Variable sample_reread : encoding -> read_result.
Context {vec : Type}.
Variable normalize_L2 : vec -> vec.

Local Abbreviation World := (Rag.World vec).
Local Abbreviation Env := (Rag.Env vec).
Local Abbreviation Process := (RagModule.Process vec).
Local Abbreviation rag_pipeline := RagModule.rag_pipeline.
Local Abbreviation disk_files := RagModule.disk_files.
Local Abbreviation on_pipeline := RagModule.on_pipeline.
Local Abbreviation initialize_rag :=
  (RagModule.initialize_rag unicode_alnum sample_legal_text sample_reread
     normalize_L2).
Local Abbreviation module_build_index :=
  (RagModule.build_index unicode_alnum sample_legal_text sample_reread
     normalize_L2).
Local Abbreviation method_build_index :=
  (Rag.build_index unicode_alnum sample_legal_text sample_reread normalize_L2).

Lemma initialize_rag_unfold (d : nat) (env : Env) (fuel : nat) :
  initialize_rag (S d) env fuel
  = (p <- gets rag_pipeline ;;
     match p with
     | Some _ => ret true
     | None =>
         if negb (SENTENCE_TRANSFORMERS_AVAILABLE env)
            || negb (FAISS_AVAILABLE env)
         then ret false
         else
           RagModule.set_pipeline (init RagModule.default_model) ;;
           have_index <- RagModule.path_exists index_path ;;
           have_chunks <- RagModule.path_exists chunks_path ;;
           success <-
             (if have_index && have_chunks
              then on_pipeline (_load_existing_index env index_path chunks_path)
              else ret false) ;;
           if success then ret true
           else module_build_index d env fuel RagModule.default_data_dir true
     end)%py.
Proof. reflexivity. Qed.

Lemma build_index_unfold (d : nat) (env : Env) (fuel : nat)
    (data_dir : string) (force_rebuild : bool) :
  module_build_index (S d) env fuel data_dir force_rebuild
  = (p <- gets rag_pipeline ;;
     ready <-
       match p with
       | None => initialize_rag d env fuel
       | Some _ => ret true
       end ;;
     if negb ready then ret false
     else on_pipeline
            (method_build_index env fuel data_dir 1000 200 force_rebuild))%py.
Proof. reflexivity. Qed.

Lemma on_pipeline_some {A} (m : M World A) (g : Process) (p : RAGPipeline vec) :
  rag_pipeline g = Some p ->
  on_pipeline m g = (fst (m (world_of p g)), process_of (snd (m (world_of p g)))).
Proof.
  intros H. unfold RagModule.on_pipeline, world_of, process_of. rewrite H.
  destruct (m _) as [r w]. reflexivity.
Qed.

Lemma initialize_rag_some (d : nat) (env : Env) (fuel : nat) (g : Process)
    (p : RAGPipeline vec) :
  rag_pipeline g = Some p ->
  initialize_rag (S d) env fuel g = (Returns true, g).
Proof.
  intros H. rewrite initialize_rag_unfold. unfold bind at 1. unfold gets at 1.
  rewrite H. reflexivity.
Qed.

Lemma build_index_some (d : nat) (env : Env) (fuel : nat) (data_dir : string)
    (force_rebuild : bool) (g : Process) (p : RAGPipeline vec) :
  rag_pipeline g = Some p ->
  module_build_index (S d) env fuel data_dir force_rebuild g
  = on_pipeline (method_build_index env fuel data_dir 1000 200 force_rebuild) g.
Proof.
  intros H. rewrite build_index_unfold. unfold bind at 1. unfold gets at 1.
  rewrite H. reflexivity.
Qed.

Lemma build_index_none (d : nat) (env : Env) (fuel : nat) (data_dir : string)
    (force_rebuild : bool) (g : Process) :
  rag_pipeline g = None ->
  module_build_index (S d) env fuel data_dir force_rebuild g
  = match initialize_rag d env fuel g with
    | (Returns true, g') =>
        on_pipeline (method_build_index env fuel data_dir 1000 200 force_rebuild) g'
    | (Returns false, g') => (Returns false, g')
    | (Raises, g') => (Raises, g')
    | (Hangs, g') => (Hangs, g')
    end.
Proof.
  intros H. rewrite build_index_unfold. unfold bind at 1. unfold gets at 1.
  rewrite H. unfold bind at 1.
  destruct (initialize_rag d env fuel g) as [[[|]| |] g']; reflexivity.
Qed.

Lemma build_index_keeps_pipeline (d : nat) (env : Env) (fuel : nat)
    (data_dir : string) (force_rebuild : bool) (g : Process)
    (p : RAGPipeline vec) :
  rag_pipeline g = Some p ->
  exists p',
    rag_pipeline (snd (module_build_index d env fuel data_dir force_rebuild g))
    = Some p'.
Proof.
  intros H. destruct d as [|d]; [cbn; eauto|].
  rewrite (build_index_some d _ _ _ _ _ _ H), (on_pipeline_some _ _ _ H).
  cbn. eauto.
Qed.

Lemma build_index_some_true (d : nat) (env : Env) (fuel : nat)
    (data_dir : string) (force_rebuild : bool) (g g' : Process)
    (p : RAGPipeline vec) :
  rag_pipeline g = Some p ->
  module_build_index d env fuel data_dir force_rebuild g = (Returns true, g') ->
  exists w',
    method_build_index env fuel data_dir 1000 200 force_rebuild (world_of p g)
      = (Returns true, w') /\
    g' = process_of w'.
Proof.
  intros H Hrun. destruct d as [|d]; [discriminate Hrun|].
  rewrite (build_index_some d _ _ _ _ _ _ H), (on_pipeline_some _ _ _ H) in Hrun.
  destruct (method_build_index env fuel data_dir 1000 200 force_rebuild
              (world_of p g)) as [r w'].
  cbn [fst snd] in Hrun. injection Hrun as -> <-. eauto.
Qed.

(** The first call of [initialize_rag] in a process. *)
Lemma initialize_rag_fresh (d : nat) (env : Env) (fuel : nat) (g : Process) :
  rag_pipeline g = None ->
  SENTENCE_TRANSFORMERS_AVAILABLE env = true ->
  FAISS_AVAILABLE env = true ->
  initialize_rag (S d) env fuel g
  = let g0 := process_of (world_of (init RagModule.default_model) g) in
    match disk_files g index_path, disk_files g chunks_path with
    | Some _, Some _ =>
        match on_pipeline (_load_existing_index env index_path chunks_path) g0 with
        | (Returns true, g1) => (Returns true, g1)
        | (Returns false, g1) =>
            module_build_index d env fuel RagModule.default_data_dir true g1
        | (Raises, g1) => (Raises, g1)
        | (Hangs, g1) => (Hangs, g1)
        end
    | _, _ => module_build_index d env fuel RagModule.default_data_dir true g0
    end.
Proof.
  intros H Hst Hfa. rewrite initialize_rag_unfold.
  unfold bind at 1. unfold gets at 1. rewrite H, Hst, Hfa. cbn [negb orb].
  unfold RagModule.set_pipeline, RagModule.path_exists.
  unfold bind at 1 2 3. unfold modify, gets. cbn [RagModule.disk_files].
  fold (process_of (world_of (init RagModule.default_model) g)).
  destruct (disk_files g index_path), (disk_files g chunks_path);
    cbn [andb]; unfold bind; try reflexivity.
  destruct (on_pipeline _ _) as [[[|]| |] g1]; reflexivity.
Qed.

Lemma initialize_rag_without_libraries (d : nat) (env : Env) (fuel : nat)
    (g : Process) :
  rag_pipeline g = None ->
  SENTENCE_TRANSFORMERS_AVAILABLE env = false \/ FAISS_AVAILABLE env = false ->
  initialize_rag (S d) env fuel g = (Returns false, g).
Proof.
  intros H Hdeps. rewrite initialize_rag_unfold.
  unfold bind at 1. unfold gets at 1. rewrite H.
  destruct Hdeps as [-> | ->]; [reflexivity|].
  destruct (SENTENCE_TRANSFORMERS_AVAILABLE env); reflexivity.
Qed.

Lemma load_on_fresh (env : Env) (g : Process) (p : RAGPipeline vec) :
  exists b w',
    on_pipeline (_load_existing_index env index_path chunks_path)
                (process_of (world_of p g))
      = (Returns b, process_of w') /\
    files w' = disk_files g.
Proof.
  rewrite (on_pipeline_some _ _ p) by reflexivity.
  destruct (load_existing_outcome env index_path chunks_path
              (world_of p (process_of (world_of p g))))
    as (b & w' & Hrun & _ & Hf & _).
  exists b, w'. rewrite Hrun. split; [reflexivity|exact Hf].
Qed.

(** What a call of [initialize_rag] that returns [True] leaves, when it
    found no pipeline. *)
Lemma initialize_rag_true (d : nat) (env : Env) (fuel : nat) (g g' : Process) :
  rag_pipeline g = None ->
  initialize_rag d env fuel g = (Returns true, g') ->
  SENTENCE_TRANSFORMERS_AVAILABLE env = true /\
  FAISS_AVAILABLE env = true /\
  exists p,
    rag_pipeline g' = Some p /\
    disk_files g' index_path <> None /\
    disk_files g' chunks_path <> None.
Proof.
  intros H Hrun. destruct d as [|d]; [discriminate Hrun|].
  destruct (SENTENCE_TRANSFORMERS_AVAILABLE env) eqn:Hst.
  2:{ rewrite initialize_rag_without_libraries in Hrun by auto. discriminate. }
  destruct (FAISS_AVAILABLE env) eqn:Hfa.
  2:{ rewrite initialize_rag_without_libraries in Hrun by auto. discriminate. }
  split; [reflexivity|]. split; [reflexivity|].
  rewrite (initialize_rag_fresh d env fuel g H Hst Hfa) in Hrun.
  cbv zeta in Hrun.
  assert (Hbuilt : forall g1 p1,
             rag_pipeline g1 = Some p1 ->
             module_build_index d env fuel RagModule.default_data_dir true g1
               = (Returns true, g') ->
             exists p, rag_pipeline g' = Some p /\
                       disk_files g' index_path <> None /\
                       disk_files g' chunks_path <> None).
  { intros g1 p1 H1 Hb.
    destruct (build_index_some_true d env fuel _ _ g1 g' p1 H1 Hb)
      as (w' & Hm & ->).
    destruct (build_index_saved unicode_alnum sample_legal_text sample_reread
                normalize_L2 env fuel _ _ _ _ _ _ Hm)
      as (vectors & _ & Hfi & Hfc).
    exists (self w'). cbn. rewrite Hfi, Hfc.
    split; [reflexivity|]. split; discriminate. }
  destruct (disk_files g index_path) as [a1|] eqn:E1;
    [|(eapply Hbuilt; [|exact Hrun]; reflexivity)].
  destruct (disk_files g chunks_path) as [a2|] eqn:E2;
    [|(eapply Hbuilt; [|exact Hrun]; reflexivity)].
  destruct (load_on_fresh env g (init RagModule.default_model))
    as (b & w' & Hload & Hf).
  rewrite Hload in Hrun. destruct b.
  - injection Hrun as <-. exists (self w'). cbn. rewrite Hf, E1, E2.
    split; [reflexivity|]. split; discriminate.
  - (eapply Hbuilt; [|exact Hrun]; reflexivity).
Qed.

(** Where both files are there, [build_index] without [force_rebuild]
    is the load. *)
Lemma build_index_fast (env : Env) (fuel : nat) (data_dir : string)
    (chunk_size overlap : Z) (w : World) :
  SENTENCE_TRANSFORMERS_AVAILABLE env = true ->
  FAISS_AVAILABLE env = true ->
  files w index_path <> None -> files w chunks_path <> None ->
  method_build_index env fuel data_dir chunk_size overlap false w
  = _load_existing_index env index_path chunks_path w.
Proof.
  intros Hst Hfa Hi Hc. unfold Rag.build_index. rewrite Hst, Hfa.
  cbn [negb orb]. unfold fast_path, exists_.
  unfold bind at 1 2 3. unfold gets at 1 2. unfold ret at 1.
  destruct (files w index_path); [|congruence].
  destruct (files w chunks_path); [|congruence]. reflexivity.
Qed.

(** X24. In a process whose global pipeline is not yet set, the
    module-level [build_index] called without [force_rebuild] never
    reads its [data_dir]: the index is loaded from the two files, or
    built from the default directory, and the call then takes the fast
    path. Whatever [data_dir] is, the outcome and the process left are
    the same. *)
Theorem module_build_index_ignores_data_dir :
  forall (depth : nat) (env : Env) (fuel : nat) (dir1 dir2 : string)
         (g : Process),
    rag_pipeline g = None ->
    module_build_index depth env fuel dir1 false g
    = module_build_index depth env fuel dir2 false g.
Proof.
  intros depth env fuel dir1 dir2 g H. destruct depth as [|d]; [reflexivity|].
  rewrite !build_index_none by exact H.
  destruct (initialize_rag d env fuel g) as [[[|]| |] g'] eqn:Hinit;
    try reflexivity.
  destruct (initialize_rag_true d env fuel g g' H Hinit)
    as (Hst & Hfa & p & Hp & Hi & Hc).
  rewrite !(on_pipeline_some _ _ _ Hp).
  rewrite !build_index_fast; auto.
Qed.

(** X25. A first [initialize_rag] with both libraries present sets the
    global pipeline before it loads or builds anything, and nothing
    resets it: whether or not that first call succeeded, every later
    call returns [True] at once and retries nothing. *)
Theorem initialize_rag_not_retried :
  forall (d d' : nat) (env env' : Env) (fuel fuel' : nat) (g : Process),
    rag_pipeline g = None ->
    SENTENCE_TRANSFORMERS_AVAILABLE env = true ->
    FAISS_AVAILABLE env = true ->
    let g' := snd (initialize_rag (S d) env fuel g) in
    rag_pipeline g' <> None /\
    initialize_rag (S d') env' fuel' g' = (Returns true, g').
Proof.
  intros d d' env env' fuel fuel' g H Hst Hfa g'.
  assert (Hset : exists p, rag_pipeline g' = Some p).
  { unfold g'. rewrite (initialize_rag_fresh d env fuel g H Hst Hfa). cbv zeta.
    destruct (disk_files g index_path);
      [|eapply build_index_keeps_pipeline; reflexivity].
    destruct (disk_files g chunks_path);
      [|eapply build_index_keeps_pipeline; reflexivity].
    destruct (load_on_fresh env g (init RagModule.default_model))
      as (b & w' & -> & _).
    destruct b; [cbn; eauto|].
    eapply build_index_keeps_pipeline; reflexivity. }
  destruct Hset as (p & Hp). split; [congruence|].
  exact (initialize_rag_some d' env' fuel' g' p Hp).
Qed.


(** X27. [initialize_rag] ends: with the nesting it needs and enough
    passes for the chunker on the documents of the default directory,
    it returns or raises. *)
Theorem initialize_rag_ends :
  forall (env : Env) (g : Process),
    exists fuel0,
      forall fuel d, (fuel0 <= fuel)%nat ->
        fst (initialize_rag (2 + d) env fuel g) <> Hangs.
Proof.
  intros env g.
  assert (Hmethod : forall w : World,
             exists fuel0, forall fuel, (fuel0 <= fuel)%nat ->
               fst (method_build_index env fuel RagModule.default_data_dir
                      1000 200 true w) <> Hangs).
  { intros w.
    destruct (build_index_ends_aux unicode_alnum sample_legal_text sample_reread
                normalize_L2 env RagModule.default_data_dir 1000 200 true w)
      as (fuel0 & Hf); [lia|lia|vm_compute; discriminate|].
    exists fuel0. intros fuel Hfuel. exact (proj1 (Hf fuel Hfuel)). }
  assert (Hbuild : forall (p : RAGPipeline vec) (g1 : Process),
             rag_pipeline g1 = Some p ->
             exists fuel0, forall fuel d, (fuel0 <= fuel)%nat ->
               fst (module_build_index (S d) env fuel
                      RagModule.default_data_dir true g1) <> Hangs).
  { intros p g1 H1. destruct (Hmethod (world_of p g1)) as (fuel0 & Hf).
    exists fuel0. intros fuel d Hfuel.
    rewrite (build_index_some d _ _ _ _ _ _ H1), (on_pipeline_some _ _ _ H1).
    cbn [fst]. exact (Hf fuel Hfuel). }
  destruct (rag_pipeline g) as [p|] eqn:H.
  { exists 0%nat. intros fuel d _. cbn [Nat.add].
    rewrite (initialize_rag_some _ _ _ _ _ H). discriminate. }
  destruct (SENTENCE_TRANSFORMERS_AVAILABLE env) eqn:Hst.
  2:{ exists 0%nat. intros fuel d _. cbn [Nat.add].
      rewrite initialize_rag_without_libraries by auto. discriminate. }
  destruct (FAISS_AVAILABLE env) eqn:Hfa.
  2:{ exists 0%nat. intros fuel d _. cbn [Nat.add].
      rewrite initialize_rag_without_libraries by auto. discriminate. }
  destruct (load_on_fresh env g (init RagModule.default_model))
    as (b & w' & Hload & _).
  destruct (Hbuild (init RagModule.default_model)
              (process_of (world_of (init RagModule.default_model) g)) eq_refl)
    as (fuel1 & Hf1).
  destruct (Hbuild (self w') (process_of w') eq_refl) as (fuel2 & Hf2).
  exists (Nat.max fuel1 fuel2). intros fuel d Hfuel. cbn [Nat.add].
  rewrite (initialize_rag_fresh _ env fuel g H Hst Hfa). cbv zeta.
  destruct (disk_files g index_path); [|apply Hf1; lia].
  destruct (disk_files g chunks_path); [|apply Hf1; lia].
  rewrite Hload. destruct b; [discriminate|]. apply Hf2. lia.
Qed.

End Module_level.

Section Module_queries.

Variable unicode_alnum : char -> bool.
Variable sample_legal_text : str.
Variable sample_reread : encoding -> read_result.
Context {vec score float : Type}.
Variable normalize_L2 : vec -> vec.
Variable inner_product : vec -> vec -> score.
Variable score_leb : score -> score -> bool.
Variable lowest_score : score.
Variable true_div : Z -> Z -> float.

Local Abbreviation Env := (Rag.Env vec).
Local Abbreviation Process := (RagModule.Process vec).
Local Abbreviation rag_pipeline := RagModule.rag_pipeline.
Local Abbreviation initialize_rag :=
  (RagModule.initialize_rag unicode_alnum sample_legal_text sample_reread
     normalize_L2).
Local Abbreviation module_build_index :=
  (RagModule.build_index unicode_alnum sample_legal_text sample_reread
     normalize_L2).
Local Abbreviation module_search_law :=
  (RagModule.search_law unicode_alnum sample_legal_text sample_reread
     normalize_L2 inner_product score_leb lowest_score).
Local Abbreviation get_rag_stats :=
  (RagModule.get_rag_stats unicode_alnum sample_legal_text sample_reread
     normalize_L2 true_div).
Local Abbreviation method_search_law :=
  (Rag.search_law normalize_L2 inner_product score_leb lowest_score).

Lemma process_of_world (g : Process) (p : RAGPipeline vec) :
  rag_pipeline g = Some p -> process_of (world_of p g) = g.
Proof. destruct g. cbn. intros ->. reflexivity. Qed.

(** X28. Without one of the two libraries, and with no global pipeline
    yet, every module-level function gives up at once: [initialize_rag]
    and [build_index] return [False], [search_law] the empty list and
    [get_rag_stats] the empty dictionary, and no pipeline is created. *)
Theorem module_functions_without_libraries :
  forall (d : nat) (env : Env) (fuel : nat) (data_dir : string)
         (force_rebuild : bool) (query : str) (k : Z) (g : Process),
    rag_pipeline g = None ->
    SENTENCE_TRANSFORMERS_AVAILABLE env = false \/ FAISS_AVAILABLE env = false ->
    initialize_rag (S d) env fuel g = (Returns false, g) /\
    module_build_index (S (S d)) env fuel data_dir force_rebuild g
      = (Returns false, g) /\
    module_search_law (S d) env fuel query k g = (Returns [], g) /\
    get_rag_stats (S d) env fuel g = (Returns RagModule.EmptyDict, g).
Proof.
  intros d env fuel data_dir force_rebuild query k g H Hdeps.
  pose proof (fun d => initialize_rag_without_libraries unicode_alnum
                         sample_legal_text sample_reread normalize_L2
                         d env fuel g H Hdeps) as Hinit.
  split; [apply Hinit|]. split; [|split].
  - rewrite build_index_none by exact H. now rewrite Hinit.
  - unfold RagModule.search_law. unfold bind at 1. unfold gets at 1.
    rewrite H. unfold bind at 1. now rewrite Hinit.
  - unfold RagModule.get_rag_stats. unfold bind at 1. unfold gets at 1.
    rewrite H. unfold bind at 1. now rewrite Hinit.
Qed.

(** X29. Once the global pipeline is set, the module-level [search_law]
    and [get_rag_stats] are the methods of that pipeline, whatever the
    libraries and the disk have become: they return what the methods
    return and leave the process as it is. *)
Theorem module_queries_on_pipeline :
  forall (d : nat) (env : Env) (fuel : nat) (query : str) (k : Z)
         (g : Process) (p : RAGPipeline vec),
    rag_pipeline g = Some p ->
    (exists results,
        module_search_law d env fuel query k g = (Returns results, g) /\
        method_search_law query k (world_of p g)
          = (Returns results, world_of p g)) /\
    get_rag_stats d env fuel g = (Returns (RagModule.get_stats true_div p), g).
Proof.
  intros d env fuel query k g p H. split.
  - destruct (search_law_runs normalize_L2 inner_product score_leb lowest_score
                query k (world_of p g)) as (results & Hrun).
    exists results. split; [|exact Hrun].
    unfold RagModule.search_law. unfold bind at 1. unfold gets at 1.
    rewrite H. unfold bind at 1. unfold ret at 1. cbn [negb].
    rewrite (on_pipeline_some _ _ _ H), Hrun. cbn [fst snd].
    now rewrite (process_of_world g p H).
  - unfold RagModule.get_rag_stats. unfold bind at 1. unfold gets at 1.
    rewrite H. unfold bind at 1. unfold ret at 1. cbn [negb].
    rewrite (on_pipeline_some _ _ _ H). unfold bind, gets, ret. cbn.
    now rewrite (process_of_world g p H).
Qed.

End Module_queries.

(** ** The properties on the small instance *)

Import Toy.


Lemma build_index_disk_matches_memory_witness :
  exists vectors,
    index (self w1) = Some vectors /\
    files w1 index_path = Some (FaissIndex vectors) /\
    files w1 chunks_path
      = Some (Pickle (chunks (self w1)) (chunk_metadata (self w1))).
Proof.
  apply (build_index_disk_matches_memory alnum sample sample_reread normalize
           (env None None) 2000 laws 1000 200 false w0 w1).
  vm_compute. reflexivity.
Defined.

Lemma build_then_load_round_trip_witness :
  exists w'',
    build_index alnum sample sample_reread normalize (env None None)
                2000 laws 1000 200 false
                {| self := init fallback_model; dirs := two_docs;
                   files := files w1 |}
      = (Returns true, w'') /\
    index (self w'') = index (self w1) /\
    chunks (self w'') = chunks (self w1) /\
    chunk_metadata (self w'') = chunk_metadata (self w1).
Proof.
  apply (build_then_load_round_trip alnum sample sample_reread normalize
           (env None None) 2000 laws 1000 200 false w0 w1).
  - vm_compute. reflexivity.
  - reflexivity.
  - reflexivity.
  - left. discriminate.
Defined.


Lemma search_law_nonpositive_k_witness :
  search (lit "property") 0 w1 = (Returns [], w1).
Proof.
  apply (search_law_nonpositive_k normalize Z.mul Z.leb lowest w1). lia.
Defined.

Lemma search_law_scores_descend_witness :
  search (lit "property") 3 w1 = (Returns thrice, w1) /\
  StronglySorted (not_above Z.leb) (map score_of thrice).
Proof.
  assert (H : search (lit "property") 3 w1 = (Returns thrice, w1))
    by (vm_compute; reflexivity).
  split; [exact H|].
  apply (search_law_scores_descend normalize Z.mul Z.leb lowest w1
           (lit "property") 3 thrice).
  - intros a b. destruct (Z.leb_spec a b); [now left|right].
    apply Z.leb_le. lia.
  - intros a b c Hab Hbc. apply Z.leb_le in Hab, Hbc. apply Z.leb_le. lia.
  - intros enc vectors v He Hi Hv. vm_compute in He, Hi.
    injection He as <-. injection Hi as <-.
    destruct Hv as [<-|[]]. vm_compute. reflexivity.
  - exact H.
Defined.

Lemma search_law_reads_four_attributes_witness :
  fst (search (lit "property") 3 w1)
  = fst (search (lit "property") 3 (with_dirs three_docs w1)).
Proof.
  apply (search_law_reads_four_attributes normalize Z.mul Z.leb lowest
           w1 (with_dirs three_docs w1)); reflexivity.
Defined.

Lemma build_index_ends_witness :
  exists fuel0,
    forall fuel, (fuel0 <= fuel)%nat ->
      fst (build_index alnum sample sample_reread normalize (env None None)
             fuel laws 1000 200 false w0) <> Hangs /\
      (corpus_read_only (env None None) = false ->
       exists b,
         fst (build_index alnum sample sample_reread normalize (env None None)
                fuel laws 1000 200 false w0) = Returns b).
Proof.
  apply (build_index_ends alnum sample sample_reread normalize (env None None)
           laws 1000 200 false w0); [lia|lia|vm_compute; discriminate].
Defined.

Lemma get_stats_average_is_quotient_witness :
  RagModule.get_stats ratio (self w5) = RagModule.Stats stats_w5 /\
  0 < RagModule.total_chunks stats_w5 /\
  RagModule.average_chunk_size stats_w5
    = RagModule.Float (ratio (RagModule.total_characters stats_w5)
                             (RagModule.total_chunks stats_w5)) /\
  NoDup (RagModule.sources stats_w5) /\
  (forall name, In name (RagModule.sources stats_w5)
                <-> exists m, In m (chunk_metadata (self w5)) /\ source m = name).
Proof.
  assert (H : RagModule.get_stats ratio (self w5) = RagModule.Stats stats_w5)
    by (vm_compute; reflexivity).
  split; [exact H|].
  exact (get_stats_average_is_quotient ratio (self w5) stats_w5 H).
Defined.

Lemma get_stats_after_rebuild_witness :
  exists docs,
    fst (load_or_sample sample sample_reread (corpus_read_only (env None None))
           laws (dirs (with_dirs two_docs w1))) = Returns docs /\
    match RagModule.get_stats ratio (self w5) with
    | RagModule.Stats s =>
        RagModule.index_size s = RagModule.total_chunks s /\
        RagModule.total_chunks s = len (chunk_metadata (self w5)) /\
        RagModule.total_characters s
          = RagModule.sum (map char_count (chunk_metadata (self w5))) /\
        incl (RagModule.sources s) (map fst docs)
    | RagModule.NoDocuments => chunks (self w5) = []
    | RagModule.EmptyDict => False
    end.
Proof.
  apply (get_stats_after_rebuild alnum sample sample_reread normalize ratio
           (env None None) 2000 laws 1000 200 (with_dirs two_docs w1) w5).
  vm_compute. reflexivity.
Defined.

Lemma module_build_index_ignores_data_dir_witness :
  RagModule.build_index alnum sample sample_reread normalize 3 (env None None)
    2000 "data/laws_raw" false (new_process one_doc)
  = RagModule.build_index alnum sample sample_reread normalize 3 (env None None)
      2000 "data/other" false (new_process one_doc).
Proof.
  apply (module_build_index_ignores_data_dir alnum sample sample_reread
           normalize 3 (env None None) 2000 "data/laws_raw" "data/other"
           (new_process one_doc)).
  reflexivity.
Defined.

Lemma initialize_rag_not_retried_witness :
  fst (RagModule.initialize_rag alnum sample sample_reread normalize 2
         (env None (Some AtOpen)) 2000 (new_process one_doc)) = Returns false /\
  let g' := snd (RagModule.initialize_rag alnum sample sample_reread normalize 2
                   (env None (Some AtOpen)) 2000 (new_process one_doc)) in
  RagModule.rag_pipeline g' <> None /\
  RagModule.initialize_rag alnum sample sample_reread normalize 1
    (env None None) 2000 g' = (Returns true, g').
Proof.
  split; [vm_compute; reflexivity|].
  apply (initialize_rag_not_retried alnum sample sample_reread normalize 1 0
           (env None (Some AtOpen)) (env None None) 2000 2000
           (new_process one_doc)); reflexivity.
Defined.

Lemma module_functions_without_libraries_witness :
  RagModule.initialize_rag alnum sample sample_reread normalize 1
    env_without_faiss 2000 (new_process one_doc)
    = (Returns false, new_process one_doc) /\
  RagModule.build_index alnum sample sample_reread normalize 2
    env_without_faiss 2000 laws true (new_process one_doc)
    = (Returns false, new_process one_doc) /\
  RagModule.search_law alnum sample sample_reread normalize Z.mul Z.leb lowest 1
    env_without_faiss 2000 (lit "property") 3 (new_process one_doc)
    = (Returns [], new_process one_doc) /\
  RagModule.get_rag_stats alnum sample sample_reread normalize ratio 1
    env_without_faiss 2000 (new_process one_doc)
    = (Returns RagModule.EmptyDict, new_process one_doc).
Proof.
  apply (module_functions_without_libraries alnum sample sample_reread normalize
           Z.mul Z.leb lowest ratio 0 env_without_faiss 2000 laws true
           (lit "property") 3 (new_process one_doc)).
  - reflexivity.
  - right. reflexivity.
Defined.

Lemma module_queries_on_pipeline_witness :
  (exists results,
      RagModule.search_law alnum sample sample_reread normalize Z.mul Z.leb
        lowest 0 env_without_faiss 0 (lit "property") 3 (process_of w1)
        = (Returns results, process_of w1) /\
      search (lit "property") 3 (world_of (self w1) (process_of w1))
        = (Returns results, world_of (self w1) (process_of w1))) /\
  RagModule.get_rag_stats alnum sample sample_reread normalize ratio 0
    env_without_faiss 0 (process_of w1)
    = (Returns (RagModule.get_stats ratio (self w1)), process_of w1).
Proof.
  apply (module_queries_on_pipeline alnum sample sample_reread normalize
           Z.mul Z.leb lowest ratio 0 env_without_faiss 0 (lit "property") 3
           (process_of w1) (self w1)).
  reflexivity.
Defined.

Lemma build_index_indexes_every_chunk_witness :
  exists docs per_doc enc,
    fst (load_or_sample sample sample_reread (corpus_read_only (env None None))
           laws (dirs (with_dirs two_docs w1))) = Returns docs /\
    Forall2 (fun d cs => split_text 2000 (clean_text alnum (snd d)) 1000 200
                         = Some cs) docs per_doc /\
    chunks (self w5) = concat per_doc /\
    chunk_metadata (self w5)
    = concat (map (fun dc : (string * str) * list str =>
                     records_of (fst (fst dc)) (snd dc))
                  (combine docs per_doc)) /\
    Rag.encoder (self w5) = Some enc /\
    index (self w5)
    = Some (map (fun c => normalize (embed enc c)) (concat per_doc)).
Proof.
  apply (build_index_indexes_every_chunk alnum sample sample_reread normalize
           (env None None) 2000 laws 1000 200 (with_dirs two_docs w1) w5).
  vm_compute. reflexivity.
Defined.

End RagMore.
